(** * The synesthesia battery: trial plan, response recorder, congruency
      builders and scorer

    A shallow embedding of the battery engine of the Syn application
    (TypeScript) and the properties its specification states about it.

    Conventions of the embedding.
    - A JavaScript [number] that the code only uses as an integer (array
      indices, repeat indices, colour channels, LCG states, character codes)
      is a [Z]; every such computation in the embedded code stays below 2^53,
      where IEEE doubles are exact.
    - A [number] that carries a measurement or a statistic (ΔE, means,
      percentages) is an element of a [JsNumber] structure; the file gives two
      instances: exact rationals ([Q]) and the kernel's binary64 floats.
    - The percentage of the progress bar is computed in binary64, on the
      kernel's floats.
    - A string is a [string]; a character stands for one UTF-16 code unit
      below 256.
    - [undefined] and [null] are [None].
    - [Date.now()] and [Math.random()] are inputs: a clock value and an
      oracle that is threaded through the code that draws from it. *)

From Stdlib Require Import ZArith QArith Qround Lia Permutation.
From Stdlib Require Import Floats.PrimFloat Floats.SpecFloat Floats.FloatOps.
From Stdlib Require Floats.FloatAxioms.
From Stdlib Require Import Numbers.Cyclic.Int63.Uint63.
From Stdlib Require Import Ascii Sorted.
From stdpp Require Import base option list strings pretty.

Local Open Scope Z_scope.

(* ===================================================================== *)
(** * Part I. The JavaScript runtime the code relies on                   *)
(* ===================================================================== *)

(** ** Strings *)
Module JsString.

(** [WhiteSpace] and [LineTerminator] code units below 256: TAB, LF, VT, FF,
    CR, SP and NBSP. *)
Definition isWhiteSpace (c : ascii) : bool :=
  match N_of_ascii c with
  | 9 | 10 | 11 | 12 | 13 | 32 | 160 => true
  | _ => false
  end%N.

Fixpoint trimStart (s : string) : string :=
  match s with
  | EmptyString => EmptyString
  | String c s' => if isWhiteSpace c then trimStart s' else s
  end.

Fixpoint trimEnd (s : string) : string :=
  match s with
  | EmptyString => EmptyString
  | String c s' =>
      match trimEnd s' with
      | EmptyString => if isWhiteSpace c then EmptyString else String c EmptyString
      | t => String c t
      end
  end.

(** [String.prototype.trim] *)
Definition trim (s : string) : string := trimEnd (trimStart s).

(** Lower-casing of one code unit: A-Z, and the Latin-1 capitals
    U+00C0..U+00DE without the multiplication sign U+00D7. *)
Definition lowerChar (c : ascii) : ascii :=
  let n := N_of_ascii c in
  if ((65 <=? n) && (n <=? 90) || (192 <=? n) && (n <=? 222) && negb (n =? 215))%N
  then ascii_of_N (n + 32) else c.

(** [String.prototype.toLowerCase] *)
Fixpoint toLowerCase (s : string) : string :=
  match s with
  | EmptyString => EmptyString
  | String c s' => String (lowerChar c) (toLowerCase s')
  end.

(** [s.startsWith(p)] *)
Definition startsWith (p s : string) : bool := String.prefix p s.

(** [s.slice(a, b)] for [0 <= a <= b]. *)
Definition slice (a b : nat) (s : string) : string := String.substring a (b - a) s.

(** [s.padStart(n, c)] with a one-character filler. *)
Fixpoint repeatChar (n : nat) (c : ascii) : string :=
  match n with
  | O => EmptyString
  | S n' => String c (repeatChar n' c)
  end.

Definition padStart (n : nat) (c : ascii) (s : string) : string :=
  repeatChar (n - String.length s) c +:+ s.

(** [!s] on a string: only the empty string is falsy. *)
Definition isEmpty (s : string) : bool :=
  match s with EmptyString => true | _ => false end.

(** [s.charCodeAt(i)] for each position, in order. *)
Fixpoint charCodes (s : string) : list Z :=
  match s with
  | EmptyString => []
  | String c s' => Z.of_N (N_of_ascii c) :: charCodes s'
  end.

Definition isDigit (c : ascii) : bool :=
  let n := N_of_ascii c in ((48 <=? n) && (n <=? 57))%N.

Definition isLowerHexDigit (c : ascii) : bool :=
  let n := N_of_ascii c in
  ((48 <=? n) && (n <=? 57) || (97 <=? n) && (n <=? 102))%N.

Definition isHexDigit (c : ascii) : bool :=
  let n := N_of_ascii c in
  ((48 <=? n) && (n <=? 57) || (97 <=? n) && (n <=? 102)
   || (65 <=? n) && (n <=? 70))%N.

Fixpoint allChars (p : ascii -> bool) (s : string) : bool :=
  match s with
  | EmptyString => true
  | String c s' => p c && allChars p s'
  end.

(** The value of a hexadecimal digit, either case. *)
Definition hexDigitValue (c : ascii) : option Z :=
  let n := N_of_ascii c in
  if ((48 <=? n) && (n <=? 57))%N then Some (Z.of_N n - 48)
  else if ((97 <=? n) && (n <=? 102))%N then Some (Z.of_N n - 87)
  else if ((65 <=? n) && (n <=? 70))%N then Some (Z.of_N n - 55)
  else None.

(** The longest prefix of hexadecimal digits, read as a number; [acc] is
    [None] until a digit has been seen. *)
Fixpoint parseHexDigits (s : string) (acc : option Z) : option Z :=
  match s with
  | EmptyString => acc
  | String c s' =>
      match hexDigitValue c with
      | Some d => parseHexDigits s' (Some (16 * default 0 acc + d))
      | None => acc
      end
  end.

Definition stripHexPrefix (s : string) : string :=
  match s with
  | String "0" (String "x" s') => s'
  | String "0" (String "X" s') => s'
  | _ => s
  end.

(** [parseInt(s, 16)]: leading white space, a sign, [0x], then the longest
    run of digits; [None] is NaN. *)
Definition parseInt16 (s : string) : option Z :=
  match trimStart s with
  | String "-" s' => Z.opp <$> parseHexDigits (stripHexPrefix s') None
  | String "+" s' => parseHexDigits (stripHexPrefix s') None
  | s' => parseHexDigits (stripHexPrefix s') None
  end.

Definition hexDigitChar (d : Z) : ascii :=
  match d with
  | 0 => "0" | 1 => "1" | 2 => "2" | 3 => "3" | 4 => "4" | 5 => "5"
  | 6 => "6" | 7 => "7" | 8 => "8" | 9 => "9" | 10 => "a" | 11 => "b"
  | 12 => "c" | 13 => "d" | 14 => "e" | _ => "f"
  end%char.

Fixpoint toHexDigits (fuel : nat) (n : Z) (acc : string) : string :=
  match fuel with
  | O => acc
  | S fuel' =>
      let acc' := String (hexDigitChar (n mod 16)) acc in
      if n / 16 =? 0 then acc' else toHexDigits fuel' (n / 16) acc'
  end.

(** [n.toString(16)] for an integer [n]; the fuel is the bit length of [n],
    one more than the number of hexadecimal digits ever needed. *)
Definition toString16 (n : Z) : string :=
  let m := Z.abs n in
  let digits := toHexDigits (S (Z.to_nat (Z.log2 m))) m EmptyString in
  if n <? 0 then String "-" digits else digits.

End JsString.

(** ** Numbers *)

(** [Math.round]: the nearest integer, ties towards +∞. *)
Definition Math_round (x : Q) : Z := Qfloor (x + (1 # 2))%Q.

(** [x | 0] (ToInt32): truncation towards zero, then wrap-around to the
    signed 32-bit range. *)
Definition toInt32 (x : Q) : Z :=
  let t := Z.quot (Qnum x) (Z.pos (Qden x)) in
  (t + 2147483648) mod 4294967296 - 2147483648.

(** The 32-bit integer operations, on integers. The bitwise operators take
    both operands through ToInt32 and [>>>] takes its left operand through
    ToUint32; [Z.lxor] and [Z.land] work on two's complement, as the
    operators do. *)
Module JsBits.

(** ToInt32 and ToUint32 of an integer *)
Definition int32 (z : Z) : Z := (z + 2147483648) mod 4294967296 - 2147483648.
Definition uint32 (z : Z) : Z := z mod 4294967296.

(** [a ^ b] *)
Definition bitxor (a b : Z) : Z := Z.lxor (int32 a) (int32 b).

(** [a & b] *)
Definition bitand (a b : Z) : Z := Z.land (int32 a) (int32 b).

(** [a >>> n] for [0 <= n < 32] *)
Definition ushr (a n : Z) : Z := Z.shiftr (uint32 a) n.

(** [Math.imul(a, b)] *)
Definition imul (a b : Z) : Z := int32 (int32 a * int32 b).

End JsBits.

(** The arithmetic of non-integer [number]s. The scorer is written once over
    this interface, in the order of operations of the source, and read with
    exact rationals or with binary64 floats. *)
Class JsNumber (num : Type) := {
  num_ofZ : Z -> num;
  num_add : num -> num -> num;
  num_sub : num -> num -> num;
  num_mul : num -> num -> num;
  num_div : num -> num -> num;
  num_leb : num -> num -> bool;
  num_ltb : num -> num -> bool
}.

(** [Math.pow], [Math.cbrt] and [Math.sqrt], which the platform provides. *)
Class JsMath (num : Type) := {
  Math_pow : num -> num -> num;
  Math_cbrt : num -> num;
  Math_sqrt : num -> num
}.

(** A decimal literal [n / d], such as [0.04045 = 4045 / 100000]: one
    correctly rounded quotient of two exactly representable integers. *)
Definition num_dec {num} `{JsNumber num} (n d : Z) : num :=
  num_div (num_ofZ n) (num_ofZ d).

(** Exact rationals, kept in lowest terms so that equal values are equal
    terms. Division by zero, NaN in JavaScript, is [0] here: this reading is
    only used where the divisor is known to be non-zero. *)
#[export] Instance QNumber : JsNumber Q := {|
  num_ofZ := inject_Z;
  num_add := fun x y => Qred (x + y);
  num_sub := fun x y => Qred (x - y);
  num_mul := fun x y => Qred (x * y);
  num_div := fun x y => Qred (x / y);
  num_leb := Qle_bool;
  num_ltb := fun x y => negb (Qle_bool y x)
|}.

(** An integer below 2^63 in magnitude as a float (exact below 2^53). *)
Definition float_ofZ (z : Z) : float :=
  if z <? 0 then PrimFloat.opp (PrimFloat.of_uint63 (Uint63.of_Z (- z)))
  else PrimFloat.of_uint63 (Uint63.of_Z z).

(** IEEE 754 binary64, the arithmetic JavaScript runs. *)
#[export] Instance FloatNumber : JsNumber float := {|
  num_ofZ := float_ofZ;
  num_add := PrimFloat.add;
  num_sub := PrimFloat.sub;
  num_mul := PrimFloat.mul;
  num_div := PrimFloat.div;
  num_leb := PrimFloat.leb;
  num_ltb := PrimFloat.ltb
|}.

(** The exact value of a finite float; NaN and the infinities have none. *)
Definition float_toQ (x : float) : option Q :=
  match Prim2SF x with
  | S754_zero _ => Some 0%Q
  | S754_finite s m e =>
      let n := if s then Z.neg m else Z.pos m in
      Some (if 0 <=? e then inject_Z (n * 2 ^ e) else Qmake n (2 ^ Z.to_pos (- e)))
  | _ => None
  end.

(** [Math.round] of a float, an integer when the float is finite. *)
Definition Math_round_float (x : float) : option Z := Math_round <$> float_toQ x.

(** ** [Map]: a dictionary that remembers insertion order *)
Module JsMap.
Section JsMap.
Context {K V : Type} `{EqDecision K}.

Fixpoint get (m : list (K * V)) (k : K) : option V :=
  match m with
  | [] => None
  | (k', v) :: m' => if decide (k = k') then Some v else get m' k
  end.

Definition has (m : list (K * V)) (k : K) : bool :=
  match get m k with Some _ => true | None => false end.

(** [m.set(k, v)]: an existing key keeps its place, a new key goes last. *)
Fixpoint set (m : list (K * V)) (k : K) (v : V) : list (K * V) :=
  match m with
  | [] => [(k, v)]
  | (k', v') :: m' =>
      if decide (k = k') then (k, v) :: m' else (k', v') :: set m' k v
  end.

Definition keys (m : list (K * V)) : list K := m.*1.
Definition values (m : list (K * V)) : list V := m.*2.

End JsMap.
End JsMap.

(** [Array.from(new Set(l))]: the distinct elements, each at its first
    occurrence. *)
Fixpoint uniqueInOrder {A} `{EqDecision A} (seen l : list A) : list A :=
  match l with
  | [] => []
  | x :: l' =>
      if decide (x ∈ seen) then uniqueInOrder seen l'
      else x :: uniqueInOrder (x :: seen) l'
  end.

(** ** Arrays *)

(** An array whose elements may be [undefined] ([None]), together with the
    properties an assignment [a[j] = v] creates when [j] is negative: such a
    [j] is a property name, not an index, and is invisible to [length] and to
    iteration. *)
Module JsArray.
Section JsArray.
Context {T : Type}.

Record t := mk { items : list (option T); props : list (Z * option T) }.

Definition ofList (l : list T) : t := {| items := Some <$> l; props := [] |}.

Definition length (a : t) : Z := Z.of_nat (List.length (items a)).

(** [a[j]] for an integer [j] *)
Definition get (a : t) (j : Z) : option T :=
  if 0 <=? j then mjoin (items a !! Z.to_nat j)
  else mjoin (JsMap.get (props a) j).

(** [a[j] = v] for an integer [j]: in range it overwrites, past the end it
    extends the array with holes, below zero it sets a property. *)
Definition set (a : t) (j : Z) (v : option T) : t :=
  if j <? 0 then {| items := items a; props := JsMap.set (props a) j v |}
  else if j <? length a then
    {| items := <[Z.to_nat j := v]> (items a); props := props a |}
  else
    {| items := items a ++ replicate (Z.to_nat (j - length a)) None ++ [v];
       props := props a |}.

(** [[a[i], a[j]] = [a[j], a[i]]]: both reads, then the two writes. *)
Definition swap (a : t) (i j : Z) : t :=
  let x := get a j in
  let y := get a i in
  set (set a i x) j y.

End JsArray.
Arguments t : clear implicits.
End JsArray.

(** [Array.prototype.sort(cmp)], a stable sort: each element in turn goes
    behind the elements that do not compare greater than it. *)
Fixpoint insertBy {A} (cmp : A -> A -> Z) (x : A) (l : list A) : list A :=
  match l with
  | [] => [x]
  | y :: l' => if cmp x y <? 0 then x :: y :: l' else y :: insertBy cmp x l'
  end.

Definition sortBy {A} (cmp : A -> A -> Z) (l : list A) : list A :=
  fold_left (fun acc x => insertBy cmp x acc) l [].

(* ===================================================================== *)
(** * Part II. The code                                                    *)
(* ===================================================================== *)

(** [Rgb = { r: number; g: number; b: number }], three integers. *)
Record Rgb := mkRgb { r : Z; g : Z; b : Z }.

#[export] Instance Rgb_eq_dec : EqDecision Rgb.
Proof. solve_decision. Defined.

(** ** app/battery/_components/ColorWheel.tsx *)
Module ColorWheel.
Import JsString.

(** [/^[0-9a-fA-F]{6}$/.test(s)] *)
Definition isBareHex6 (s : string) : bool :=
  (String.length s =? 6)%nat && allChars isHexDigit s.

(** [/^#[0-9a-f]{6}$/.test(h)] *)
Definition isHashHex6 (h : string) : bool :=
  match h with
  | String "#" t => (String.length t =? 6)%nat && allChars isLowerHexDigit t
  | _ => false
  end.

Definition normalizeHex (v : string) : string :=
  let s := trim v in
  if isEmpty s then ""
  else if startsWith "#" s then toLowerCase s
  else if isBareHex6 s then "#" +:+ toLowerCase s
  else toLowerCase s.

(** [null] is [None]; so is the outcome of the [Number.isFinite] test when
    one of the three [parseInt]s is NaN. *)
Definition hexToRgbSafe (hex : string) : option Rgb :=
  let h := normalizeHex hex in
  if negb (isHashHex6 h) then None
  else
    match parseInt16 (slice 1 3 h), parseInt16 (slice 3 5 h),
          parseInt16 (slice 5 7 h) with
    | Some r, Some g, Some b => Some (mkRgb r g b)
    | _, _, _ => None
    end.

Definition clamp (n a b : Z) : Z := Z.max a (Z.min b n).

(** One channel of [rgbToHex]:
    [clamp(Math.round(x), 0, 255).toString(16).padStart(2, "0")]. *)
Definition channelHex (x : Q) : string :=
  padStart 2 "0" (toString16 (clamp (Math_round x) 0 255)).

Definition rgbToHex (r g b : Q) : string :=
  let rr := channelHex r in
  let gg := channelHex g in
  let bb := channelHex b in
  toLowerCase ("#" +:+ rr +:+ gg +:+ bb).

End ColorWheel.

(** ** app/battery/_lib/batteryTypes.ts *)
Module BatteryTypes.

(** ["grapheme" | "weekday"] *)
Inductive Kind := KGrapheme | KWeekday.

#[export] Instance Kind_eq_dec : EqDecision Kind.
Proof. solve_decision. Defined.

Definition kindString (k : Kind) : string :=
  match k with KGrapheme => "grapheme" | KWeekday => "weekday" end.

Record PickerResponse := {
  grapheme : string;
  kind : Kind;
  repeatIndex : Z;
  trialIndex : Z;
  atMs : Z;
  isNoColor : bool;
  rgb : option Rgb;
  hex : option string
}.

Inductive Choice := ChoseMatch | ChoseMismatch.

Record CongruencyResponse := {
  c_trialIndex : Z;
  c_atMs : Z;
  c_rtMs : Z;
  c_correct : bool;
  c_expectedMatch : bool;
  c_stimulusText : string;
  c_shownHex : string;
  c_chosen : Choice
}.

Record PickerPlan := { plan_graphemes : list string; plan_weekdays : list string }.

(** The optional [meta] field is never read by the code below and is left
    out. *)
Record BatteryRunPayload := {
  version : Z;
  createdAtMs : Z;
  repeats : Z;
  pickerPlan : PickerPlan;
  pickerResponses : list PickerResponse;
  congruencyResponses : list CongruencyResponse
}.

End BatteryTypes.

(** ** app/battery/_lib/batteryPlan.ts *)
Module BatteryPlan.
Import BatteryTypes.

Definition DEFAULT_GRAPHEMES : list string :=
  ["A"; "B"; "C"; "D"; "E"; "F"; "G"; "H"; "I"; "J"; "K"; "L"; "M"; "N"; "O";
   "P"; "Q"; "R"; "S"; "T"; "U"; "V"; "W"; "X"; "Y"; "Z"]%string.

Definition DEFAULT_WEEKDAYS : list string :=
  ["Monday"; "Tuesday"; "Wednesday"; "Thursday"; "Friday"; "Saturday";
   "Sunday"]%string.

Record PickerTrial := {
  grapheme : string;
  kind : Kind;
  repeatIndex : Z
}.

#[export] Instance PickerTrial_eq_dec : EqDecision PickerTrial.
Proof. solve_decision. Defined.

(** One step of [rand]: [s = (s * 1664525 + 1013904223) % 4294967296]. The
    [%] of JavaScript keeps the sign of the dividend, as [Z.rem] does. *)
Definition lcgNext (s : Z) : Z := Z.rem (s * 1664525 + 1013904223) 4294967296.

(** [Math.floor(rand() * (i + 1))] for the state [s] that [rand] has just
    stored: the floor of [s / 4294967296 * (i + 1)]. The quotient by 2^32 is
    exact in binary64, and so is the product while [i + 1 < 2^21]. *)
Definition randIndex (s : Z) (i : Z) : Z := (s * (i + 1)) / 4294967296.

(** The loop [for (let i = a.length - 1; i > 0; i--)], entered at [i]. *)
Fixpoint shuffleLoop {T} (i : nat) (s : Z) (a : JsArray.t T) : JsArray.t T :=
  match i with
  | O => a
  | S i' =>
      let s' := lcgNext s in
      let j := randIndex s' (Z.of_nat i) in
      shuffleLoop i' s' (JsArray.swap a (Z.of_nat i) j)
  end.

(** [shuffle(arr, seed)]; [now] is what [Date.now()] returns when the seed
    is absent. The result is the array [a], element by element. *)
Definition shuffle {T} (arr : list T) (seed : option Z) (now : Z)
  : list (option T) :=
  let a := JsArray.ofList arr in
  let s := default now seed in
  JsArray.items (shuffleLoop (List.length arr - 1) s a).

Record Opts := {
  graphemes : list string;
  weekdays : list string;
  repeats : Z;
  seed : option Z
}.

(** The two inner loops for one value of [r]. *)
Definition trialsOfRepeat (opts : Opts) (r : Z) : list PickerTrial :=
  ((fun g => {| grapheme := g; kind := KGrapheme; repeatIndex := r |})
     <$> graphemes opts)
  ++ ((fun d => {| grapheme := d; kind := KWeekday; repeatIndex := r |})
        <$> weekdays opts).

(** The array [trials] before the shuffle: [r] runs over [0 .. repeats - 1]. *)
Definition unshuffledTrials (opts : Opts) : list PickerTrial :=
  r ← Z.of_nat <$> seq 0 (Z.to_nat (repeats opts)); trialsOfRepeat opts r.

Definition buildPickerTrials (opts : Opts) (now : Z) : list (option PickerTrial) :=
  shuffle (unshuffledTrials opts) (seed opts) now.

End BatteryPlan.

(** ** app/battery/[id]/picker.tsx *)
Module Picker.
Import JsString BatteryTypes.

(** [trialKey(t)], the template string [`${t.kind}:${t.grapheme}:${t.repeatIndex}`];
    it is applied to trials and to responses alike. An integer prints in
    decimal, with a leading [-] when negative. *)
Definition trialKey (k : Kind) (grapheme : string) (repeatIndex : Z) : string :=
  kindString k +:+ ":" +:+ grapheme +:+ ":" +:+ pretty repeatIndex.

Definition trialKeyOfTrial (t : BatteryPlan.PickerTrial) : string :=
  trialKey (BatteryPlan.kind t) (BatteryPlan.grapheme t) (BatteryPlan.repeatIndex t).

Definition trialKeyOfResponse (r : PickerResponse) : string :=
  trialKey (kind r) (grapheme r) (repeatIndex r).

(** The seed of [PickerScreen.trials]:
    [for (...) seed = (seed * 31 + runId.charCodeAt(i)) >>> 0]. *)
Definition seedOfRunId (runId : string) : Z :=
  fold_left (fun seed c => (seed * 31 + c) mod 4294967296) (charCodes runId) 0.

Definition repeats : Z := 3.

(** The memoised [trials] of the screen. *)
Definition trials (runId : string) (now : Z) : list (option BatteryPlan.PickerTrial) :=
  BatteryPlan.buildPickerTrials
    {| BatteryPlan.graphemes := BatteryPlan.DEFAULT_GRAPHEMES;
       BatteryPlan.weekdays := BatteryPlan.DEFAULT_WEEKDAYS;
       BatteryPlan.repeats := repeats;
       BatteryPlan.seed := Some (seedOfRunId runId) |} now.

(** [findFirstUnansweredIndex]: the keys of the answered trials are put in a
    set and the plan is scanned for the first key that is not in it. *)
Definition findFirstUnansweredIndex (trials : list BatteryPlan.PickerTrial)
    (responses : list PickerResponse) : nat :=
  let answered := trialKeyOfResponse <$> responses in
  let fix scan (ts : list BatteryPlan.PickerTrial) (i : nat) : nat :=
    match ts with
    | [] => i
    | t :: ts' => if decide (trialKeyOfTrial t ∈ answered) then scan ts' (S i) else i
    end in
  scan trials O.

(** The state of the screen that [onNext] reads. *)
Record State := {
  payload : option BatteryRunPayload;
  trialIndex : Z;
  currentHex : string;
  noColor : bool;
  submitting : bool;
  saving : bool
}.

Definition canNext (st : State) : bool :=
  if noColor st then true
  else match ColorWheel.hexToRgbSafe (currentHex st) with Some _ => true | None => false end.

(** The response [onNext] builds for the trial [current]. *)
Definition buildResponse (st : State) (current : BatteryPlan.PickerTrial) (now : Z)
  : PickerResponse :=
  let rgb := if noColor st then None else ColorWheel.hexToRgbSafe (currentHex st) in
  {| grapheme := BatteryPlan.grapheme current;
     kind := BatteryPlan.kind current;
     repeatIndex := BatteryPlan.repeatIndex current;
     BatteryTypes.trialIndex := trialIndex st;
     atMs := now;
     isNoColor := noColor st;
     BatteryTypes.rgb := rgb;
     hex := match rgb with
            | Some _ => Some (ColorWheel.normalizeHex (currentHex st))
            | None => None
            end |}.

(** [[...prev.filter((r) => trialKey(r) !== k), resp]] *)
Definition replaceByKey (k : string) (prev : list PickerResponse) (resp : PickerResponse)
  : list PickerResponse :=
  filter (fun r => trialKeyOfResponse r ≠ k) prev ++ [resp].

(** [onNext], up to [setPayload(nextPayload)]: the payload it installs, or
    [None] when one of its guards returns early. Saving and navigation,
    which follow, do not change the payload. *)
Definition onNext (st : State) (current : option BatteryPlan.PickerTrial) (now : Z)
  : option BatteryRunPayload :=
  match payload st, current with
  | Some p, Some cur =>
      if negb (canNext st) then None
      else if saving st || submitting st then None
      else
        let resp := buildResponse st cur now in
        let k := trialKeyOfTrial cur in
        Some {| version := version p;
                createdAtMs := createdAtMs p;
                BatteryTypes.repeats := BatteryTypes.repeats p;
                pickerPlan := pickerPlan p;
                pickerResponses := replaceByKey k (pickerResponses p) resp;
                congruencyResponses := congruencyResponses p |}
  | _, _ => None
  end.

(** Where the screen goes: to a trial of the plan, or on to the speed
    test ([router.replace] to the congruency screen). *)
Inductive Goto := ToTrial (i : Z) | ToCongruency.

(** The end of [onNext]: [nextIndex >= total] leaves the picker. *)
Definition afterNext (total : Z) (trialIndex : Z) : Goto :=
  let nextIndex := trialIndex + 1 in
  if total <=? nextIndex then ToCongruency else ToTrial nextIndex.

(** [hash32(str)]: the loop [h ^= str.charCodeAt(i); h = Math.imul(h, 16777619)]
    from [2166136261 >>> 0], and the final [h >>> 0]. *)
Definition hash32 (str : string) : Z :=
  JsBits.uint32
    (fold_left (fun h c => JsBits.imul (JsBits.bitxor h c) 16777619)
       (charCodes str) (JsBits.uint32 2166136261)).

(** [tweak] of [seededHex]: [Math.min(230, Math.max(25, v))]. *)
Definition tweak (v : Z) : Z := Z.min 230 (Z.max 25 v).

Definition seededHex (seedStr : string) : string :=
  let h := hash32 seedStr in
  let r := JsBits.ushr (JsBits.bitand h 16711680) 16 in
  let g := JsBits.ushr (JsBits.bitand h 65280) 8 in
  let b := JsBits.bitand h 255 in
  let rr := tweak r in
  let gg := tweak g in
  let bb := tweak b in
  let hex :=
    "#" +:+ padStart 2 "0" (toString16 rr) +:+ padStart 2 "0" (toString16 gg)
        +:+ padStart 2 "0" (toString16 bb) in
  toLowerCase hex.

(** The memoised [initialHexForTrial] of the screen. *)
Definition initialHexForTrial (runId : string) (current : option BatteryPlan.PickerTrial)
  : string :=
  match current with
  | None => "#3366cc"
  | Some cur =>
      seededHex (runId +:+ "|" +:+ kindString (BatteryPlan.kind cur) +:+ "|"
                 +:+ BatteryPlan.grapheme cur +:+ "|" +:+ pretty (BatteryPlan.repeatIndex cur))
  end.

(** [countUniqueAnswered(p)]: the size of the set of the responses' keys. *)
Definition countUniqueAnswered (p : option BatteryRunPayload) : nat :=
  length (uniqueInOrder [] (trialKeyOfResponse <$> from_option pickerResponses [] p)).

(** The payload of a run that starts: [fresh] in the loading effect and in
    [restart]. *)
Definition fresh (now : Z) : BatteryRunPayload :=
  {| version := 1;
     createdAtMs := now;
     BatteryTypes.repeats := repeats;
     pickerPlan := {| plan_graphemes := BatteryPlan.DEFAULT_GRAPHEMES;
                      plan_weekdays := BatteryPlan.DEFAULT_WEEKDAYS |};
     pickerResponses := [];
     congruencyResponses := [] |}.

(** The loading effect on a stored payload [p] of version 1: it resumes on
    the first unanswered trial, or leaves for the speed test when the plan
    is non-empty and every trial is answered. *)
Definition resume (trials : list BatteryPlan.PickerTrial) (p : BatteryRunPayload) : Goto :=
  let total := Z.of_nat (length trials) in
  let firstUnanswered := Z.of_nat (findFirstUnansweredIndex trials (pickerResponses p)) in
  if (0 <? total) && (total <=? firstUnanswered) then ToCongruency
  else ToTrial (Z.min firstUnanswered (Z.max 0 (total - 1))).

(** The loading effect: the payload it installs and where it goes.
    [pRaw] is the stored payload, [None] when there is none or when loading
    throws. *)
Definition load (trials : list BatteryPlan.PickerTrial) (pRaw : option BatteryRunPayload)
    (now : Z) : BatteryRunPayload * Goto :=
  match pRaw with
  | Some p => if version p =? 1 then (p, resume trials p) else (fresh now, ToTrial 0)
  | None => (fresh now, ToTrial 0)
  end.

(** The effect that restores a saved response into the screen when the
    trial [current] is shown: the new [noColor] and [currentHex]. *)
Definition restore (p : BatteryRunPayload) (current : BatteryPlan.PickerTrial)
    (initialHex : string) : bool * string :=
  let k := trialKeyOfTrial current in
  let existing := List.find (fun r => bool_decide (trialKeyOfResponse r = k)) (pickerResponses p) in
  if from_option isNoColor false existing then (true, initialHex)
  else
    let savedHex := default "" (existing ≫= hex) in
    if negb (isEmpty savedHex) && bool_decide (is_Some (ColorWheel.hexToRgbSafe savedHex))
    then (false, ColorWheel.normalizeHex savedHex)
    else (false, initialHex).

(** [pct]: the percentage on the progress bar,
    [total ? Math.round((Math.min(answeredUnique, total) / total) * 100) : 0],
    in binary64. *)
Definition pct (total answeredUnique : Z) : option Z :=
  if total =? 0 then Some 0
  else
    Math_round_float
      (PrimFloat.mul
         (PrimFloat.div (float_ofZ (Z.min answeredUnique total)) (float_ofZ total))
         (float_ofZ 100)).

(** The percentage that the screen of the run [runId] shows for [payload]. *)
Definition progress (runId : string) (now : Z) (payload : option BatteryRunPayload) : option Z :=
  pct (Z.of_nat (length (trials runId now))) (Z.of_nat (countUniqueAnswered payload)).

End Picker.

(** ** app/battery/[id]/congruency.tsx *)
Module Congruency.
Import JsString BatteryTypes.

(** [buildCanonicalMap(payload)]: one pass over the picker responses. *)
Definition canonicalStep (m : list (string * string)) (r : PickerResponse)
  : list (string * string) :=
  if negb (bool_decide (kind r = KGrapheme)) then m
  else if isNoColor r then m
  else
    let hex := trim (default "" (hex r)) in
    if isEmpty hex then m
    else if negb (JsMap.has m (grapheme r)) then JsMap.set m (grapheme r) (toLowerCase hex)
    else m.

Definition buildCanonicalMap (payload : BatteryRunPayload) : list (string * string) :=
  fold_left canonicalStep (pickerResponses payload) [].

(** [pick(arr, i) = arr[i % arr.length]]; on an empty array the index is NaN
    and the result [undefined]. *)
Definition pick {T} (arr : list T) (i : nat) : option T :=
  match arr with
  | [] => None
  | _ => arr !! (i mod List.length arr)%nat
  end.

Record Trial := {
  stimulusText : string;
  expectedMatch : bool;
  shownHex : string
}.

Definition fallbackHexes : list string :=
  ["#ff0000"; "#00ff00"; "#0000ff"; "#ffff00"; "#ff00ff"; "#00ffff"; "#ffa500";
   "#111827"]%string.

Definition N : nat := 40.

(** The stimuli of the speed test: the distinct graphemes of the picker
    responses of kind "grapheme", in order of first appearance, without the
    empty string. *)
Definition stimuli (payload : BatteryRunPayload) : list string :=
  filter (fun s => isEmpty s = false)
    (uniqueInOrder []
       (grapheme <$> filter (fun r => kind r = KGrapheme) (pickerResponses payload))).

(** The body of the loop for one [i]. A [pick] that yields [undefined]
    where the code goes on to call [toLowerCase] on it, or to store it as a
    trial's stimulus, is [None]. *)
Definition trialAt (graphemes : list string) (canonical : list (string * string))
    (hexes : list string) (i : nat) : option Trial :=
  g ← pick graphemes (i * 7 + 3);
  let wantMatch := (i mod 2 =? 0)%nat in
  learned ← match JsMap.get canonical g with
            | Some h => Some h
            | None => pick fallbackHexes i
            end;
  shown ← (if wantMatch then Some learned
           else
             let pool :=
               filter (fun h => toLowerCase h ≠ toLowerCase learned)
                 (match hexes with [] => fallbackHexes | _ => hexes end) in
             pick (match pool with [] => fallbackHexes | _ => pool end) (i * 13 + 1));
  Some {| stimulusText := g; expectedMatch := wantMatch; shownHex := shown |}.

(** The memoised [trials] of the screen, for a payload that may not have
    been loaded yet. *)
Definition trials (payload : option BatteryRunPayload) : option (list Trial) :=
  match payload with
  | None => Some []
  | Some p =>
      let canonical := buildCanonicalMap p in
      let graphemes := stimuli p in
      match graphemes with
      | [] => Some []
      | _ =>
          let hexes := uniqueInOrder [] (JsMap.values canonical) in
          mapM (trialAt graphemes canonical hexes) (seq 0 N)
      end
  end.

(** The state of the screen that [answer] reads: the payload, the index of
    the trial on show, [showAtRef.current] and [savingRef.current]. *)
Record State := {
  payload : option BatteryRunPayload;
  trialIndex : nat;
  showAt : Z;
  saving : bool
}.

(** The loading effect: a payload of version 1 is installed and the test
    resumes behind the stored responses; anything else is an error. *)
Definition load (pRaw : option BatteryRunPayload) : option State :=
  match pRaw with
  | Some p =>
      if version p =? 1
      then Some {| payload := Some p; trialIndex := length (congruencyResponses p);
                   showAt := 0; saving := false |}
      else None
  | None => None
  end.



(** The response [answer] builds; [now1] and [now2] are its two readings of
    the clock. *)
Definition buildResponse (t : Trial) (st : State) (chosen : Choice) (now1 now2 : Z)
  : CongruencyResponse :=
  let rtMs := Z.max 0 (now1 - showAt st) in
  let saidMatch := match chosen with ChoseMatch => true | ChoseMismatch => false end in
  let correct := eqb saidMatch (expectedMatch t) in
  {| c_trialIndex := Z.of_nat (trialIndex st);
     c_atMs := now2;
     c_rtMs := rtMs;
     c_correct := correct;
     c_expectedMatch := expectedMatch t;
     c_stimulusText := stimulusText t;
     c_shownHex := shownHex t;
     c_chosen := chosen |}.

(** Whether the screen stays, or leaves for the picker. *)
Inductive Nav := Stay | ToPicker.

(** [answer(chosen)] on the memoised [trials]; [saved] tells whether
    [saveRun] succeeded. The payload is installed before the save, so it
    keeps the response when the save fails. *)
Definition answer (trials : list Trial) (st : State) (chosen : Choice) (now1 now2 : Z)
    (saved : bool) : State * Nav :=
  match payload st, trials !! trialIndex st with
  | Some p, Some t =>
      if saving st then (st, Stay)
      else
        let resp := buildResponse t st chosen now1 now2 in
        let nextPayload :=
          {| version := version p;
             createdAtMs := createdAtMs p;
             repeats := repeats p;
             pickerPlan := pickerPlan p;
             pickerResponses := pickerResponses p;
             congruencyResponses := congruencyResponses p ++ [resp] |} in
        let st' := {| payload := Some nextPayload; trialIndex := trialIndex st;
                      showAt := showAt st; saving := false |} in
        if negb saved then (st', Stay)
        else
          let nextIndex := S (trialIndex st) in
          if (length trials <=? nextIndex)%nat then (st', ToPicker)
          else ({| payload := Some nextPayload; trialIndex := nextIndex;
                   showAt := showAt st; saving := false |}, Stay)
  | _, _ => (st, Stay)
  end.

End Congruency.

(** ** app/battery/[id]/results.tsx *)
Module Results.
Import JsString BatteryTypes.

(** [if (!map.has(key)) map.set(key, []); map.get(key)!.push(r)] *)
Definition pushTo (map : list (string * list PickerResponse)) (key : string)
    (r : PickerResponse) : list (string * list PickerResponse) :=
  let map' := if negb (JsMap.has map key) then JsMap.set map key [] else map in
  JsMap.set map' key (default [] (JsMap.get map' key) ++ [r]).

(** One round of the loop of [byKind] over the picker responses; the maps
    are [g] and [w]. *)
Definition byKindStep (gw : list (string * list PickerResponse) * list (string * list PickerResponse))
    (r : PickerResponse) :=
  if bool_decide (kind r = KWeekday) then (gw.1, pushTo gw.2 (grapheme r) r)
  else (pushTo gw.1 (grapheme r) r, gw.2).

(** [(a, b) => (a.repeatIndex ?? 0) - (b.repeatIndex ?? 0)] *)
Definition byRepeatIndex (a b : PickerResponse) : Z := repeatIndex a - repeatIndex b.

(** The loop that sorts each list and stores it back under its key, which
    keeps the place of the key. *)
Definition sortEach (map : list (string * list PickerResponse))
  : list (string * list PickerResponse) :=
  (fun '(k, arr) => (k, sortBy byRepeatIndex arr)) <$> map.

(** The memoised [byKind]: the maps of the graphemes and of the weekdays. *)
Definition byKind (payload : option BatteryRunPayload)
  : list (string * list PickerResponse) * list (string * list PickerResponse) :=
  match payload with
  | None => ([], [])
  | Some p =>
      let gw := fold_left byKindStep (pickerResponses p) ([], []) in
      (sortEach gw.1, sortEach gw.2)
  end.

(** The colours of a row of [ResultTable]:
    [cols = [0, 1, 2].map((i) => reps[i] || null)] and
    [colors = cols.map((c) => (c?.isNoColor ? null : c?.hex || null))]. *)
Definition colors (reps : list PickerResponse) : list (option string) :=
  (fun i : nat =>
     match reps !! i with
     | Some c =>
         if isNoColor c then None
         else match hex c with
              | Some h => if isEmpty h then None else Some h
              | None => None
              end
     | None => None
     end) <$> [0; 1; 2]%nat.

End Results.

(** ** Code that calls [Math.random()] *)

(** A computation that draws from [Math.random()]: it is given the oracle
    (the value of the k-th call ever made) and the number of calls made so
    far, and returns its result with the new count, or [None] when it
    throws a [TypeError]. *)
Definition Rand (A : Type) : Type := (nat -> Q) -> nat -> option (A * nat).

Definition rand_ret {A} (x : A) : Rand A := fun _ n => Some (x, n).

Definition rand_bind {A B} (m : Rand A) (f : A -> Rand B) : Rand B :=
  fun o n => match m o n with
             | Some (x, n') => f x o n'
             | None => None
             end.

Definition rand_throw {A} : Rand A := fun _ _ => None.

(** [Math.random()] *)
Definition Math_random : Rand Q := fun o n => Some (o n, S n).

Notation "x ←$ m ; f" := (rand_bind m (fun x => f))
  (at level 100, m at next level, f at level 200, right associativity,
   format "x  ←$  m ;  '/' f").

(** ** lib/SynesthesiaBattery.ts *)
Module SynesthesiaBattery.

Record PickerTrial := {
  pt_id : string;
  pt_grapheme : string;
  pt_repeatIndex : Z
}.

Record CongruencyTrial := {
  ct_id : string;
  ct_grapheme : string;
  ct_shownRgb : Rgb;
  ct_isCongruent : bool
}.

Section Battery.
Context {num : Type} `{JsNumber num} `{JsMath num}.

(** The optional [hsv] and [gray] of a response are never read below and
    are left out. *)
Record PickerResponse := {
  trialId : string;
  grapheme : string;
  repeatIndex : Z;
  isNoColor : bool;
  rgb : option Rgb;
  rtMs : num;
  ts : Z
}.

Record CongruencyResponse := {
  cr_trialId : string;
  cr_grapheme : string;
  cr_answeredMatched : bool;
  correct : bool;
  cr_rtMs : num;
  cr_ts : Z
}.

Record BatteryRun := {
  runId : string;
  pickerTrials : list PickerTrial;
  pickerIndex : Z;
  pickerResponses : list PickerResponse;
  congruencyTrials : list CongruencyTrial;
  congruencyIndex : Z;
  congruencyResponses : list CongruencyResponse;
  createdAt : Z
}.

(** *** Congruency trials from the picker responses *)

(** [Math.random().toString(16).slice(2)], the tail of the trial ids. *)
Variable randomSuffix : Q -> string.

(** The loop of [buildCongruencyTrialsFromPicker] that fills [lastColorByG]. *)
Definition lastColorStep (m : list (string * Rgb)) (resp : PickerResponse)
  : list (string * Rgb) :=
  match rgb resp with
  | Some c => if negb (isNoColor resp) then JsMap.set m (grapheme resp) c else m
  | None => m
  end.

Definition lastColorByG (run : BatteryRun) : list (string * Rgb) :=
  fold_left lastColorStep (pickerResponses run) [].

(** The loop [for (let k = 0; k < 20; k++)] of [pickDifferentColor] with [k]
    draws left, and the [return all[0]] behind it; [first] is [all[0]]. A
    draw outside the array is [undefined], and reading its [r] throws. *)
Fixpoint drawDifferent (k : nat) (all : list Rgb) (target first : Rgb) : Rand Rgb :=
  match k with
  | O => rand_ret first
  | S k' =>
      u ←$ Math_random;
      let idx := Qfloor (u * inject_Z (Z.of_nat (length all))) in
      if idx <? 0 then rand_throw
      else
        match all !! Z.to_nat idx with
        | Some c =>
            if negb ((r c =? r target) && (g c =? g target) && (b c =? b target))
            then rand_ret c
            else drawDifferent k' all target first
        | None => rand_throw
        end
  end.

Definition pickDifferentColor (all : list Rgb) (target : Rgb) : Rand Rgb :=
  match all with
  | [] | [_] => rand_ret target
  | first :: _ => drawDifferent 20 all target first
  end.

(** The loop of [shuffleInPlace], entered at [i]:
    [j = (Math.random() * (i + 1)) | 0]. *)
Fixpoint shuffleInPlaceLoop {T} (i : nat) (a : JsArray.t T) : Rand (JsArray.t T) :=
  match i with
  | O => rand_ret a
  | S i' =>
      u ←$ Math_random;
      let j := toInt32 (u * inject_Z (Z.of_nat i + 1)) in
      shuffleInPlaceLoop i' (JsArray.swap a (Z.of_nat i) j)
  end.

Definition shuffleInPlace {T} (arr : list T) : Rand (list (option T)) :=
  a ←$ shuffleInPlaceLoop (length arr - 1) (JsArray.ofList arr);
  rand_ret (JsArray.items a).

(** The body of the inner loop for the grapheme [g] with colour [target]:
    the congruent trial, then the incongruent one. *)
Definition trialPair (colors : list Rgb) (g : string) (target : Rgb) (i : nat)
  : Rand (list CongruencyTrial) :=
  u1 ←$ Math_random;
  other ←$ pickDifferentColor colors target;
  u2 ←$ Math_random;
  rand_ret
    [ {| ct_id := "c_" +:+ g +:+ "_" +:+ pretty i +:+ "_" +:+ randomSuffix u1;
         ct_grapheme := g; ct_shownRgb := target; ct_isCongruent := true |};
      {| ct_id := "i_" +:+ g +:+ "_" +:+ pretty i +:+ "_" +:+ randomSuffix u2;
         ct_grapheme := g; ct_shownRgb := other; ct_isCongruent := false |} ].

(** A [for] loop that appends what each round pushes. *)
Fixpoint forEach {A B} (f : A -> Rand (list B)) (l : list A) : Rand (list B) :=
  match l with
  | [] => rand_ret []
  | x :: l' => ys ←$ f x; zs ←$ forEach f l'; rand_ret (ys ++ zs)
  end.

(** The array [trials] before [shuffleInPlace]. The outer loop runs over
    the keys of [lastColorByG] and looks each one up again: it runs over
    the entries. *)
Definition unshuffledCongruencyTrials (run : BatteryRun) (perGrapheme : Z)
  : Rand (list CongruencyTrial) :=
  let m := lastColorByG run in
  let colors := JsMap.values m in
  forEach (fun '(g, target) =>
             forEach (trialPair colors g target) (seq 0 (Z.to_nat perGrapheme)))
          m.

Definition buildCongruencyTrialsFromPicker (run : BatteryRun) (perGrapheme : Z)
  : Rand (list (option CongruencyTrial)) :=
  trials ←$ unshuffledCongruencyTrials run perGrapheme;
  shuffleInPlace trials.

(** *** A new run *)

(** The body of the inner loop of [buildGraphemeBattery]: the trial of the
    stimulus [g] and the repeat [r], with a random tail in its id. *)
Definition pickerTrialOf (g : string) (r : nat) : Rand (list PickerTrial) :=
  u ←$ Math_random;
  rand_ret [ {| pt_id := g +:+ "_" +:+ pretty r +:+ "_" +:+ randomSuffix u;
                pt_grapheme := g; pt_repeatIndex := Z.of_nat r |} ].

(** The array [trials] of [buildGraphemeBattery] before the shuffle. *)
Definition unshuffledPickerTrials (stimuli : list string) (repeats : Z)
  : Rand (list PickerTrial) :=
  forEach (fun g => forEach (pickerTrialOf g) (seq 0 (Z.to_nat repeats))) stimuli.

(** The run [buildGraphemeBattery] returns. Its [pickerTrials] are given
    as the array the shuffle leaves; the indices are 0 and the other arrays
    empty. *)
Record NewRun := {
  new_runId : string;
  new_pickerTrials : list (option PickerTrial);
  new_createdAt : Z
}.

Definition buildGraphemeBattery (runId : string) (stimuli : list string) (repeats : Z)
    (now : Z) : Rand NewRun :=
  trials ←$ unshuffledPickerTrials stimuli repeats;
  shuffled ←$ shuffleInPlace trials;
  rand_ret {| new_runId := runId; new_pickerTrials := shuffled; new_createdAt := now |}.

(** *** Scoring *)

Record Lab := { lab_L : num; lab_a : num; lab_b : num }.

Record PickerScoreRow := {
  row_grapheme : string;
  row_repeats : list (option Rgb);
  meanDeltaE : num
}.

Record BatteryResults := {
  pickerScore : num;
  pickerRows : list PickerScoreRow;
  congruencyAccuracyPct : num;
  congruencyMeanRtSec : num
}.

(** [c <= 0.04045 ? c / 12.92 : Math.pow((c + 0.055) / 1.055, 2.4)] *)
Definition linearize (c : num) : num :=
  if num_leb c (num_dec 4045 100000) then num_div c (num_dec 1292 100)
  else Math_pow (num_div (num_add c (num_dec 55 1000)) (num_dec 1055 1000))
                (num_dec 24 10).

Definition rgbToXyz (rgb : Rgb) : num * num * num :=
  let r := linearize (num_div (num_ofZ (r rgb)) (num_ofZ 255)) in
  let g := linearize (num_div (num_ofZ (g rgb)) (num_ofZ 255)) in
  let b := linearize (num_div (num_ofZ (b rgb)) (num_ofZ 255)) in
  let x := num_add (num_add (num_mul r (num_dec 4124 10000)) (num_mul g (num_dec 3576 10000)))
                   (num_mul b (num_dec 1805 10000)) in
  let y := num_add (num_add (num_mul r (num_dec 2126 10000)) (num_mul g (num_dec 7152 10000)))
                   (num_mul b (num_dec 722 10000)) in
  let z := num_add (num_add (num_mul r (num_dec 193 10000)) (num_mul g (num_dec 1192 10000)))
                   (num_mul b (num_dec 9505 10000)) in
  (num_mul x (num_ofZ 100), num_mul y (num_ofZ 100), num_mul z (num_ofZ 100)).

Definition xyzToLab (x y z : num) : Lab :=
  let xx := num_div x (num_dec 95047 1000) in
  let yy := num_div y (num_ofZ 100) in
  let zz := num_div z (num_dec 108883 1000) in
  let f := fun t : num =>
    if num_ltb (num_dec 8856 1000000) t then Math_cbrt t
    else num_add (num_mul (num_dec 7787 1000) t) (num_div (num_ofZ 16) (num_ofZ 116)) in
  let fx := f xx in
  let fy := f yy in
  let fz := f zz in
  {| lab_L := num_sub (num_mul (num_ofZ 116) fy) (num_ofZ 16);
     lab_a := num_mul (num_ofZ 500) (num_sub fx fy);
     lab_b := num_mul (num_ofZ 200) (num_sub fy fz) |}.

Definition rgbToLab (rgb : Rgb) : Lab :=
  let '(x, y, z) := rgbToXyz rgb in xyzToLab x y z.

Definition deltaE76 (a b : Lab) : num :=
  let dL := num_sub (lab_L a) (lab_L b) in
  let da := num_sub (lab_a a) (lab_a b) in
  let db := num_sub (lab_b a) (lab_b b) in
  Math_sqrt (num_add (num_add (num_mul dL dL) (num_mul da da)) (num_mul db db)).

(** The two nested index loops, [i] over the array and [j] over what lies
    behind [i]. *)
Definition pairwiseDeltas (colors : list Rgb) : list num :=
  i ← seq 0 (length colors);
  j ← seq (S i) (length colors - S i);
  match colors !! i, colors !! j with
  | Some ci, Some cj => [deltaE76 (rgbToLab ci) (rgbToLab cj)]
  | _, _ => []
  end.

(** [xs.reduce((a, b) => a + b, 0)] *)
Definition sum (xs : list num) : num := fold_left num_add xs (num_ofZ 0).

(** The grouping loop: [if (!byG.has(g)) byG.set(g, []); byG.get(g)!.push(r)]. *)
Definition groupStep (byG : list (string * list PickerResponse)) (r : PickerResponse)
  : list (string * list PickerResponse) :=
  let byG' := if negb (JsMap.has byG (grapheme r)) then JsMap.set byG (grapheme r) [] else byG in
  JsMap.set byG' (grapheme r) (default [] (JsMap.get byG' (grapheme r)) ++ [r]).

(** One round of the loop that fills the repeat slots. *)
Definition fillSlot (repeats : Z) (slots : list (option Rgb)) (r : PickerResponse)
  : list (option Rgb) :=
  match rgb r with
  | None => slots
  | Some c =>
      if isNoColor r then slots
      else if (0 <=? repeatIndex r) && (repeatIndex r <? repeats)
      then <[Z.to_nat (repeatIndex r) := Some c]> slots
      else slots
  end.

(** [Array.from({ length: repeats }, () => null)], then the loop over the
    responses of one grapheme. *)
Definition buildSlots (repeats : Z) (rs : list PickerResponse) : list (option Rgb) :=
  fold_left (fillSlot repeats) rs (replicate (Z.to_nat repeats) None).

(** The body of the loop over [byG.entries()]. *)
Definition scoreRow (repeats : Z) (entry : string * list PickerResponse) : PickerScoreRow :=
  let '(g, rs) := entry in
  let slots := buildSlots repeats rs in
  let deltas := pairwiseDeltas (omap id slots) in
  let mean :=
    if (length deltas =? 0)%nat then num_ofZ 0
    else num_div (sum deltas) (num_ofZ (Z.of_nat (length deltas))) in
  {| row_grapheme := g; row_repeats := slots; meanDeltaE := mean |}.

(** [a.grapheme.localeCompare(b.grapheme, "en")], which the platform's
    collation decides. *)
Variable localeCompare : string -> string -> Z.

Definition scoreBattery (run : BatteryRun) (repeats : Z) : BatteryResults :=
  let byG := fold_left groupStep (pickerResponses run) [] in
  let rows := scoreRow repeats <$> byG in
  let pickerScore :=
    if (length rows =? 0)%nat then num_ofZ 0
    else num_div (fold_left (fun a r => num_add a (meanDeltaE r)) rows (num_ofZ 0))
                 (num_ofZ (Z.of_nat (length rows))) in
  let congr := congruencyResponses run in
  let correctCount := length (filter (fun c => correct c = true) congr) in
  let congruencyAccuracyPct :=
    if (length congr =? 0)%nat then num_ofZ 0
    else num_mul (num_div (num_ofZ (Z.of_nat correctCount)) (num_ofZ (Z.of_nat (length congr))))
                 (num_ofZ 100) in
  let congruencyMeanRtSec :=
    if (length congr =? 0)%nat then num_ofZ 0
    else num_div (num_div (fold_left (fun a c => num_add a (cr_rtMs c)) congr (num_ofZ 0))
                          (num_ofZ (Z.of_nat (length congr))))
                 (num_ofZ 1000) in
  {| pickerScore := pickerScore;
     pickerRows := sortBy (fun a b => localeCompare (row_grapheme a) (row_grapheme b)) rows;
     congruencyAccuracyPct := congruencyAccuracyPct;
     congruencyMeanRtSec := congruencyMeanRtSec |}.

End Battery.
End SynesthesiaBattery.

(* ===================================================================== *)
(** * Part III. What the specification says                               *)
(* ===================================================================== *)

(** ** The trial plan *)
Module PlanSpec.
Import BatteryTypes BatteryPlan.

(** The options of a call with a seed. *)
Definition seeded (graphemes weekdays : list string) (repeats : nat) (seed : Z) : Opts :=
  {| graphemes := graphemes; weekdays := weekdays;
     repeats := Z.of_nat repeats; seed := Some seed |}.

(** The full cross product, in the words of the specification: every
    stimulus of both lists with its kind, crossed with the repeat indices
    [0 .. repeats - 1]. *)
Definition crossProduct (graphemes weekdays : list string) (repeats : nat)
  : list PickerTrial :=
  '(s, k) ← ((fun s => (s, KGrapheme)) <$> graphemes) ++ ((fun s => (s, KWeekday)) <$> weekdays);
  r ← seq 0 repeats;
  [ {| grapheme := s; kind := k; repeatIndex := Z.of_nat r |} ].

(** A trial whose identity key belongs to the cross product. *)
Definition planned (graphemes weekdays : list string) (repeats : nat) (t : PickerTrial) : Prop :=
  0 ≤ repeatIndex t < Z.of_nat repeats
  ∧ match kind t with
    | KGrapheme => grapheme t ∈ graphemes
    | KWeekday => grapheme t ∈ weekdays
    end.

(** How often a trial occurs in the array [buildPickerTrials] returns. *)
Definition occurrences (t : PickerTrial) (out : list (option PickerTrial)) : nat :=
  length (filter (fun x => x = Some t) out).

(** Completeness as the specification states it: the length is
    [repeats × (|graphemes| + |weekdays|)], every identity key of the cross
    product occurs exactly once, and nothing else occurs. *)
Definition complete (graphemes weekdays : list string) (repeats : nat)
    (out : list (option PickerTrial)) : Prop :=
  length out = (repeats * (length graphemes + length weekdays))%nat
  ∧ (∀ t, planned graphemes weekdays repeats t → occurrences t out = 1%nat)
  ∧ (∀ x, x ∈ out → ∃ t, x = Some t ∧ planned graphemes weekdays repeats t).





End PlanSpec.

(** ** The response recorder *)
Module RecorderSpec.
Import BatteryTypes.

(** The identity of a response: [(kind, stimulusText, repeatIndex)]. *)
Definition identity (r : PickerResponse) : Kind * string * Z :=
  (kind r, grapheme r, repeatIndex r).

Definition identityOfTrial (t : BatteryPlan.PickerTrial) : Kind * string * Z :=
  (BatteryPlan.kind t, BatteryPlan.grapheme t, BatteryPlan.repeatIndex t).

(** The characters of a printed integer: digits and the minus sign. *)
Definition keyChar (c : ascii) : bool :=
  JsString.isDigit c || bool_decide (c = "-"%char).

(** The stored responses with a given identity. *)
Definition entriesFor (id : Kind * string * Z) (l : list PickerResponse) : list PickerResponse :=
  filter (fun r => identity r = id) l.

(** The invariant of a run: at most one response per identity. *)
Definition atMostOnePerIdentity (l : list PickerResponse) : Prop :=
  ∀ id, (length (entriesFor id l) ≤ 1)%nat.

(** Inserting a response, as [onNext] does it. *)
Definition insertResponse (prev : list PickerResponse) (resp : PickerResponse)
  : list PickerResponse :=
  Picker.replaceByKey (Picker.trialKeyOfResponse resp) prev resp.

End RecorderSpec.

(** ** The canonical colour of a stimulus *)
Module CanonicalSpec.
Import JsString BatteryTypes.

(** A response that carries a colour: it is not "no color" and its hex is
    present, that is, not blank. *)
Definition colored (r : PickerResponse) : bool :=
  negb (isNoColor r) && negb (isEmpty (trim (default "" (hex r)))).

(** First-wins as the specification states it: the hex of the first
    coloured response for the stimulus, in response order. *)
Definition firstColoredHex (stimulus : string) (responses : list PickerResponse)
  : option string :=
  r ← head (filter (fun r => grapheme r = stimulus ∧ colored r = true) responses);
  hex r.

(** First-wins as [buildCanonicalMap] implements it: among the responses of
    kind "grapheme" only, and with the hex trimmed and in lower case. *)
Definition firstColoredGraphemeHex (stimulus : string) (responses : list PickerResponse)
  : option string :=
  r ← head (filter (fun r => kind r = KGrapheme ∧ grapheme r = stimulus ∧ colored r = true)
              responses);
  Some (toLowerCase (trim (default "" (hex r)))).

(** The claim about the map of the congruency screen. *)
Definition screenMapIsFirstColored (payload : BatteryRunPayload) : Prop :=
  ∀ stimulus,
    JsMap.get (Congruency.buildCanonicalMap payload) stimulus
    = firstColoredHex stimulus (pickerResponses payload).

(** The same claim about the map [buildCongruencyTrialsFromPicker] builds,
    whose responses carry an [rgb] instead of a hex. *)
Definition firstColoredRgb {num} (stimulus : string)
    (responses : list (@SynesthesiaBattery.PickerResponse num)) : option Rgb :=
  r ← head (filter (fun r => SynesthesiaBattery.grapheme r = stimulus
                             ∧ SynesthesiaBattery.isNoColor r = false
                             ∧ is_Some (SynesthesiaBattery.rgb r)) responses);
  SynesthesiaBattery.rgb r.

Definition libraryMapIsFirstColored {num} (run : @SynesthesiaBattery.BatteryRun num) : Prop :=
  ∀ stimulus,
    JsMap.get (SynesthesiaBattery.lastColorByG run) stimulus
    = firstColoredRgb stimulus (SynesthesiaBattery.pickerResponses run).

(** What the library's map holds: the colour of the last coloured response. *)
Definition lastColoredRgb {num} (stimulus : string)
    (responses : list (@SynesthesiaBattery.PickerResponse num)) : option Rgb :=
  r ← last (filter (fun r => SynesthesiaBattery.grapheme r = stimulus
                             ∧ SynesthesiaBattery.isNoColor r = false
                             ∧ is_Some (SynesthesiaBattery.rgb r)) responses);
  SynesthesiaBattery.rgb r.

End CanonicalSpec.

(** ** The fixed-length congruency test *)
Module FixedSpec.
Import JsString BatteryTypes.

(** The colour the screen has learned for a stimulus at trial [i]: the
    canonical one, or the [i]-th colour of the fallback palette. *)
Definition learnedHex (payload : BatteryRunPayload) (stimulus : string) (i : nat)
  : option string :=
  match JsMap.get (Congruency.buildCanonicalMap payload) stimulus with
  | Some h => Some h
  | None => Congruency.pick Congruency.fallbackHexes i
  end.



End FixedSpec.

(** ** Code that draws random numbers *)

(** The contract of [Math.random()]: every draw lies in [0, 1). *)
Definition unitInterval (oracle : nat → Q) : Prop :=
  ∀ k, (0 <= oracle k)%Q ∧ (oracle k < 1)%Q.

(** The computation [m] returns, from any number of earlier draws, and
    its result satisfies [P]. *)
Definition returns {A} (oracle : nat → Q) (m : Rand A) (P : A → Prop) : Prop :=
  ∀ n, ∃ x n', m oracle n = Some (x, n') ∧ P x.

(** Every element and every property of the array satisfies [P]. *)
Definition arrayAll {T} (P : option T → Prop) (a : JsArray.t T) : Prop :=
  Forall P (JsArray.items a) ∧ Forall (fun kv => P kv.2) (JsArray.props a).

(** ** The scorer *)
Module ScoreSpec.
Import SynesthesiaBattery.
Section ScoreSpec.
Context {num : Type} `{JsNumber num} `{JsMath num}.

(** A response that puts a colour into slot [i] of the stimulus [g]. *)
Definition fills (g : string) (i : nat) (r : @PickerResponse num) : Prop :=
  grapheme r = g ∧ isNoColor r = false ∧ is_Some (rgb r) ∧ repeatIndex r = Z.of_nat i.

(** Slot [i] of the stimulus [g]: the colour of the response with
    [repeatIndex === i] (of the last one, should there be several), and
    [null] when there is none or it carries no colour. *)
Definition slotOf (responses : list (@PickerResponse num)) (g : string) (i : nat)
  : option Rgb :=
  r ← last (filter (fills g i) responses); rgb r.

(** The repeat array of the stimulus [g]: the slots [0 .. repeats - 1]. *)
Definition slotsOf (responses : list (@PickerResponse num)) (g : string) (repeats : Z)
  : list (option Rgb) :=
  slotOf responses g <$> seq 0 (Z.to_nat repeats).

(** A response whose repeat index is a slot of the array. *)
Definition inRange (repeats : Z) (r : @PickerResponse num) : Prop :=
  0 ≤ repeatIndex r < repeats.

(** Every pair of a list, each once, an element with those behind it. *)
Fixpoint pairs {A} (l : list A) : list (A * A) :=
  match l with
  | [] => []
  | x :: l' => ((fun y => (x, y)) <$> l') ++ pairs l'
  end.

(** ΔE76 of two colours. *)
Definition distance (c1 c2 : Rgb) : num := deltaE76 (rgbToLab c1) (rgbToLab c2).

(** The arithmetic mean, [0] for no value: the sum from the left, divided
    by the count. *)
Definition mean (xs : list num) : num :=
  match xs with
  | [] => num_ofZ 0
  | _ => num_div (fold_left num_add xs (num_ofZ 0)) (num_ofZ (Z.of_nat (length xs)))
  end.

(** The mean of the pairwise distances among the non-null slots. *)
Definition meanPairwiseDistance (slots : list (option Rgb)) : num :=
  mean ((fun p => distance p.1 p.2) <$> pairs (omap id slots)).

(** The number of correct congruency responses. *)
Definition correctCount (congr : list (@CongruencyResponse num)) : Z :=
  Z.of_nat (length (filter (fun c => correct c = true) congr)).

(** The result of scoring nothing. *)
Definition zeroResults : @BatteryResults num :=
  {| pickerScore := num_ofZ 0; pickerRows := [];
     congruencyAccuracyPct := num_ofZ 0; congruencyMeanRtSec := num_ofZ 0 |}.

End ScoreSpec.

(** In exact arithmetic: the sum of a list of rationals. *)
Definition Qsum (xs : list Q) : Q := foldr Qplus 0%Q xs.

End ScoreSpec.

(** ** Sample data *)
Module Examples.
Import BatteryTypes.

Definition trialA0 : BatteryPlan.PickerTrial :=
  {| BatteryPlan.grapheme := "A"; BatteryPlan.kind := KGrapheme; BatteryPlan.repeatIndex := 0 |}.

Definition freshPayload : BatteryRunPayload :=
  {| version := 1; createdAtMs := 0; repeats := 3;
     pickerPlan := {| plan_graphemes := BatteryPlan.DEFAULT_GRAPHEMES;
                      plan_weekdays := BatteryPlan.DEFAULT_WEEKDAYS |};
     pickerResponses := []; congruencyResponses := [] |}.

Definition withResponses (rs : list PickerResponse) : BatteryRunPayload :=
  {| version := 1; createdAtMs := 0; repeats := 3;
     pickerPlan := {| plan_graphemes := BatteryPlan.DEFAULT_GRAPHEMES;
                      plan_weekdays := BatteryPlan.DEFAULT_WEEKDAYS |};
     pickerResponses := rs; congruencyResponses := [] |}.

(** The picker screen with the payload [p] loaded and the colour [h] chosen. *)
Definition screenWith (p : BatteryRunPayload) (h : string) : Picker.State :=
  {| Picker.payload := Some p; Picker.trialIndex := 0; Picker.currentHex := h;
     Picker.noColor := false; Picker.submitting := false; Picker.saving := false |}.

(** A coloured answer, and a "no color" answer, to a trial. *)
Definition answer (k : Kind) (stimulus : string) (ri : Z) (h : string) : PickerResponse :=
  {| grapheme := stimulus; kind := k; repeatIndex := ri; trialIndex := 0; atMs := 0;
     isNoColor := false; rgb := ColorWheel.hexToRgbSafe h; hex := Some h |}.

Definition noAnswer (k : Kind) (stimulus : string) (ri : Z) : PickerResponse :=
  {| grapheme := stimulus; kind := k; repeatIndex := ri; trialIndex := 0; atMs := 0;
     isNoColor := true; rgb := None; hex := None |}.

(** The same for the library, whose responses carry an [rgb]; the sample
    data use rational numbers. *)
Definition libAnswer (stimulus : string) (ri : Z) (c : Rgb) : @SynesthesiaBattery.PickerResponse Q :=
  {| SynesthesiaBattery.trialId := stimulus; SynesthesiaBattery.grapheme := stimulus;
     SynesthesiaBattery.repeatIndex := ri; SynesthesiaBattery.isNoColor := false;
     SynesthesiaBattery.rgb := Some c; SynesthesiaBattery.rtMs := 0%Q;
     SynesthesiaBattery.ts := 0 |}.

Definition libNoAnswer (stimulus : string) (ri : Z) : @SynesthesiaBattery.PickerResponse Q :=
  {| SynesthesiaBattery.trialId := stimulus; SynesthesiaBattery.grapheme := stimulus;
     SynesthesiaBattery.repeatIndex := ri; SynesthesiaBattery.isNoColor := true;
     SynesthesiaBattery.rgb := None; SynesthesiaBattery.rtMs := 0%Q;
     SynesthesiaBattery.ts := 0 |}.

Definition libRun {num} (rs : list (@SynesthesiaBattery.PickerResponse num))
    (cs : list (@SynesthesiaBattery.CongruencyResponse num)) : @SynesthesiaBattery.BatteryRun num :=
  {| SynesthesiaBattery.runId := "run"; SynesthesiaBattery.pickerTrials := [];
     SynesthesiaBattery.pickerIndex := 0; SynesthesiaBattery.pickerResponses := rs;
     SynesthesiaBattery.congruencyTrials := []; SynesthesiaBattery.congruencyIndex := 0;
     SynesthesiaBattery.congruencyResponses := cs; SynesthesiaBattery.createdAt := 0 |}.

(** The scorer's samples are run with exact rationals. [Math.pow],
    [Math.cbrt] and [Math.sqrt] have no rational value in general; the
    samples below never look at a distance, and these stand-ins only make
    the scorer runnable on them. *)
Definition mathStandIn : JsMath Q :=
  {| Math_pow := fun x _ => x; Math_cbrt := fun x => x; Math_sqrt := fun x => x |}.

(** The same for binary64 floats, whose square root the kernel has. *)
Definition floatMathStandIn : JsMath float :=
  {| Math_pow := fun x _ => x; Math_cbrt := fun x => x; Math_sqrt := PrimFloat.sqrt |}.

(** Comparison by code units, which is how [localeCompare] orders the
    upper-case letters A-Z. *)
Definition compareCodeUnits (a b : string) : Z :=
  match String.compare a b with Lt => -1 | Eq => 0 | Gt => 1 end.

Definition libCongruency {num} (ok : bool) (rt : num) : @SynesthesiaBattery.CongruencyResponse num :=
  {| SynesthesiaBattery.cr_trialId := "t"; SynesthesiaBattery.cr_grapheme := "A";
     SynesthesiaBattery.cr_answeredMatched := ok; SynesthesiaBattery.correct := ok;
     SynesthesiaBattery.cr_rtMs := rt; SynesthesiaBattery.cr_ts := 0 |}.

Definition red : Rgb := mkRgb 255 0 0.
Definition green : Rgb := mkRgb 0 255 0.
Definition blue : Rgb := mkRgb 0 0 255.

End Examples.

(** ** Reference definitions for the rest of the code *)

(** The 32-bit FNV-1a hash: from the offset basis, every code is xor-ed
    into the hash, which is then multiplied by the FNV prime modulo 2^32. *)
Module HashSpec.

Definition offsetBasis : Z := 2166136261.
Definition prime : Z := 16777619.

Definition fnv1a (codes : list Z) : Z :=
  fold_left (fun h c => (Z.lxor h c * prime) mod 4294967296) codes offsetBasis.

(** The byte of [h] that starts at bit [k]. *)
Definition byteAt (h : Z) (k : Z) : Z := (h / 2 ^ k) mod 256.

End HashSpec.

(** ** A session of the picker screen *)
Module SessionSpec.
Import BatteryTypes RecorderSpec.

(** The key of an identity: [trialKey] reads nothing else of a trial or a
    response. *)
Definition keyOfIdentity (id : Kind * string * Z) : string :=
  Picker.trialKey id.1.1 id.1.2 id.2.

(** The trial [t] has an answer among the responses. *)
Definition answered (responses : list PickerResponse) (t : BatteryPlan.PickerTrial) : Prop :=
  ∃ r, r ∈ responses ∧ identity r = identityOfTrial t.

(** The trials of the plan before position [i] are answered, and no trial
    from [i] on is. *)
Definition answeredUpTo (trials : list BatteryPlan.PickerTrial)
    (responses : list PickerResponse) (i : nat) : Prop :=
  ∀ j t, trials !! j = Some t → (answered responses t ↔ (j < i)%nat).

(** A stored response is a "no color" response without colour fields, or
    carries a colour together with its hex string in normal form. *)
Definition wellFormed (r : PickerResponse) : Prop :=
  if isNoColor r then rgb r = None ∧ hex r = None
  else ∃ h c, hex r = Some h ∧ rgb r = Some c
              ∧ ColorWheel.hexToRgbSafe h = Some c ∧ ColorWheel.normalizeHex h = h.

(** The payloads the picker screen builds: a fresh one, and what [onNext]
    installs on top of one it has built. *)
Inductive built : BatteryRunPayload → Prop :=
  | built_fresh now : built (Picker.fresh now)
  | built_next st cur now p p' :
      built p → Picker.payload st = Some p →
      Picker.onNext st (Some cur) now = Some p' → built p'.

(** The screen with the payload [p] loaded, showing trial number [i] with
    the controls as [restore] sets them. *)
Definition shown (p : BatteryRunPayload) (i : Z) (controls : bool * string) : Picker.State :=
  {| Picker.payload := Some p; Picker.trialIndex := i;
     Picker.currentHex := controls.2; Picker.noColor := controls.1;
     Picker.submitting := false; Picker.saving := false |}.

End SessionSpec.

(** ** A session of the speed test *)
Module SpeedSpec.
Import BatteryTypes.




End SpeedSpec.

(** ** The builders of the library *)
Module LibrarySpec.
Import SynesthesiaBattery.

(** Every stimulus with every repeat index below [repeats]. *)
Definition stimulusRepeats (stimuli : list string) (repeats : Z) : list (string * Z) :=
  g ← stimuli; r ← seq 0 (Z.to_nat repeats); [(g, Z.of_nat r)].

(** [perGrapheme] congruent and [perGrapheme] incongruent trials for every
    grapheme. *)
Definition plannedCongruency (graphemes : list string) (perGrapheme : Z)
  : list (string * bool) :=
  g ← graphemes; _ ← seq 0 (Z.to_nat perGrapheme); [(g, true); (g, false)].

(** The colour of a trial, given the colours [m] of the graphemes: a
    congruent trial shows the colour of its grapheme; an incongruent trial
    shows one of the colours, and its own only if that is the first colour
    of [m]. *)
Definition wellColoured (m : list (string * Rgb)) (t : CongruencyTrial) : Prop :=
  ∃ target,
    JsMap.get m (ct_grapheme t) = Some target
    ∧ if ct_isCongruent t then ct_shownRgb t = target
      else ct_shownRgb t ∈ JsMap.values m
           ∧ (ct_shownRgb t = target → head (JsMap.values m) = Some target).

End LibrarySpec.

(** ** The table of the results screen *)
Module TableSpec.
Import BatteryTypes.

(** The responses of the kind [k] to the stimulus [s]. *)
Definition responsesOf (k : Kind) (s : string) (responses : list PickerResponse)
  : list PickerResponse :=
  filter (fun r => kind r = k ∧ grapheme r = s) responses.

(** The map of the kind [k]. *)
Definition mapOf (k : Kind)
    (gw : list (string * list PickerResponse) * list (string * list PickerResponse))
  : list (string * list PickerResponse) :=
  match k with KGrapheme => gw.1 | KWeekday => gw.2 end.

(** In ascending order of the repeat index. *)
Definition ascending (l : list PickerResponse) : Prop :=
  StronglySorted (fun a b => repeatIndex a ≤ repeatIndex b) l.

(** The colour of a response as the table shows it. *)
Definition cellColor (r : PickerResponse) : option string :=
  if isNoColor r then None
  else match hex r with
       | Some h => if JsString.isEmpty h then None else Some h
       | None => None
       end.

End TableSpec.

(** ** More sample data *)
Module Samples.
Import BatteryTypes.

Definition trialB0 : BatteryPlan.PickerTrial :=
  {| BatteryPlan.grapheme := "B"; BatteryPlan.kind := KGrapheme; BatteryPlan.repeatIndex := 0 |}.

(** A plan of two trials. *)
Definition planAB : list BatteryPlan.PickerTrial := [Examples.trialA0; trialB0].

(** A run in which "A" was answered red and "B" green. *)
Definition redGreen : BatteryRunPayload :=
  Examples.withResponses [Examples.answer KGrapheme "A" 0 "#ff0000";
                          Examples.answer KGrapheme "B" 0 "#00ff00"].


(** The speed test as it starts on [redGreen]. *)
Definition speedStart : Congruency.State :=
  {| Congruency.payload := Some redGreen; Congruency.trialIndex := 0;
     Congruency.showAt := 0; Congruency.saving := false |}.


(** Draws that are all 1/2, and a tail for the ids. *)
Definition halves : nat → Q := fun _ => (1 # 2)%Q.
Definition noSuffix : Q → string := fun _ => "".

(** "A" answered for the repeats 1 and 2 only, green and blue. *)
Definition lateAnswers : BatteryRunPayload :=
  Examples.withResponses [Examples.answer KGrapheme "A" 2 "#0000ff";
                          Examples.answer KGrapheme "A" 1 "#00ff00"].

(** "A" answered for the three repeats, out of order. *)
Definition threeAnswers : BatteryRunPayload :=
  Examples.withResponses [Examples.answer KGrapheme "A" 2 "#0000ff";
                          Examples.answer KGrapheme "A" 0 "#ff0000";
                          Examples.noAnswer KGrapheme "A" 1].

(** A coloured answer of the library with binary64 numbers. *)
Definition floatAnswer (stimulus : string) (ri : Z) (c : Rgb)
  : @SynesthesiaBattery.PickerResponse float :=
  {| SynesthesiaBattery.trialId := stimulus; SynesthesiaBattery.grapheme := stimulus;
     SynesthesiaBattery.repeatIndex := ri; SynesthesiaBattery.isNoColor := false;
     SynesthesiaBattery.rgb := Some c; SynesthesiaBattery.rtMs := 0%float;
     SynesthesiaBattery.ts := 0 |}.

End Samples.

(* ===================================================================== *)
(** * Part IV. Properties                                                  *)
(* ===================================================================== *)

(** ** Colour conversion (ColorWheel.tsx) *)
Section ColorRoundTrip.
Import JsString ColorWheel.

Lemma lowerHex_cases c :
  isLowerHexDigit c = true →
  In c ["0"; "1"; "2"; "3"; "4"; "5"; "6"; "7"; "8"; "9";
        "a"; "b"; "c"; "d"; "e"; "f"]%char.
Proof.
  destruct c as [[] [] [] [] [] [] [] []]; vm_compute; intros Hc;
    try discriminate Hc; tauto.
Qed.

Lemma lowerHex_not_space c : isLowerHexDigit c = true → isWhiteSpace c = false.
Proof.
  destruct c as [[] [] [] [] [] [] [] []]; vm_compute; intros Hc;
    try discriminate Hc; reflexivity.
Qed.

Lemma hex_not_space c : isHexDigit c = true → isWhiteSpace c = false.
Proof.
  destruct c as [[] [] [] [] [] [] [] []]; vm_compute; intros Hc;
    try discriminate Hc; reflexivity.
Qed.

Lemma lowerHex_lower c : isLowerHexDigit c = true → lowerChar c = c.
Proof.
  destruct c as [[] [] [] [] [] [] [] []]; vm_compute; intros Hc;
    try discriminate Hc; reflexivity.
Qed.

Lemma hex_lower c : isHexDigit c = true → isLowerHexDigit (lowerChar c) = true.
Proof.
  destruct c as [[] [] [] [] [] [] [] []]; vm_compute; intros Hc;
    try discriminate Hc; reflexivity.
Qed.

Lemma hex_not_hash c : isHexDigit c = true → c ≠ "#"%char.
Proof.
  destruct c as [[] [] [] [] [] [] [] []]; vm_compute; intros Hc;
    try discriminate Hc; intros [=].
Qed.

(** Two lower-case digits parse to a channel value that prints back to
    them. *)
Lemma hex_pair_cases c1 c2 :
  isLowerHexDigit c1 = true → isLowerHexDigit c2 = true →
  match parseInt16 (String c1 (String c2 "")) with
  | Some v => channelHex (inject_Z v) = String c1 (String c2 "")
  | None => False
  end.
Proof.
  intros H1%lowerHex_cases H2%lowerHex_cases. simpl in H1, H2.
  repeat (destruct H1 as [<- | H1]; [| try contradiction ]);
    repeat (destruct H2 as [<- | H2]; [| try contradiction ]);
    vm_compute; reflexivity.
Qed.

Lemma hex_pair_round_trip c1 c2 :
  isLowerHexDigit c1 = true → isLowerHexDigit c2 = true →
  ∃ v, parseInt16 (String c1 (String c2 "")) = Some v
       ∧ channelHex (inject_Z v) = String c1 (String c2 "").
Proof.
  intros H1 H2. pose proof (hex_pair_cases c1 c2 H1 H2) as H.
  destruct (parseInt16 (String c1 (String c2 ""))) as [v |]; [eauto | done].
Qed.

(** A channel value prints as two lower-case digits that parse back to it. *)
Lemma channel_cases (n : nat) :
  (n < 256)%nat →
  match channelHex (inject_Z (Z.of_nat n)) with
  | String c1 (String c2 EmptyString) =>
      isLowerHexDigit c1 = true ∧ isLowerHexDigit c2 = true
      ∧ parseInt16 (String c1 (String c2 "")) = Some (Z.of_nat n)
  | _ => False
  end.
Proof.
  intros Hn.
  do 256 (destruct n as [| n]; [vm_compute; auto |]).
  lia.
Qed.

Lemma channel_round_trip v :
  0 ≤ v ≤ 255 →
  ∃ c1 c2, channelHex (inject_Z v) = String c1 (String c2 "")
           ∧ isLowerHexDigit c1 = true ∧ isLowerHexDigit c2 = true
           ∧ parseInt16 (String c1 (String c2 "")) = Some v.
Proof.
  intros Hv.
  assert (∃ n : nat, v = Z.of_nat n ∧ (n < 256)%nat) as (n & -> & Hn).
  { exists (Z.to_nat v). lia. }
  pose proof (channel_cases n Hn) as H.
  destruct (channelHex (inject_Z (Z.of_nat n))) as [| c1 [| c2 [| ? ?]]]; try done.
  exists c1, c2. tauto.
Qed.

Lemma trimEnd_no_space s :
  allChars (fun c => negb (isWhiteSpace c)) s = true → trimEnd s = s.
Proof.
  induction s as [| c s IH]; simpl; [done |].
  intros [Hc Hs]%andb_true_iff. rewrite (IH Hs).
  apply negb_true_iff in Hc. rewrite Hc. by destruct s.
Qed.

Lemma trim_no_space s :
  allChars (fun c => negb (isWhiteSpace c)) s = true → trim s = s.
Proof.
  intros Hs. unfold trim.
  assert (trimStart s = s) as ->; [| by apply trimEnd_no_space].
  destruct s as [| c s]; simpl in *; [done |].
  apply andb_true_iff in Hs as [Hc _]. apply negb_true_iff in Hc. by rewrite Hc.
Qed.

Lemma allChars_impl (p q : ascii → bool) s :
  (∀ c, p c = true → q c = true) → allChars p s = true → allChars q s = true.
Proof.
  intros Hpq. induction s as [| c s IH]; simpl; [done |].
  intros [Hc Hs]%andb_true_iff. rewrite (Hpq _ Hc), (IH Hs). done.
Qed.

Lemma toLowerCase_lowerHex s :
  allChars isLowerHexDigit s = true → toLowerCase s = s.
Proof.
  induction s as [| c s IH]; simpl; [done |].
  intros [Hc Hs]%andb_true_iff. by rewrite (lowerHex_lower _ Hc), (IH Hs).
Qed.

Lemma toLowerCase_hex s :
  allChars isHexDigit s = true → allChars isLowerHexDigit (toLowerCase s) = true.
Proof.
  induction s as [| c s IH]; simpl; [done |].
  intros [Hc Hs]%andb_true_iff. by rewrite (hex_lower _ Hc), (IH Hs).
Qed.

Lemma toLowerCase_length s : String.length (toLowerCase s) = String.length s.
Proof. induction s; simpl; congruence. Qed.

(** What [/^#[0-9a-f]{6}$/] accepts. *)
Lemma isHashHex6_inv h :
  isHashHex6 h = true →
  ∃ c1 c2 c3 c4 c5 c6,
    h = String "#" (String c1 (String c2 (String c3 (String c4 (String c5 (String c6 ""))))))
    ∧ Forall (fun c => isLowerHexDigit c = true) [c1; c2; c3; c4; c5; c6].
Proof.
  unfold isHashHex6. destruct h as [| c0 t]; [done |].
  destruct (ascii_dec c0 "#") as [-> | Hne].
  - destruct t as [| c1 [| c2 [| c3 [| c4 [| c5 [| c6 [| c7 t]]]]]]]; simpl;
      try discriminate.
    intros H. exists c1, c2, c3, c4, c5, c6. split; [done |].
    repeat (apply andb_true_iff in H as [?%Is_true_true H]);
      repeat constructor; by apply Is_true_true.
  - intros H. exfalso. apply Hne.
    destruct c0 as [[] [] [] [] [] [] [] []]; try discriminate H; reflexivity.
Qed.

(** A [#] followed by six lower-case digits is already normal. *)
Lemma normalizeHex_normal c1 c2 c3 c4 c5 c6 :
  Forall (fun c => isLowerHexDigit c = true) [c1; c2; c3; c4; c5; c6] →
  let h := String "#" (String c1 (String c2 (String c3 (String c4 (String c5 (String c6 "")))))) in
  normalizeHex h = h ∧ isHashHex6 h = true.
Proof.
  intros Hall h.
  assert (allChars isLowerHexDigit (String c1 (String c2 (String c3 (String c4 (String c5 (String c6 "")))))) = true) as Hcs.
  { simpl. repeat (apply Forall_cons in Hall as [-> Hall]). done. }
  split.
  - unfold normalizeHex. rewrite trim_no_space.
    + simpl isEmpty. cbn [startsWith String.prefix]. 
      destruct (ascii_dec "#" "#"); [| done]. simpl.
      subst h. simpl. f_equal. by apply toLowerCase_lowerHex in Hcs.
    + change (negb (isWhiteSpace "#") && allChars (fun c => negb (isWhiteSpace c))
                (String c1 (String c2 (String c3 (String c4 (String c5 (String c6 "")))))) = true).
      apply andb_true_iff. split; [done |].
      eapply allChars_impl; [| exact Hcs].
      intros c Hc. by rewrite (lowerHex_not_space _ Hc).
  - subst h. unfold isHashHex6. by rewrite Hcs.
Qed.

(** The six digits of an accepted string, pair by pair. *)
Lemma hexToRgbSafe_digits c1 c2 c3 c4 c5 c6 h :
  normalizeHex h = String "#" (String c1 (String c2 (String c3 (String c4 (String c5 (String c6 "")))))) →
  Forall (fun c => isLowerHexDigit c = true) [c1; c2; c3; c4; c5; c6] →
  hexToRgbSafe h =
    match parseInt16 (String c1 (String c2 "")), parseInt16 (String c3 (String c4 "")),
          parseInt16 (String c5 (String c6 "")) with
    | Some r, Some g, Some b => Some (mkRgb r g b)
    | _, _, _ => None
    end.
Proof.
  intros Hn Hall. unfold hexToRgbSafe. rewrite Hn.
  destruct (normalizeHex_normal _ _ _ _ _ _ Hall) as [_ ->]. reflexivity.
Qed.

End ColorRoundTrip.
Section ColorRoundTripTheorem.
Import JsString ColorWheel.

Lemma toLowerCase_hashed s :
  allChars isLowerHexDigit s = true → toLowerCase (String "#" s) = String "#" s.
Proof. intros Hs. simpl. by rewrite (toLowerCase_lowerHex _ Hs). Qed.

Lemma hexToRgbSafe_accepts h :
  isHashHex6 (normalizeHex h) = true →
  ∃ rgb, hexToRgbSafe h = Some rgb
         ∧ rgbToHex (inject_Z (r rgb)) (inject_Z (g rgb)) (inject_Z (b rgb)) = normalizeHex h.
Proof.
  intros Hm.
  destruct (isHashHex6_inv _ Hm) as (c1 & c2 & c3 & c4 & c5 & c6 & Hn & Hall).
  rewrite (hexToRgbSafe_digits _ _ _ _ _ _ _ Hn Hall), Hn.
  pose proof Hall as Hall'.
  repeat (apply Forall_cons in Hall' as [? Hall']).
  destruct (hex_pair_round_trip c1 c2) as (v1 & -> & E1); [done.. |].
  destruct (hex_pair_round_trip c3 c4) as (v2 & -> & E2); [done.. |].
  destruct (hex_pair_round_trip c5 c6) as (v3 & -> & E3); [done.. |].
  eexists; split; [reflexivity |].
  unfold rgbToHex. cbn [r g b]. rewrite E1, E2, E3.
  apply toLowerCase_hashed. simpl.
  repeat match goal with Hc : isLowerHexDigit _ = true |- _ => rewrite Hc; clear Hc end.
  done.
Qed.

Lemma six_chars s :
  String.length s = 6%nat →
  ∃ c1 c2 c3 c4 c5 c6,
    s = String c1 (String c2 (String c3 (String c4 (String c5 (String c6 ""))))).
Proof.
  destruct s as [| c1 [| c2 [| c3 [| c4 [| c5 [| c6 [| c7 t]]]]]]]; simpl;
    try discriminate.
  intros _. by exists c1, c2, c3, c4, c5, c6.
Qed.

Lemma normalizeHex_digits digits :
  String.length digits = 6%nat → allChars isHexDigit digits = true →
  normalizeHex digits = "#" +:+ toLowerCase digits
  ∧ normalizeHex ("#" +:+ digits) = "#" +:+ toLowerCase digits.
Proof.
  intros Hlen Hhex.
  assert (allChars (fun c => negb (isWhiteSpace c)) digits = true) as Hns.
  { eapply allChars_impl; [| exact Hhex]. intros c Hc. by rewrite (hex_not_space _ Hc). }
  split.
  - unfold normalizeHex. rewrite (trim_no_space _ Hns).
    destruct digits as [| c t]; [done |].
    cbn [isEmpty startsWith String.prefix].
    simpl in Hhex. apply andb_true_iff in Hhex as [Hc Ht].
    destruct (ascii_dec "#" c) as [<- | _]; [by apply hex_not_hash in Hc |].
    unfold isBareHex6. rewrite Hlen. simpl. by rewrite Hc, Ht.
  - unfold normalizeHex. rewrite trim_no_space.
    + change ("#" +:+ digits) with (String "#" digits).
      cbn [isEmpty startsWith String.prefix].
      destruct (ascii_dec "#" "#") as [_ | Hne]; [| by destruct Hne].
      assert (String.prefix "" digits = true) as -> by (by destruct digits).
      reflexivity.
    + simpl. exact Hns.
Qed.

(** C8. Hex and RGB convert back and forth without loss. (1) Whenever
    [hexToRgbSafe] accepts a string, [rgbToHex] of the channels it returns
    is the normalised string; (2) six hexadecimal digits of either case,
    bare or behind a [#], are accepted and normalise to [#] followed by the
    lower-cased digits; (3) for integer channels in [0,255], [hexToRgbSafe]
    of [rgbToHex] returns exactly the channels; (4) [hexToRgbSafe] returns
    [null] exactly for the inputs whose normal form does not match
    [^#[0-9a-f]{6}$]. *)
Theorem hex_rgb_round_trip :
  (∀ h rgb, hexToRgbSafe h = Some rgb →
     rgbToHex (inject_Z (r rgb)) (inject_Z (g rgb)) (inject_Z (b rgb)) = normalizeHex h)
  ∧ (∀ digits, String.length digits = 6%nat → allChars isHexDigit digits = true →
       normalizeHex digits = "#" +:+ toLowerCase digits
       ∧ normalizeHex ("#" +:+ digits) = "#" +:+ toLowerCase digits
       ∧ is_Some (hexToRgbSafe digits) ∧ is_Some (hexToRgbSafe ("#" +:+ digits)))
  ∧ (∀ r g b, 0 ≤ r ≤ 255 → 0 ≤ g ≤ 255 → 0 ≤ b ≤ 255 →
       hexToRgbSafe (rgbToHex (inject_Z r) (inject_Z g) (inject_Z b)) = Some (mkRgb r g b))
  ∧ (∀ h, hexToRgbSafe h = None ↔ isHashHex6 (normalizeHex h) = false).
Proof.
  split; [| split; [| split]].
  - intros h rgb Hh.
    destruct (isHashHex6 (normalizeHex h)) eqn:Hm.
    + destruct (hexToRgbSafe_accepts h Hm) as (rgb' & Hh' & Heq). congruence.
    + unfold hexToRgbSafe in Hh. by rewrite Hm in Hh.
  - intros digits Hlen Hhex.
    destruct (normalizeHex_digits digits Hlen Hhex) as [Hbare Hhash].
    assert (isHashHex6 ("#" +:+ toLowerCase digits) = true) as Hm.
    { change ("#" +:+ toLowerCase digits) with (String "#" (toLowerCase digits)).
      unfold isHashHex6. rewrite toLowerCase_length, Hlen. by apply toLowerCase_hex. }
    repeat split; [done | done | |].
    + destruct (hexToRgbSafe_accepts digits) as (rgb & -> & _); [by rewrite Hbare | done].
    + destruct (hexToRgbSafe_accepts ("#" +:+ digits)) as (rgb & -> & _);
        [by rewrite Hhash | done].
  - intros r0 g0 b0 Hr Hg Hb.
    destruct (channel_round_trip r0 Hr) as (c1 & c2 & E1 & H1 & H2 & P1).
    destruct (channel_round_trip g0 Hg) as (c3 & c4 & E2 & H3 & H4 & P2).
    destruct (channel_round_trip b0 Hb) as (c5 & c6 & E3 & H5 & H6 & P3).
    assert (Forall (fun c => isLowerHexDigit c = true) [c1; c2; c3; c4; c5; c6]) as Hall.
    { by repeat constructor. }
    unfold rgbToHex. rewrite E1, E2, E3.
    change ("#" +:+ String c1 (String c2 "") +:+ String c3 (String c4 "")
              +:+ String c5 (String c6 ""))
      with (String "#" (String c1 (String c2 (String c3 (String c4 (String c5 (String c6 ""))))))).
    rewrite toLowerCase_hashed; [| simpl; by rewrite H1, H2, H3, H4, H5, H6].
    destruct (normalizeHex_normal _ _ _ _ _ _ Hall) as [Hn _].
    rewrite (hexToRgbSafe_digits _ _ _ _ _ _ _ Hn Hall), P1, P2, P3. done.
  - intros h. split.
    + intros Hnone. destruct (isHashHex6 (normalizeHex h)) eqn:Hm; [| done].
      destruct (hexToRgbSafe_accepts h Hm) as (rgb & Hh & _). congruence.
    + intros Hm. unfold hexToRgbSafe. by rewrite Hm.
Qed.

(** The round trip on two concrete colours. *)
Lemma hex_rgb_round_trip_witness :
  rgbToHex (inject_Z 255) (inject_Z 0) (inject_Z 170) = normalizeHex " FF00aa "
  ∧ hexToRgbSafe (rgbToHex (inject_Z 18) (inject_Z 52) (inject_Z 86)) = Some (mkRgb 18 52 86).
Proof.
  split.
  - apply (proj1 hex_rgb_round_trip " FF00aa " (mkRgb 255 0 170)). reflexivity.
  - apply (proj1 (proj2 (proj2 hex_rgb_round_trip)) 18 52 86); lia.
Defined.

End ColorRoundTripTheorem.

(** ** Arrays and swaps *)
Lemma insert_cons_Permutation {A} (l : list A) i x y :
  l !! i = Some y → x :: l ≡ₚ y :: <[i:=x]> l.
Proof.
  revert i. induction l as [| z l IH]; intros [| i] Hi; simplify_eq/=.
  - apply perm_swap.
  - rewrite (perm_swap z x l), (IH i Hi). apply perm_swap.
Qed.

Lemma swap_Permutation {A} (l : list A) i j x y :
  l !! i = Some y → l !! j = Some x → <[j:=y]> (<[i:=x]> l) ≡ₚ l.
Proof.
  intros Hi Hj.
  assert (<[i:=x]> l !! j = Some x) as Hj'.
  { destruct (decide (i = j)) as [-> |].
    - rewrite list_lookup_insert_eq; [done |]. by eapply lookup_lt_Some.
    - by rewrite list_lookup_insert_ne. }
  apply (Permutation_cons_inv (a := x)).
  rewrite <- (insert_cons_Permutation _ j y x Hj').
  symmetry. by apply insert_cons_Permutation.
Qed.

Section Swap.
Context {T : Type}.

Lemma JsArray_set_in_range (a : JsArray.t T) i v :
  0 ≤ i < JsArray.length a →
  JsArray.set a i v
  = {| JsArray.items := <[Z.to_nat i := v]> (JsArray.items a);
       JsArray.props := JsArray.props a |}.
Proof.
  intros Hi. unfold JsArray.set.
  destruct (Z.ltb_spec i 0); [lia |].
  destruct (Z.ltb_spec i (JsArray.length a)); [done | lia].
Qed.

Lemma JsArray_get_in_range (a : JsArray.t T) i v :
  0 ≤ i → JsArray.items a !! Z.to_nat i = Some v → JsArray.get a i = v.
Proof.
  intros Hi Hv. unfold JsArray.get.
  destruct (Z.leb_spec 0 i); [| lia]. by rewrite Hv.
Qed.

(** A swap of two positions of the array permutes its elements and creates
    no property. *)
Lemma JsArray_swap_in_range (a : JsArray.t T) i j :
  0 ≤ i < JsArray.length a → 0 ≤ j < JsArray.length a →
  JsArray.items (JsArray.swap a i j) ≡ₚ JsArray.items a
  ∧ JsArray.props (JsArray.swap a i j) = JsArray.props a.
Proof.
  intros Hi Hj.
  destruct (lookup_lt_is_Some_2 (JsArray.items a) (Z.to_nat i)) as [y Hy];
    [unfold JsArray.length in Hi; lia |].
  destruct (lookup_lt_is_Some_2 (JsArray.items a) (Z.to_nat j)) as [x Hx];
    [unfold JsArray.length in Hj; lia |].
  unfold JsArray.swap.
  rewrite (JsArray_get_in_range a j x), (JsArray_get_in_range a i y) by (done || lia).
  rewrite (JsArray_set_in_range a i x Hi).
  rewrite JsArray_set_in_range.
  - simpl. split; [| done]. by apply swap_Permutation.
  - unfold JsArray.length in *. simpl. rewrite length_insert. lia.
Qed.

End Swap.

(** ** The seeded shuffle and the trial plan (batteryPlan.ts) *)
Section Shuffle.
Import BatteryTypes BatteryPlan PlanSpec.

Lemma lcgNext_range s : 0 ≤ s → 0 ≤ lcgNext s < 4294967296.
Proof. intros Hs. unfold lcgNext. apply Z.rem_bound_pos; lia. Qed.

Lemma randIndex_range s i :
  0 ≤ s < 4294967296 → 0 ≤ i → 0 ≤ randIndex s i ≤ i.
Proof.
  intros Hs Hi. unfold randIndex. split.
  - apply Z.div_pos; nia.
  - apply Z.lt_succ_r. apply Z.div_lt_upper_bound; nia.
Qed.

(** From a non-negative state on, every round of the loop swaps two
    positions of the array. *)
Lemma shuffleLoop_Permutation {T} (i : nat) s (a : JsArray.t T) :
  0 ≤ s → (i < length (JsArray.items a))%nat →
  JsArray.items (shuffleLoop i s a) ≡ₚ JsArray.items a.
Proof.
  revert s a. induction i as [| i IH]; intros s a Hs Hi; [done |].
  cbn [shuffleLoop].
  pose proof (lcgNext_range s Hs) as Hs'.
  pose proof (randIndex_range (lcgNext s) (Z.of_nat (S i)) Hs' ltac:(lia)) as Hj.
  destruct (JsArray_swap_in_range a (Z.of_nat (S i)) (randIndex (lcgNext s) (Z.of_nat (S i))))
    as [Hperm _]; [unfold JsArray.length; lia.. |].
  rewrite IH; [done | lia |].
  rewrite (Permutation_length Hperm). lia.
Qed.

Lemma shuffle_Permutation {T} (arr : list T) seed now :
  0 ≤ seed →
  ∃ l, shuffle arr (Some seed) now = Some <$> l ∧ l ≡ₚ arr.
Proof.
  intros Hseed. unfold shuffle. simpl.
  destruct arr as [| x arr]; [by exists [] |].
  assert (JsArray.items (shuffleLoop (length (x :: arr) - 1) seed (JsArray.ofList (x :: arr)))
          ≡ₚ Some <$> (x :: arr)) as Hperm.
  { apply shuffleLoop_Permutation; [done |]. simpl. rewrite length_fmap. lia. }
  destruct (Permutation_map_inv Some (x :: arr) Hperm) as (l & Hl & Hp).
  exists l. split; [exact Hl | by symmetry].
Qed.

(** *** The array before the shuffle *)

Lemma eq_Permutation {A} (l k : list A) : l = k → l ≡ₚ k.
Proof. by intros ->. Qed.

Lemma bind_app_Permutation {A B} (f g : A → list B) (l : list A) :
  (x ← l; f x ++ g x) ≡ₚ (x ← l; f x) ++ (x ← l; g x).
Proof.
  induction l as [| x l IH]; [done |]. rewrite !bind_cons, IH.
  rewrite <- !(assoc_L (++)). f_equiv.
  rewrite !(assoc_L (++)). f_equiv. apply Permutation_app_comm.
Qed.

Lemma bind_swap_Permutation {A B C} (f : A → B → list C) (la : list A) (lb : list B) :
  (x ← la; y ← lb; f x y) ≡ₚ (y ← lb; x ← la; f x y).
Proof.
  induction la as [| x la IH].
  - induction lb as [| y lb IHb]; [done |]. by rewrite bind_cons, <- IHb.
  - rewrite bind_cons, IH. symmetry.
    exact (bind_app_Permutation (fun y => f x y) (fun y => x ← la; f x y) lb).
Qed.

Lemma bind_singleton_fmap {A B} (h : A → B) (l : list A) :
  (x ← l; [h x]) = h <$> l.
Proof. induction l as [| x l IH]; [done |]. by rewrite bind_cons, IH. Qed.

Lemma length_bind_const {A B} (f : A → list B) (l : list A) k :
  (∀ x, length (f x) = k) → length (l ≫= f) = (length l * k)%nat.
Proof.
  intros Hf. induction l as [| x l IH]; [done |].
  rewrite bind_cons, length_app, Hf, IH. simpl. lia.
Qed.

(** The stimuli with their kinds, graphemes first. *)
Lemma trialsOfRepeat_pairs graphemes weekdays repeats seed r :
  trialsOfRepeat (seeded graphemes weekdays repeats seed) r
  = ('(s, k) ← ((fun s => (s, KGrapheme)) <$> graphemes) ++ ((fun s => (s, KWeekday)) <$> weekdays);
     [ {| grapheme := s; kind := k; repeatIndex := r |} ]).
Proof.
  unfold trialsOfRepeat. simpl.
  rewrite bind_app, !list_fmap_bind. by rewrite <- !bind_singleton_fmap.
Qed.

Lemma unshuffledTrials_crossProduct graphemes weekdays repeats seed :
  unshuffledTrials (seeded graphemes weekdays repeats seed)
  ≡ₚ crossProduct graphemes weekdays repeats.
Proof.
  set (pairs := ((fun s => (s, KGrapheme)) <$> graphemes) ++ ((fun s => (s, KWeekday)) <$> weekdays)).
  set (one := fun (r : nat) (p : string * Kind) =>
                [ {| grapheme := p.1; kind := p.2; repeatIndex := Z.of_nat r |} ]).
  trans (r ← seq 0 repeats; p ← pairs; one r p).
  - apply eq_Permutation. unfold unshuffledTrials. cbn [BatteryPlan.repeats seeded].
    rewrite Nat2Z.id, list_fmap_bind. apply list_bind_ext; [| done].
    intros r. simpl. rewrite trialsOfRepeat_pairs.
    apply list_bind_ext; [| done]. by intros [s k].
  - rewrite (bind_swap_Permutation one). apply eq_Permutation.
    unfold crossProduct. apply list_bind_ext; [| done]. by intros [s k].
Qed.

Lemma unshuffledTrials_length graphemes weekdays repeats seed :
  length (unshuffledTrials (seeded graphemes weekdays repeats seed))
  = (repeats * (length graphemes + length weekdays))%nat.
Proof.
  unfold unshuffledTrials. cbn [BatteryPlan.repeats seeded].
  rewrite Nat2Z.id.
  rewrite (length_bind_const _ _ (length graphemes + length weekdays)).
  - by rewrite length_fmap, length_seq.
  - intros r. unfold trialsOfRepeat. simpl. by rewrite length_app, !length_fmap.
Qed.

Lemma elem_of_unshuffledTrials graphemes weekdays repeats seed t :
  t ∈ unshuffledTrials (seeded graphemes weekdays repeats seed)
  ↔ planned graphemes weekdays repeats t.
Proof.
  unfold unshuffledTrials, planned, trialsOfRepeat. cbn [BatteryPlan.repeats seeded].
  rewrite Nat2Z.id, list_elem_of_bind. simpl. split.
  - intros (r & Ht & (n & -> & Hn%elem_of_seq)%list_elem_of_fmap).
    apply elem_of_app in Ht as [(s & -> & Hs)%list_elem_of_fmap | (s & -> & Hs)%list_elem_of_fmap];
      simpl; split; (lia || done).
  - intros [Hr Hk]. exists (repeatIndex t). split.
    + destruct t as [s [] ri]; simpl in *; apply elem_of_app; [left | right];
        apply list_elem_of_fmap; by exists s.
    + apply list_elem_of_fmap. exists (Z.to_nat (repeatIndex t)). split; [lia |].
      apply elem_of_seq. lia.
Qed.

Lemma NoDup_unshuffledTrials graphemes weekdays repeats seed :
  NoDup graphemes → NoDup weekdays →
  NoDup (unshuffledTrials (seeded graphemes weekdays repeats seed)).
Proof.
  intros Hg Hw. unfold unshuffledTrials, trialsOfRepeat. cbn [BatteryPlan.repeats seeded].
  simpl. apply NoDup_bind.
  - intros r1 r2 t _ _ H1 H2.
    assert (∀ r, t ∈ ((fun g0 => {| grapheme := g0; kind := KGrapheme; repeatIndex := r |}) <$> graphemes)
                       ++ ((fun d => {| grapheme := d; kind := KWeekday; repeatIndex := r |}) <$> weekdays)
                 → repeatIndex t = r) as Hri.
    { intros r [(s & -> & _)%list_elem_of_fmap | (s & -> & _)%list_elem_of_fmap]%elem_of_app; done. }
    by rewrite <- (Hri r1 H1), <- (Hri r2 H2).
  - intros r _. apply NoDup_app. split_and!.
    + apply NoDup_fmap_2_strong; [| done]. by intros ?? _ _ [=].
    + intros t (s & -> & _)%list_elem_of_fmap (s' & [=] & _)%list_elem_of_fmap.
    + apply NoDup_fmap_2_strong; [| done]. by intros ?? _ _ [=].
  - apply NoDup_fmap_2_strong; [| apply NoDup_seq]. intros ?? _ _. lia.
Qed.

Lemma occurrences_not_elem (l : list PickerTrial) t :
  t ∉ l → occurrences t (Some <$> l) = 0%nat.
Proof.
  unfold occurrences. induction l as [| x l IH]; [done |].
  intros [Hne Hl]%not_elem_of_cons. rewrite fmap_cons, filter_cons_False; [by apply IH |].
  by intros [= ->].
Qed.

(** In a duplicate-free list every member occurs once. *)
Lemma occurrences_NoDup (l : list PickerTrial) t :
  NoDup l → t ∈ l → occurrences t (Some <$> l) = 1%nat.
Proof.
  induction 1 as [| x l Hx Hl IH]; [by intros ?%elem_of_nil |].
  intros Ht. unfold occurrences. rewrite fmap_cons.
  destruct (decide (x = t)) as [-> | Hne].
  - rewrite filter_cons_True by done. simpl. f_equal. by apply occurrences_not_elem.
  - rewrite filter_cons_False by (by intros [= ->]).
    apply IH. apply elem_of_cons in Ht as [-> |]; done.
Qed.

(** C2 (as amended). For duplicate-free stimulus lists and a seed that is
    an unsigned 32-bit integer, as [PickerScreen] passes it, the output of
    [buildPickerTrials] is a permutation of the full cross product of
    stimuli and repeat indices: its length is
    [repeats × (|graphemes| + |weekdays|)] and every identity key of the
    cross product occurs exactly once. The permutation and the length hold
    for stimulus lists with duplicates as well. *)
Theorem buildPickerTrials_complete graphemes weekdays (repeats : nat) seed now :
  0 ≤ seed < 4294967296 →
  let out := buildPickerTrials (seeded graphemes weekdays repeats seed) now in
  (∃ l, out = Some <$> l ∧ l ≡ₚ crossProduct graphemes weekdays repeats)
  ∧ length out = (repeats * (length graphemes + length weekdays))%nat
  ∧ (NoDup graphemes → NoDup weekdays → complete graphemes weekdays repeats out).
Proof.
  intros Hseed out. subst out. unfold buildPickerTrials.
  destruct (shuffle_Permutation (unshuffledTrials (seeded graphemes weekdays repeats seed))
              seed now) as (l & Hl & Hperm); [lia |].
  cbn [BatteryPlan.seed seeded]. rewrite Hl.
  assert (length (Some <$> l) = (repeats * (length graphemes + length weekdays))%nat) as Hlen.
  { by rewrite length_fmap, (Permutation_length Hperm), unshuffledTrials_length. }
  split_and!.
  - exists l. split; [done |]. by rewrite Hperm, unshuffledTrials_crossProduct.
  - exact Hlen.
  - intros Hg Hw. split_and!; [exact Hlen | |].
    + intros t Ht. apply occurrences_NoDup.
      * rewrite Hperm. by apply NoDup_unshuffledTrials.
      * rewrite Hperm. by apply elem_of_unshuffledTrials.
    + intros x (t & -> & Ht)%list_elem_of_fmap. exists t. split; [done |].
      rewrite Hperm in Ht. by apply elem_of_unshuffledTrials in Ht.
Qed.

(** The plan of two graphemes and one weekday, twice each, seed 7. *)
Lemma buildPickerTrials_complete_witness :
  complete ["A"; "B"] ["Monday"] 2
    (buildPickerTrials (seeded ["A"; "B"] ["Monday"] 2 7) 0).
Proof.
  apply (buildPickerTrials_complete ["A"; "B"] ["Monday"] 2 7 0).
  - lia.
  - apply (bool_decide_unpack _). vm_compute. exact I.
  - apply (bool_decide_unpack _). vm_compute. exact I.
Defined.

(** C2 (as stated) fails. A stimulus that is listed twice has its identity
    keys twice in the output; and a negative seed makes [rand] negative, the
    index [j] negative, and the swap store [undefined] in the array. *)
Lemma buildPickerTrials_not_always_complete :
  ¬ complete ["A"; "A"] [] 1 (buildPickerTrials (seeded ["A"; "A"] [] 1 0) 0)
  ∧ ¬ complete ["A"] [] 2 (buildPickerTrials (seeded ["A"] [] 2 (-1000)) 0).
Proof.
  split.
  - intros (_ & Honce & _).
    specialize (Honce {| grapheme := "A"; kind := KGrapheme; repeatIndex := 0 |}).
    assert (planned ["A"; "A"] [] 1 {| grapheme := "A"; kind := KGrapheme; repeatIndex := 0 |}) as Hp.
    { split; [simpl; lia |]. simpl. apply list_elem_of_here. }
    specialize (Honce Hp). vm_compute in Honce. discriminate Honce.
  - intros (_ & Honce & _).
    specialize (Honce {| grapheme := "A"; kind := KGrapheme; repeatIndex := 1 |}).
    assert (planned ["A"] [] 2 {| grapheme := "A"; kind := KGrapheme; repeatIndex := 1 |}) as Hp.
    { split; [simpl; lia |]. simpl. apply list_elem_of_here. }
    specialize (Honce Hp). vm_compute in Honce. discriminate Honce.
Qed.

(** What the array looks like after the shuffle with the negative seed:
    the second trial has been replaced by [undefined]. *)
Example buildPickerTrials_negative_seed :
  buildPickerTrials (seeded ["A"] [] 2 (-1000)) 0
  = [Some {| grapheme := "A"; kind := KGrapheme; repeatIndex := 0 |}; None].
Proof. reflexivity. Qed.

(** *** The shuffle is Fisher–Yates on the stream of the generator *)







(** *** Determinism *)

Lemma seedOfRunId_range runId : 0 ≤ Picker.seedOfRunId runId < 4294967296.
Proof.
  unfold Picker.seedOfRunId.
  assert (∀ l s, 0 ≤ s < 4294967296 →
            0 ≤ fold_left (fun seed c => (seed * 31 + c) mod 4294967296) l s < 4294967296) as H.
  { induction l as [| c l IH]; intros s Hs; [done |]. simpl. apply IH.
    apply Z.mod_pos_bound. lia. }
  apply H. lia.
Qed.



(** Without a seed the order follows the clock. *)
Example buildPickerTrials_unseeded_follows_clock :
  buildPickerTrials {| graphemes := ["A"; "B"]; weekdays := []; repeats := 1; seed := None |} 0
  ≠ buildPickerTrials {| graphemes := ["A"; "B"]; weekdays := []; repeats := 1; seed := None |} 1000.
Proof. vm_compute. discriminate. Qed.

End Shuffle.

(** ** The response recorder (picker.tsx) *)
Section Recorder.
Import JsString BatteryTypes Picker RecorderSpec.

(** *** The key is a faithful name of the identity *)

Lemma pretty_N_char_keyChar x : keyChar (pretty_N_char x) = true.
Proof. unfold pretty_N_char. by repeat case_match. Qed.

Lemma pretty_N_go_keyChars x s :
  allChars keyChar s = true → allChars keyChar (pretty_N_go x s) = true.
Proof.
  revert s. induction (N.lt_wf_0 x) as [x _ IH]; intros s Hs.
  destruct (decide (x = 0)%N) as [-> | Hx]; [by rewrite pretty_N_go_0 |].
  rewrite pretty_N_go_step by lia. apply IH.
  - apply N.div_lt; lia.
  - simpl. by rewrite pretty_N_char_keyChar.
Qed.

Lemma pretty_Z_keyChars (z : Z) : allChars keyChar (pretty z) = true.
Proof.
  assert (∀ p : positive, allChars keyChar (pretty p) = true) as Hp.
  { intros p. unfold pretty, pretty_positive, pretty, pretty_N.
    case_decide; [done |]. by apply pretty_N_go_keyChars. }
  destruct z as [| p | p]; [done | apply Hp |].
  change (pretty (Z.neg p)) with (String "-" (pretty p)). simpl. apply Hp.
Qed.

(** The text behind the last colon of a string is determined by the
    string when it has no colon itself. *)
Lemma append_colon_inj s1 s2 t1 t2 :
  allChars keyChar t1 = true → allChars keyChar t2 = true →
  s1 +:+ ":" +:+ t1 = s2 +:+ ":" +:+ t2 → s1 = s2 ∧ t1 = t2.
Proof.
  intros H1 H2.
  assert (∀ s t, allChars keyChar (s +:+ ":" +:+ t) = false) as Hcolon.
  { intros s t. induction s as [| e s IH]; [done |].
    change (keyChar e && allChars keyChar (s +:+ ":" +:+ t) = false).
    rewrite IH. apply andb_false_r. }
  revert s2. induction s1 as [| c s1 IH]; intros [| d s2] Heq.
  - change (String ":" t1 = String ":" t2) in Heq. by injection Heq.
  - change (String ":" t1 = String d (s2 +:+ ":" +:+ t2)) in Heq.
    injection Heq as <- Heq. rewrite Heq, Hcolon in H1. done.
  - change (String c (s1 +:+ ":" +:+ t1) = String ":" t2) in Heq.
    injection Heq as -> Heq. rewrite <- Heq, Hcolon in H2. done.
  - change (String c (s1 +:+ ":" +:+ t1) = String d (s2 +:+ ":" +:+ t2)) in Heq.
    injection Heq as -> Heq. destruct (IH _ Heq) as [-> ->]. done.
Qed.

Lemma trialKey_inj k1 g1 r1 k2 g2 r2 :
  trialKey k1 g1 r1 = trialKey k2 g2 r2 → k1 = k2 ∧ g1 = g2 ∧ r1 = r2.
Proof.
  unfold trialKey. intros Heq.
  assert (k1 = k2 ∧ g1 +:+ ":" +:+ pretty r1 = g2 +:+ ":" +:+ pretty r2) as [-> Heq'].
  { destruct k1, k2; simpl in Heq; try discriminate Heq; by simplify_eq. }
  apply append_colon_inj in Heq' as [-> Hr]; [| apply pretty_Z_keyChars..].
  by apply (inj pretty) in Hr as ->.
Qed.

Lemma trialKeyOfResponse_identity r1 r2 :
  trialKeyOfResponse r1 = trialKeyOfResponse r2 ↔ identity r1 = identity r2.
Proof.
  unfold trialKeyOfResponse, identity. split.
  - intros (-> & -> & ->)%trialKey_inj. done.
  - by intros [= -> -> ->].
Qed.

(** *** Replace by key *)

Lemma entriesFor_insert_same prev r :
  entriesFor (identity r) (insertResponse prev r) = [r].
Proof.
  unfold entriesFor, insertResponse, replaceByKey. rewrite filter_app.
  rewrite filter_cons_True, filter_nil by done.
  rewrite list_filter_filter.
  assert (filter (fun x => identity x = identity r ∧ trialKeyOfResponse x ≠ trialKeyOfResponse r) prev
          = []) as ->; [| done].
  induction prev as [| x prev IH]; [done |].
  rewrite filter_cons_False; [done |].
  intros [Hid Hkey]. by apply Hkey, trialKeyOfResponse_identity.
Qed.

Lemma entriesFor_insert_other prev r id :
  id ≠ identity r → entriesFor id (insertResponse prev r) = entriesFor id prev.
Proof.
  intros Hid. unfold entriesFor, insertResponse, replaceByKey. rewrite filter_app.
  rewrite filter_cons_False, filter_nil, app_nil_r by done.
  rewrite list_filter_filter. apply list_filter_iff. intros x. split; [tauto |].
  intros Hx. split; [done |].
  intros Hkey%trialKeyOfResponse_identity. congruence.
Qed.

Lemma insertResponse_invariant prev r :
  atMostOnePerIdentity prev → atMostOnePerIdentity (insertResponse prev r).
Proof.
  intros Hprev id. destruct (decide (id = identity r)) as [-> | Hne].
  - by rewrite entriesFor_insert_same.
  - rewrite entriesFor_insert_other by done. apply Hprev.
Qed.

Lemma buildResponse_identity st cur now :
  identity (buildResponse st cur now) = identityOfTrial cur.
Proof. reflexivity. Qed.

Lemma onNext_inserts st cur now :
  match onNext st (Some cur) now with
  | Some p' =>
      ∃ p, payload st = Some p
           ∧ pickerResponses p' = insertResponse (pickerResponses p) (buildResponse st cur now)
           ∧ congruencyResponses p' = congruencyResponses p
  | None =>
      payload st = None ∨ canNext st = false ∨ saving st = true ∨ submitting st = true
  end.
Proof.
  unfold onNext. destruct (payload st) as [p |]; [| by left].
  destruct (canNext st); simpl; [| by right; left].
  destruct (saving st); simpl; [by right; right; left |].
  destruct (submitting st); simpl; [by right; right; right |].
  exists p. done.
Qed.

(** C6. Inserting a picker response is an idempotent replace. (1) After
    two submissions with the same identity through [onNext], the stored
    list holds exactly one response with that identity, the second one.
    (2) An insertion leaves exactly one response with the identity it
    inserts, whatever was stored before, so it never appends a duplicate;
    (3) it leaves the responses of every other identity as they were; and
    (4) it preserves the invariant that every identity has at most one
    response. (5) [onNext] either installs the payload with the response
    inserted in this way, or returns early because the payload is not
    loaded, the colour is not valid, or a save is under way. *)
Theorem picker_insert_replaces :
  (∀ st1 st2 cur now1 now2 p1 p2,
     onNext st1 (Some cur) now1 = Some p1 →
     payload st2 = Some p1 →
     onNext st2 (Some cur) now2 = Some p2 →
     entriesFor (identityOfTrial cur) (pickerResponses p2) = [buildResponse st2 cur now2])
  ∧ (∀ prev r, entriesFor (identity r) (insertResponse prev r) = [r])
  ∧ (∀ prev r id, id ≠ identity r → entriesFor id (insertResponse prev r) = entriesFor id prev)
  ∧ (∀ prev r, atMostOnePerIdentity prev → atMostOnePerIdentity (insertResponse prev r))
  ∧ (∀ st cur now,
       match onNext st (Some cur) now with
       | Some p' =>
           ∃ p, payload st = Some p
                ∧ pickerResponses p' = insertResponse (pickerResponses p) (buildResponse st cur now)
                ∧ congruencyResponses p' = congruencyResponses p
       | None =>
           payload st = None ∨ canNext st = false ∨ saving st = true ∨ submitting st = true
       end).
Proof.
  split_and!.
  - intros st1 st2 cur now1 now2 p1 p2 _ Hp1 H2.
    pose proof (onNext_inserts st2 cur now2) as H. rewrite H2 in H.
    destruct H as (p & Hp & -> & _).
    rewrite <- (buildResponse_identity st2 cur now2). apply entriesFor_insert_same.
  - apply entriesFor_insert_same.
  - apply entriesFor_insert_other.
  - apply insertResponse_invariant.
  - apply onNext_inserts.
Qed.

(** Red, then green, for the first repeat of "A": one response is stored,
    the green one. *)
Lemma picker_insert_replaces_witness :
  match onNext (Examples.screenWith Examples.freshPayload "#ff0000") (Some Examples.trialA0) 10 with
  | Some p1 =>
      match onNext (Examples.screenWith p1 "#00ff00") (Some Examples.trialA0) 20 with
      | Some p2 =>
          entriesFor (KGrapheme, "A", 0) (pickerResponses p2)
          = [buildResponse (Examples.screenWith p1 "#00ff00") Examples.trialA0 20]
      | None => False
      end
  | None => False
  end.
Proof.
  destruct (onNext (Examples.screenWith Examples.freshPayload "#ff0000") (Some Examples.trialA0) 10)
    as [p1 |] eqn:H1; [| by vm_compute in H1].
  destruct (onNext (Examples.screenWith p1 "#00ff00") (Some Examples.trialA0) 20)
    as [p2 |] eqn:H2.
  - exact (proj1 picker_insert_replaces _ (Examples.screenWith p1 "#00ff00") _ _ _ _ _
             H1 eq_refl H2).
  - vm_compute in H1. injection H1 as <-. vm_compute in H2. discriminate H2.
Defined.

End Recorder.



(** ** Insertion-ordered maps *)
Section JsMapFacts.
Context {K V : Type} `{EqDecision K}.

Lemma JsMap_get_set (m : list (K * V)) k v k' :
  JsMap.get (JsMap.set m k v) k' = if decide (k' = k) then Some v else JsMap.get m k'.
Proof.
  induction m as [| [k0 v0] m IH]; simpl.
  - by destruct (decide (k' = k)).
  - destruct (decide (k = k0)) as [-> | Hne]; simpl.
    + by destruct (decide (k' = k0)).
    + rewrite IH. destruct (decide (k' = k0)) as [-> | ?]; [| done].
      by destruct (decide (k0 = k)).
Qed.

Lemma JsMap_has_get (m : list (K * V)) k :
  JsMap.has m k = true ↔ is_Some (JsMap.get m k).
Proof. unfold JsMap.has. destruct (JsMap.get m k); split; (done || by intros []). Qed.

End JsMapFacts.

(** ** The canonical colour (congruency.tsx, SynesthesiaBattery.ts) *)
Section Canonical.
Import JsString BatteryTypes CanonicalSpec.

(** One response, on a map that may already know the stimulus. *)
Lemma canonicalStep_get m r s :
  JsMap.get (Congruency.canonicalStep m r) s
  = match JsMap.get m s with
    | Some h => Some h
    | None => firstColoredGraphemeHex s [r]
    end.
Proof.
  unfold Congruency.canonicalStep, firstColoredGraphemeHex, colored.
  destruct (decide (kind r = KGrapheme)) as [Hk | Hk].
  - rewrite (bool_decide_eq_true_2 _ Hk). simpl.
    destruct (isNoColor r) eqn:Hnc; simpl.
    { rewrite filter_cons_False by (intros (_ & _ & Hc); rewrite Hnc in Hc; discriminate Hc).
      by destruct (JsMap.get m s). }
    destruct (isEmpty (trim (default "" (hex r)))) eqn:He; simpl.
    { rewrite filter_cons_False by (intros (_ & _ & Hc); rewrite Hnc, He in Hc; discriminate Hc).
      by destruct (JsMap.get m s). }
    destruct (JsMap.has m (grapheme r)) eqn:Hhas; simpl.
    + apply JsMap_has_get in Hhas as [h Hh].
      destruct (decide (grapheme r = s)) as [<- | Hs].
      * by rewrite Hh.
      * rewrite filter_cons_False by (by intros (_ & ? & _)). by destruct (JsMap.get m s).
    + rewrite JsMap_get_set.
      destruct (decide (s = grapheme r)) as [-> | Hs].
      * assert (JsMap.get m (grapheme r) = None) as ->.
        { destruct (JsMap.get m (grapheme r)) eqn:Hg; [| done].
          unfold JsMap.has in Hhas. by rewrite Hg in Hhas. }
        rewrite filter_cons_True; [done |]. by rewrite Hnc, He.
      * rewrite filter_cons_False by (by intros (_ & ? & _)). by destruct (JsMap.get m s).
  - rewrite (bool_decide_eq_false_2 _ Hk). simpl.
    rewrite filter_cons_False by (by intros (? & _)). by destruct (JsMap.get m s).
Qed.

Lemma firstColoredGraphemeHex_cons s r rs :
  firstColoredGraphemeHex s (r :: rs)
  = match firstColoredGraphemeHex s [r] with
    | Some h => Some h
    | None => firstColoredGraphemeHex s rs
    end.
Proof.
  unfold firstColoredGraphemeHex. rewrite !filter_cons, filter_nil.
  by case_decide.
Qed.

Lemma fold_canonicalStep_get rs m s :
  JsMap.get (fold_left Congruency.canonicalStep rs m) s
  = match JsMap.get m s with
    | Some h => Some h
    | None => firstColoredGraphemeHex s rs
    end.
Proof.
  revert m. induction rs as [| r rs IH]; intros m; simpl.
  - by destruct (JsMap.get m s).
  - rewrite IH, canonicalStep_get, (firstColoredGraphemeHex_cons s r rs).
    destruct (JsMap.get m s); [done |].
    by destruct (firstColoredGraphemeHex s [r]).
Qed.

(** The library's map, by contrast, keeps the last colour. *)
Lemma lastColoredRgb_cons {num} s (r : @SynesthesiaBattery.PickerResponse num) rs :
  lastColoredRgb s (r :: rs)
  = match lastColoredRgb s rs with
    | Some c => Some c
    | None => lastColoredRgb s [r]
    end.
Proof.
  unfold lastColoredRgb. rewrite !filter_cons, filter_nil.
  set (rest := filter _ rs).
  assert (∀ y, last rest = Some y → is_Some (SynesthesiaBattery.rgb y)) as Hsome.
  { intros y Hy%last_Some_elem_of. by apply list_elem_of_filter in Hy as [(_ & _ & ?) _]. }
  destruct (last rest) as [y |] eqn:Hlast.
  - destruct (Hsome y eq_refl) as [c Hc].
    case_decide; rewrite ?last_cons, ?Hlast; simpl; by rewrite Hc.
  - apply last_None in Hlast. rewrite Hlast. by case_decide.
Qed.

Lemma lastColorStep_get {num} m (r : @SynesthesiaBattery.PickerResponse num) s :
  JsMap.get (SynesthesiaBattery.lastColorStep m r) s
  = match lastColoredRgb s [r] with
    | Some c => Some c
    | None => JsMap.get m s
    end.
Proof.
  unfold SynesthesiaBattery.lastColorStep, lastColoredRgb. rewrite filter_cons, filter_nil.
  destruct (SynesthesiaBattery.rgb r) as [c |] eqn:Hrgb.
  - destruct (SynesthesiaBattery.isNoColor r) eqn:Hnc; simpl.
    + by rewrite decide_False by (by intros (_ & ? & _)).
    + rewrite JsMap_get_set. destruct (decide (s = SynesthesiaBattery.grapheme r)) as [-> | Hs].
      * rewrite decide_True by done. simpl. by rewrite Hrgb.
      * by rewrite decide_False by (by intros (? & _ & _)).
  - rewrite decide_False; [done |]. intros (_ & _ & [? ?]). congruence.
Qed.

Lemma fold_lastColorStep_get {num} (rs : list (@SynesthesiaBattery.PickerResponse num)) m s :
  JsMap.get (fold_left SynesthesiaBattery.lastColorStep rs m) s
  = match lastColoredRgb s rs with
    | Some c => Some c
    | None => JsMap.get m s
    end.
Proof.
  revert m. induction rs as [| r rs IH]; intros m; [reflexivity |].
  simpl. rewrite IH, lastColoredRgb_cons, lastColorStep_get.
  by destruct (lastColoredRgb s rs).
Qed.

(** C4 (as amended). The map that the congruency screen builds is
    first-wins among the responses of kind "grapheme": a grapheme is mapped
    to the trimmed, lower-cased hex of the first response for it, in
    response order, that is not "no color" and whose hex is not blank;
    responses that come later never change an entry; a stimulus of kind
    "weekday" gets no entry. Two responses for "Q", the first with hex
    #ff0000 and the second with #00ff00, map "Q" to #ff0000. The map that
    [buildCongruencyTrialsFromPicker] of the library builds keeps the
    colour of the last coloured response instead. *)
Theorem buildCanonicalMap_first_wins :
  (∀ payload stimulus,
     JsMap.get (Congruency.buildCanonicalMap payload) stimulus
     = firstColoredGraphemeHex stimulus (pickerResponses payload))
  ∧ (∀ payload payload' later stimulus h,
       pickerResponses payload' = pickerResponses payload ++ later →
       JsMap.get (Congruency.buildCanonicalMap payload) stimulus = Some h →
       JsMap.get (Congruency.buildCanonicalMap payload') stimulus = Some h)
  ∧ JsMap.get (Congruency.buildCanonicalMap
                 (Examples.withResponses [Examples.answer KGrapheme "Q" 0 "#ff0000";
                                          Examples.answer KGrapheme "Q" 1 "#00ff00"])) "Q"
    = Some "#ff0000"
  ∧ (∀ num (run : @SynesthesiaBattery.BatteryRun num) stimulus,
       JsMap.get (SynesthesiaBattery.lastColorByG run) stimulus
       = lastColoredRgb stimulus (SynesthesiaBattery.pickerResponses run)).
Proof.
  split_and!.
  - intros payload stimulus. unfold Congruency.buildCanonicalMap.
    by rewrite fold_canonicalStep_get.
  - intros payload payload' later stimulus h Hlater Hh.
    unfold Congruency.buildCanonicalMap in *. rewrite Hlater, fold_left_app.
    by rewrite fold_canonicalStep_get, Hh.
  - reflexivity.
  - intros num run stimulus. unfold SynesthesiaBattery.lastColorByG.
    rewrite fold_lastColorStep_get. by destruct (lastColoredRgb _ _).
Qed.

(** A third answer for "Q" does not change its canonical colour. *)
Lemma buildCanonicalMap_first_wins_witness :
  JsMap.get (Congruency.buildCanonicalMap
               (Examples.withResponses [Examples.answer KGrapheme "Q" 0 "#FF0000 ";
                                        Examples.answer KGrapheme "Q" 1 "#00ff00";
                                        Examples.answer KGrapheme "Q" 2 "#0000ff"])) "Q"
  = Some "#ff0000".
Proof.
  apply (proj1 (proj2 buildCanonicalMap_first_wins)
           (Examples.withResponses [Examples.answer KGrapheme "Q" 0 "#FF0000 ";
                                    Examples.answer KGrapheme "Q" 1 "#00ff00"])
           _ [Examples.answer KGrapheme "Q" 2 "#0000ff"]); reflexivity.
Defined.

(** C4 (as stated) fails. In the library the canonical colour of "Q" after
    red and then green is green, not red; and the map of the congruency
    screen has no colour for a weekday, although "Monday" has a coloured
    response. *)
Lemma canonical_map_not_always_first_colored :
  ¬ libraryMapIsFirstColored
      (Examples.libRun [Examples.libAnswer "Q" 0 Examples.red;
                        Examples.libAnswer "Q" 1 Examples.green] [])
  ∧ ¬ screenMapIsFirstColored
        (Examples.withResponses [Examples.answer KWeekday "Monday" 0 "#ff0000"]).
Proof.
  split.
  - intros Hclaim. specialize (Hclaim "Q"). vm_compute in Hclaim. discriminate Hclaim.
  - intros Hclaim. specialize (Hclaim "Monday"). vm_compute in Hclaim. discriminate Hclaim.
Qed.

(** The two maps on the example of the specification. *)
Example canonical_Q_library_keeps_last :
  JsMap.get (SynesthesiaBattery.lastColorByG
               (Examples.libRun [Examples.libAnswer "Q" 0 Examples.red;
                                 Examples.libAnswer "Q" 1 Examples.green] [])) "Q"
  = Some Examples.green.
Proof. reflexivity. Qed.

End Canonical.

(** ** The fixed-length congruency test (congruency.tsx) *)
Section FixedCongruency.
Import JsString BatteryTypes FixedSpec.

Lemma elem_of_uniqueInOrder {A} `{EqDecision A} (seen l : list A) x :
  x ∈ uniqueInOrder seen l ↔ x ∈ l ∧ x ∉ seen.
Proof.
  revert seen. induction l as [| y l IH]; intros seen; simpl.
  - split; [by intros ?%elem_of_nil | by intros [?%elem_of_nil _]].
  - destruct (decide (y ∈ seen)) as [Hy | Hy].
    + rewrite IH, elem_of_cons. split; [tauto |].
      intros [[-> | ?] ?]; tauto.
    + rewrite !elem_of_cons, IH. split.
      * intros [-> | [? Hx]]; [tauto |].
        apply not_elem_of_cons in Hx. tauto.
      * intros [[-> | ?] ?]; [tauto |].
        destruct (decide (x = y)); [tauto |]. right. split; [done |].
        apply not_elem_of_cons. tauto.
Qed.









Example fixed_congruency_first_trials :
  take 3 <$> Congruency.trials (Some (Examples.withResponses [Examples.noAnswer KGrapheme "A" 0]))
  = Some [ {| Congruency.stimulusText := "A"; Congruency.expectedMatch := true;
              Congruency.shownHex := "#ff0000" |};
           {| Congruency.stimulusText := "A"; Congruency.expectedMatch := false;
              Congruency.shownHex := "#ff0000" |};
           {| Congruency.stimulusText := "A"; Congruency.expectedMatch := true;
              Congruency.shownHex := "#0000ff" |} ].
Proof. reflexivity. Qed.

End FixedCongruency.

(** ** Random draws *)
Section RandomDraws.
Variable oracle : nat → Q.

Lemma returns_ret {A} (x : A) (P : A → Prop) : P x → returns oracle (rand_ret x) P.
Proof. intros Hx n. by exists x, n. Qed.

Lemma returns_bind {A B} (m : Rand A) (f : A → Rand B) (P : A → Prop) (R : B → Prop) :
  returns oracle m P → (∀ x, P x → returns oracle (f x) R) →
  returns oracle (rand_bind m f) R.
Proof.
  intros Hm Hf n. destruct (Hm n) as (x & n1 & Hx & HP).
  destruct (Hf x HP n1) as (y & n2 & Hy & HR).
  exists y, n2. unfold rand_bind. by rewrite Hx.
Qed.

Lemma returns_impl {A} (m : Rand A) (P R : A → Prop) :
  returns oracle m P → (∀ x, P x → R x) → returns oracle m R.
Proof. intros Hm HPR n. destruct (Hm n) as (x & n' & ? & ?). exists x, n'. auto. Qed.

Lemma returns_random :
  unitInterval oracle →
  returns oracle Math_random (fun u => (0 <= u)%Q ∧ (u < 1)%Q).
Proof. intros Ho n. exists (oracle n), (S n). split; [done | apply Ho]. Qed.

Lemma returns_random_any : returns oracle Math_random (fun _ => True).
Proof. intros n. by exists (oracle n), (S n). Qed.

Lemma returns_forEach {A B} (f : A → Rand (list B)) (l : list A) (P : B → Prop) :
  (∀ x, x ∈ l → returns oracle (f x) (Forall P)) →
  returns oracle (SynesthesiaBattery.forEach f l) (Forall P).
Proof.
  induction l as [| x l IH]; intros Hf; simpl.
  - by apply returns_ret.
  - eapply returns_bind; [apply Hf, list_elem_of_here |]. intros ys Hys.
    eapply returns_bind; [apply IH; intros; apply Hf; by apply list_elem_of_further |].
    intros zs Hzs. apply returns_ret. by apply Forall_app.
Qed.

(** [Math.floor(Math.random() * n)] is an index of an array of [n > 0]
    elements. *)
Lemma random_index_range u (len : Z) :
  (0 <= u)%Q → (u < 1)%Q → 0 < len → 0 ≤ Qfloor (u * inject_Z len) < len.
Proof.
  intros H0 H1 Hlen. split.
  - change 0 with (Qfloor (inject_Z 0)). apply Qfloor_resp_le.
    apply Qmult_le_0_compat; [done |]. change 0%Q with (inject_Z 0). rewrite <- Zle_Qle. lia.
  - rewrite Zlt_Qlt. eapply Qle_lt_trans; [apply Qfloor_le |].
    rewrite <- (Qmult_1_l (inject_Z len)) at 2.
    apply Qmult_lt_compat_r; [| done]. change 0%Q with (inject_Z 0). rewrite <- Zlt_Qlt. lia.
Qed.

End RandomDraws.

(** ** Swaps never invent an element *)
Section SwapKeeps.
Context {T : Type} (P : option T → Prop).
Hypothesis P_undefined : P None.

Lemma JsMap_get_Forall (m : list (Z * option T)) k v :
  Forall (fun kv => P kv.2) m → JsMap.get m k = Some v → P v.
Proof.
  induction m as [| [k0 v0] m IH]; simpl; [done |].
  intros [H0 Hm]%Forall_cons. destruct (decide (k = k0)); [by intros [= <-] | by apply IH].
Qed.

Lemma JsMap_set_Forall (m : list (Z * option T)) k v :
  Forall (fun kv => P kv.2) m → P v → Forall (fun kv => P kv.2) (JsMap.set m k v).
Proof.
  intros Hm Hv. induction m as [| [k0 v0] m IH]; simpl.
  - by repeat constructor.
  - apply Forall_cons in Hm as [H0 Hm].
    destruct (decide (k = k0)); constructor; auto.
Qed.

Lemma JsArray_get_all a j : arrayAll P a → P (JsArray.get a j).
Proof.
  intros [Hi Hp]. unfold JsArray.get. destruct (0 <=? j).
  - destruct (JsArray.items a !! Z.to_nat j) as [v |] eqn:Hv; simpl; [| done].
    by eapply Forall_lookup_1.
  - destruct (JsMap.get (JsArray.props a) j) as [v |] eqn:Hv; simpl; [| done].
    by eapply JsMap_get_Forall.
Qed.

Lemma JsArray_set_all a j v : arrayAll P a → P v → arrayAll P (JsArray.set a j v).
Proof.
  intros [Hi Hp] Hv. unfold JsArray.set.
  destruct (j <? 0); [| destruct (j <? JsArray.length a)]; split; simpl; try done.
  - by apply JsMap_set_Forall.
  - by apply Forall_insert.
  - apply Forall_app. split; [done |]. apply Forall_app. split.
    + by apply Forall_replicate.
    + by repeat constructor.
Qed.

Lemma JsArray_swap_all a i j : arrayAll P a → arrayAll P (JsArray.swap a i j).
Proof.
  intros Ha. unfold JsArray.swap.
  apply JsArray_set_all; [apply JsArray_set_all |]; auto using JsArray_get_all.
Qed.

End SwapKeeps.

(** ** Congruency trials of the library (SynesthesiaBattery.ts) *)
Section LibraryCongruency.
Import SynesthesiaBattery.
Context {num : Type}.
Variable randomSuffix : Q → string.
Variable oracle : nat → Q.

(** [shuffleInPlace] returns whatever the draws are, and every trial of
    its result is one of the trials it was given. *)
Lemma shuffleInPlaceLoop_keeps {T} (P : option T → Prop) i (a : JsArray.t T) :
  P None → arrayAll P a →
  returns oracle (shuffleInPlaceLoop i a) (arrayAll P).
Proof.
  intros HP. revert a. induction i as [| i IH]; intros a Ha; simpl.
  - by apply returns_ret.
  - eapply returns_bind; [apply returns_random_any |]. intros u _.
    apply IH. by apply JsArray_swap_all.
Qed.

Lemma shuffleInPlace_keeps {T} (arr : list T) :
  returns oracle (shuffleInPlace arr) (fun out => ∀ t, Some t ∈ out → t ∈ arr).
Proof.
  unfold shuffleInPlace.
  set (P := fun x : option T => match x with Some t => t ∈ arr | None => True end).
  eapply returns_bind.
  - apply (shuffleInPlaceLoop_keeps P); [done |]. split; [| by constructor].
    unfold JsArray.ofList. simpl. apply Forall_fmap, Forall_forall. by intros t Ht.
  - intros a [Ha _]. apply returns_ret. intros t Ht.
    by apply (proj1 (Forall_forall P _) Ha (Some t)).
Qed.

(** When every colour of the pool is the target, the twenty draws all hit
    it and the fallback returns it. *)
Lemma drawDifferent_same k all target :
  unitInterval oracle → all ≠ [] → Forall (fun c => c = target) all →
  returns oracle (drawDifferent k all target target) (fun c => c = target).
Proof.
  intros Ho Hne Hall. induction k as [| k IH]; cbn [drawDifferent].
  - by apply returns_ret.
  - eapply returns_bind; [by apply returns_random |]. intros u [Hu0 Hu1]. cbv zeta.
    destruct (random_index_range u (Z.of_nat (length all)) Hu0 Hu1) as [Hi0 Hi1].
    { destruct all; [done | simpl; lia]. }
    destruct (Z.ltb_spec (Qfloor (u * inject_Z (Z.of_nat (length all)))) 0); [lia |].
    destruct (lookup_lt_is_Some_2 all (Z.to_nat (Qfloor (u * inject_Z (Z.of_nat (length all))))))
      as [c Hc]; [lia |].
    rewrite Hc.
    assert (c = target) as -> by (by eapply (Forall_lookup_1 _ _ _ _ Hall)).
    rewrite !Z.eqb_refl. simpl. exact IH.
Qed.

Lemma pickDifferentColor_same all target :
  unitInterval oracle → Forall (fun c => c = target) all →
  returns oracle (pickDifferentColor all target) (fun c => c = target).
Proof.
  intros Ho Hall. unfold pickDifferentColor.
  destruct all as [| first [| second rest]]; [by apply returns_ret.. |].
  assert (first = target) as -> by (by apply Forall_cons in Hall as [? _]).
  by apply drawDifferent_same.
Qed.

Lemma pickDifferentColor_short all target n :
  (length all ≤ 1)%nat → pickDifferentColor all target oracle n = Some (target, n).
Proof. destruct all as [| ? [| ? ?]]; simpl; (done || lia). Qed.

Lemma trialPair_same colors g target i :
  unitInterval oracle → Forall (fun c => c = target) colors →
  returns oracle (trialPair randomSuffix colors g target i)
    (Forall (fun t => ct_grapheme t = g ∧ ct_shownRgb t = target)).
Proof.
  intros Ho Hall. unfold trialPair.
  eapply returns_bind; [apply returns_random_any |]. intros u1 _.
  eapply returns_bind; [by apply pickDifferentColor_same |]. intros other ->.
  eapply returns_bind; [apply returns_random_any |]. intros u2 _.
  apply returns_ret. by repeat constructor.
Qed.

Lemma JsMap_entry_get {V} (m : list (string * V)) g v :
  (g, v) ∈ m → ∃ v', JsMap.get m g = Some v' ∧ v' ∈ JsMap.values m.
Proof.
  induction m as [| [g0 v0] m IH]; [by intros ?%elem_of_nil |].
  intros Hin. simpl. destruct (decide (g = g0)) as [-> | Hne].
  - exists v0. split; [done |]. unfold JsMap.values. simpl. apply list_elem_of_here.
  - apply elem_of_cons in Hin as [[= -> ->] | Hin]; [done |].
    destruct (IH Hin) as (v' & ? & ?). exists v'. split; [done |].
    unfold JsMap.values in *. simpl. by apply list_elem_of_further.
Qed.

Lemma unshuffledCongruencyTrials_same (run : @BatteryRun num) perGrapheme :
  unitInterval oracle →
  (∀ c1 c2, c1 ∈ JsMap.values (lastColorByG run) → c2 ∈ JsMap.values (lastColorByG run) → c1 = c2) →
  returns oracle (unshuffledCongruencyTrials randomSuffix run perGrapheme)
    (Forall (fun t => JsMap.get (lastColorByG run) (ct_grapheme t) = Some (ct_shownRgb t))).
Proof.
  intros Ho Hone. unfold unshuffledCongruencyTrials.
  apply returns_forEach. intros [g0 target] Hentry.
  destruct (JsMap_entry_get _ _ _ Hentry) as (v' & Hget & Hv').
  assert (target ∈ JsMap.values (lastColorByG run)) as Htarget.
  { unfold JsMap.values. apply list_elem_of_fmap. by exists (g0, target). }
  eapply returns_impl.
  - apply returns_forEach. intros i _. apply trialPair_same; [done |].
    apply Forall_forall. intros c Hc. by apply Hone.
  - intros ts Hts. eapply Forall_impl; [exact Hts |].
    intros t [-> ->]. rewrite Hget. f_equal. by apply Hone.
Qed.

End LibraryCongruency.

(** ** More on insertion-ordered maps *)
Section JsMapKeys.
Context {K V : Type} `{EqDecision K}.

Lemma JsMap_get_None (m : list (K * V)) k : JsMap.get m k = None ↔ k ∉ JsMap.keys m.
Proof.
  unfold JsMap.keys. induction m as [| [k0 v0] m IH]; simpl.
  - split; [intros _; apply not_elem_of_nil | done].
  - rewrite not_elem_of_cons. destruct (decide (k = k0)); [| tauto].
    split; [done | tauto].
Qed.

Lemma JsMap_set_absent (m : list (K * V)) k v :
  JsMap.get m k = None → JsMap.set m k v = m ++ [(k, v)].
Proof.
  induction m as [| [k0 v0] m IH]; simpl; [done |].
  destruct (decide (k = k0)); [done |]. intros Hm. by rewrite IH.
Qed.

Lemma JsMap_set_keys_present (m : list (K * V)) k v :
  is_Some (JsMap.get m k) → JsMap.keys (JsMap.set m k v) = JsMap.keys m.
Proof.
  unfold JsMap.keys. induction m as [| [k0 v0] m IH]; simpl; [by intros [] |].
  destruct (decide (k = k0)) as [-> | ?]; [done |]. intros Hm.
  rewrite !fmap_cons. by rewrite IH.
Qed.

(** In a map every key has one entry, found by [get]. *)
Lemma JsMap_elem_of_get (m : list (K * V)) k v :
  NoDup (JsMap.keys m) → (k, v) ∈ m → JsMap.get m k = Some v.
Proof.
  unfold JsMap.keys. induction m as [| [k0 v0] m IH]; simpl; [by intros _ ?%elem_of_nil |].
  intros [Hk0 Hm]%NoDup_cons [[= -> ->] | Hin]%elem_of_cons.
  - by rewrite decide_True.
  - rewrite decide_False; [by apply IH |].
    intros ->. apply Hk0. apply list_elem_of_fmap. by exists (k0, v).
Qed.

Lemma JsMap_set_NoDup (m : list (K * V)) k v :
  NoDup (JsMap.keys m) → NoDup (JsMap.keys (JsMap.set m k v)).
Proof.
  intros Hm. destruct (JsMap.get m k) as [v0 |] eqn:Hget.
  - by rewrite JsMap_set_keys_present.
  - rewrite JsMap_set_absent by done. unfold JsMap.keys in *. rewrite fmap_app. simpl.
    apply NoDup_app. split_and!; [done | | apply NoDup_singleton].
    intros k' Hk' ->%list_elem_of_singleton. by apply JsMap_get_None in Hget.
Qed.

End JsMapKeys.

(** ** Sorting keeps the rows *)
Section Sorting.
Context {A : Type} (cmp : A → A → Z).

Lemma insertBy_Permutation x (l : list A) : insertBy cmp x l ≡ₚ x :: l.
Proof.
  induction l as [| y l IH]; simpl; [done |].
  destruct (cmp x y <? 0); [done |]. rewrite IH. apply perm_swap.
Qed.

Lemma sortBy_Permutation (l : list A) : sortBy cmp l ≡ₚ l.
Proof.
  unfold sortBy.
  assert (∀ acc, fold_left (fun acc x => insertBy cmp x acc) l acc ≡ₚ l ++ acc) as Hacc.
  { induction l as [| x l IH]; intros acc; simpl; [done |].
    rewrite IH, insertBy_Permutation. by rewrite Permutation_middle. }
  by rewrite Hacc, app_nil_r.
Qed.

End Sorting.

(** ** The scorer (SynesthesiaBattery.ts) *)
Section Scorer.
Import SynesthesiaBattery ScoreSpec.
Context {num : Type} `{JsNumber num} `{JsMath num}.
Implicit Types (r : @PickerResponse num) (rs : list (@PickerResponse num)).

(** *** Grouping by stimulus *)

Lemma JsMap_get_elem_of {K V} `{EqDecision K} (m : list (K * V)) k v :
  JsMap.get m k = Some v → (k, v) ∈ m.
Proof.
  induction m as [| [k0 v0] m IH]; simpl; [done |].
  destruct (decide (k = k0)) as [-> | ?].
  - intros [= ->]. apply list_elem_of_here.
  - intros Hm. apply list_elem_of_further. auto.
Qed.

Lemma groupStep_get (m : list (string * list (@PickerResponse num))) r k :
  JsMap.get (groupStep m r) k
  = if decide (k = grapheme r) then Some (default [] (JsMap.get m k) ++ [r])
    else JsMap.get m k.
Proof.
  unfold groupStep. rewrite JsMap_get_set.
  destruct (decide (k = grapheme r)) as [-> | Hk].
  - f_equal. f_equal. unfold JsMap.has.
    destruct (JsMap.get m (grapheme r)) eqn:Hg; simpl; [by rewrite Hg |].
    by rewrite JsMap_get_set, decide_True.
  - destruct (JsMap.has m (grapheme r)); simpl; [done |].
    by rewrite JsMap_get_set, decide_False.
Qed.

Lemma groupStep_NoDup (m : list (string * list (@PickerResponse num))) r :
  NoDup (JsMap.keys m) → NoDup (JsMap.keys (groupStep m r)).
Proof.
  intros Hm. unfold groupStep. apply JsMap_set_NoDup.
  destruct (JsMap.has m (grapheme r)); simpl; [done |]. by apply JsMap_set_NoDup.
Qed.

(** The map [byG] after the grouping loop: a stimulus has an entry when it
    has a response, and the entry holds its responses in order. *)
Lemma fold_groupStep rs :
  NoDup (JsMap.keys (fold_left groupStep rs []))
  ∧ ∀ g, JsMap.get (fold_left groupStep rs []) g
         = match filter (fun r => grapheme r = g) rs with
           | [] => None
           | grp => Some grp
           end.
Proof.
  induction rs as [| r rs [IHn IHg]] using rev_ind.
  - split; [apply NoDup_nil_2 | done].
  - rewrite fold_left_app. simpl. split; [by apply groupStep_NoDup |].
    intros g0. rewrite groupStep_get, IHg, filter_app, filter_cons, filter_nil.
    destruct (decide (g0 = grapheme r)) as [-> | Hne].
    + rewrite decide_True by done.
      destruct (filter _ rs) as [| r0 grp]; simpl; done.
    + rewrite decide_False by done. by rewrite app_nil_r.
Qed.

Lemma byG_entries rs g grp :
  (g, grp) ∈ fold_left groupStep rs [] → grp = filter (fun r => grapheme r = g) rs.
Proof.
  destruct (fold_groupStep rs) as [Hn Hg]. intros Hin.
  apply JsMap_elem_of_get in Hin; [| done]. rewrite Hg in Hin.
  by destruct (filter _ rs); simplify_eq.
Qed.

Lemma byG_keys rs g :
  g ∈ JsMap.keys (fold_left groupStep rs []) ↔ g ∈ grapheme <$> rs.
Proof.
  destruct (fold_groupStep rs) as [Hn Hg]. split.
  - intros Hin. destruct (JsMap.get (fold_left groupStep rs []) g) as [grp |] eqn:Hget.
    + rewrite Hg in Hget. destruct (filter _ rs) as [| r0 grp0] eqn:Hf; [done |].
      assert (r0 ∈ filter (fun r => grapheme r = g) rs) as Hr0 by (rewrite Hf; apply list_elem_of_here).
      apply list_elem_of_filter in Hr0 as [<- Hr0]. apply list_elem_of_fmap. by exists r0.
    + by apply JsMap_get_None in Hget.
  - intros (r & -> & Hr)%list_elem_of_fmap.
    destruct (JsMap.get (fold_left groupStep rs []) (grapheme r)) as [grp |] eqn:Hget.
    + apply JsMap_get_elem_of in Hget. unfold JsMap.keys. apply list_elem_of_fmap.
      by exists (grapheme r, grp).
    + rewrite Hg in Hget.
      assert (r ∈ filter (fun r0 => grapheme r0 = grapheme r) rs) as Hin
          by (by apply list_elem_of_filter).
      destruct (filter _ rs); [by apply elem_of_nil in Hin | done].
Qed.

(** *** The repeat slots *)

Lemma fillSlot_length repeats slots r : length (fillSlot repeats slots r) = length slots.
Proof.
  unfold fillSlot. destruct (rgb r); [| done]. destruct (isNoColor r); [done |].
  destruct (_ && _); [apply length_insert | done].
Qed.

Lemma buildSlots_length repeats rs : length (buildSlots repeats rs) = Z.to_nat repeats.
Proof.
  unfold buildSlots.
  assert (∀ slots, length (fold_left (fillSlot repeats) rs slots) = length slots) as Hlen.
  { induction rs as [| r rs IH]; intros slots; simpl; [done |].
    by rewrite IH, fillSlot_length. }
  by rewrite Hlen, length_replicate.
Qed.

(** One round of the loop, seen from slot [i]. *)
Lemma fillSlot_lookup repeats slots r g i :
  length slots = Z.to_nat repeats → (i < length slots)%nat → grapheme r = g →
  fillSlot repeats slots r !! i
  = if decide (fills g i r) then Some (rgb r) else slots !! i.
Proof.
  intros Hlen Hi Hg. unfold fillSlot, fills.
  destruct (rgb r) as [c |] eqn:Hrgb.
  - destruct (isNoColor r) eqn:Hnc.
    { rewrite decide_False; [done |]. by intros (_ & ? & _). }
    destruct (Z.leb_spec 0 (repeatIndex r)); simpl.
    + destruct (Z.ltb_spec (repeatIndex r) repeats); simpl.
      * destruct (decide (Z.to_nat (repeatIndex r) = i)) as [<- | Hne].
        -- rewrite list_lookup_insert_eq by lia.
           rewrite decide_True; [done |]. split_and!; [done | done | by eexists | lia].
        -- rewrite list_lookup_insert_ne by done.
           rewrite decide_False; [done |]. intros (_ & _ & _ & ?). lia.
      * rewrite decide_False; [done |]. intros (_ & _ & _ & ?). lia.
    + rewrite decide_False; [done |]. intros (_ & _ & _ & ?). lia.
  - rewrite decide_False; [done |]. intros (_ & _ & [? ?] & _). congruence.
Qed.

(** The slots of a stimulus, built from its own responses, are the slots
    the specification describes. *)
Lemma buildSlots_group repeats rs g :
  buildSlots repeats (filter (fun r => grapheme r = g) rs) = slotsOf rs g repeats.
Proof.
  apply list_eq. intros i. unfold slotsOf.
  rewrite list_lookup_fmap.
  destruct (decide (i < Z.to_nat repeats)%nat) as [Hi | Hi].
  - rewrite lookup_seq_lt by done. simpl. unfold buildSlots, slotOf.
    induction rs as [| r rs IH] using rev_ind.
    + simpl. by rewrite lookup_replicate_2.
    + rewrite !filter_app, !filter_cons, !filter_nil.
      destruct (decide (grapheme r = g)) as [Hg | Hg].
      * rewrite fold_left_app. simpl.
        rewrite (fillSlot_lookup repeats _ r g i); [| | | done].
        -- destruct (decide (fills g i r)) as [Hf | Hf].
           ++ by rewrite last_snoc.
           ++ by rewrite app_nil_r.
        -- apply buildSlots_length.
        -- pose proof (buildSlots_length repeats (filter (fun r0 => grapheme r0 = g) rs)) as Hl.
           unfold buildSlots in Hl. lia.
      * rewrite app_nil_r, IH. rewrite decide_False; [by rewrite app_nil_r |].
        by intros (? & _).
  - rewrite lookup_seq_ge by lia. simpl. apply lookup_ge_None.
    rewrite buildSlots_length. lia.
Qed.

(** *** The pairwise distances *)

Lemma bind_seq_lookup {A B} (f : A → B) (l : list A) :
  (j ← seq 0 (length l); match l !! j with Some x => [f x] | None => [] end) = f <$> l.
Proof.
  induction l as [| x l IH]; [done |].
  cbn [length]. rewrite <- cons_seq, bind_cons, <- fmap_S_seq, list_fmap_bind.
  simpl. f_equal. exact IH.
Qed.

Lemma pairwiseDeltas_pairs (colors : list Rgb) :
  pairwiseDeltas colors = (fun p => distance p.1 p.2) <$> pairs colors.
Proof.
  unfold pairwiseDeltas. induction colors as [| c colors IH]; [done |].
  cbn [length pairs]. rewrite fmap_app, <- list_fmap_compose, <- IH.
  rewrite <- cons_seq, bind_cons. f_equal.
  - rewrite Nat.sub_succ, Nat.sub_0_r, <- fmap_S_seq, list_fmap_bind.
    exact (bind_seq_lookup (fun cj => distance c cj) colors).
  - rewrite <- fmap_S_seq, list_fmap_bind. apply list_bind_ext; [| done].
    intros i. simpl. rewrite <- fmap_S_seq, list_fmap_bind. done.
Qed.

(** *** The rows *)

Lemma mean_if (xs : list num) :
  (if (length xs =? 0)%nat then num_ofZ 0
   else num_div (sum xs) (num_ofZ (Z.of_nat (length xs)))) = mean xs.
Proof. by destruct xs. Qed.

(** The body of the loop over [byG], on the entry of the stimulus [g]. *)
Lemma scoreRow_group repeats rs g :
  scoreRow repeats (g, filter (fun r => grapheme r = g) rs)
  = {| row_grapheme := g;
       row_repeats := slotsOf rs g repeats;
       meanDeltaE := meanPairwiseDistance (slotsOf rs g repeats) |}.
Proof.
  unfold scoreRow. rewrite buildSlots_group, pairwiseDeltas_pairs, mean_if. done.
Qed.

Variable localeCompare : string → string → Z.

Lemma pickerRows_Permutation (run : @BatteryRun num) repeats :
  pickerRows (scoreBattery localeCompare run repeats)
  ≡ₚ scoreRow repeats <$> fold_left groupStep (pickerResponses run) [].
Proof. unfold scoreBattery. simpl. apply sortBy_Permutation. Qed.

Lemma pickerRows_graphemes (run : @BatteryRun num) repeats :
  row_grapheme <$> pickerRows (scoreBattery localeCompare run repeats)
  ≡ₚ JsMap.keys (fold_left groupStep (pickerResponses run) []).
Proof.
  rewrite pickerRows_Permutation, <- list_fmap_compose. unfold JsMap.keys.
  apply eq_Permutation, list_fmap_ext. by intros _ [g0 grp] _.
Qed.

Lemma slotOf_unique rs g i r :
  (∀ r', r' ∈ rs → grapheme r' = g → repeatIndex r' = Z.of_nat i → r' = r) →
  r ∈ rs → grapheme r = g → repeatIndex r = Z.of_nat i →
  slotOf rs g i = if isNoColor r then None else rgb r.
Proof.
  intros Honly Hr Hg Hi. unfold slotOf.
  destruct (last (filter (fills g i) rs)) as [r' |] eqn:Hlast; simpl.
  - apply last_Some_elem_of, list_elem_of_filter in Hlast as [(Hg' & Hnc & _ & Hi') Hr'].
    rewrite (Honly r' Hr' Hg' Hi') in *. by rewrite Hnc.
  - apply last_None in Hlast.
    destruct (isNoColor r) eqn:Hnc; [done |].
    destruct (rgb r) as [c |] eqn:Hrgb; [| done].
    assert (r ∈ filter (fills g i) rs) as Hin.
    { apply list_elem_of_filter. split; [| done]. split_and!; (done || by eexists). }
    rewrite Hlast in Hin. by apply elem_of_nil in Hin.
Qed.

Lemma slotOf_missing rs g i :
  (∀ r, r ∈ rs → grapheme r = g → repeatIndex r ≠ Z.of_nat i) → slotOf rs g i = None.
Proof.
  intros Hnone. unfold slotOf.
  destruct (last (filter (fills g i) rs)) as [r' |] eqn:Hlast; [| done].
  apply last_Some_elem_of, list_elem_of_filter in Hlast as [(Hg' & _ & _ & Hi') Hr'].
  by destruct (Hnone r' Hr' Hg').
Qed.

Lemma slotsOf_inRange rs g repeats :
  slotsOf (filter (inRange repeats) rs) g repeats = slotsOf rs g repeats.
Proof.
  unfold slotsOf. apply list_fmap_ext. intros k i Hi%lookup_seq.
  unfold slotOf. f_equal. f_equal. rewrite list_filter_filter.
  apply list_filter_iff. intros r. split; [tauto |].
  intros Hf. split; [done |]. destruct Hf as (_ & _ & _ & Hri). unfold inRange. lia.
Qed.

Lemma meanPairwiseDistance_few (slots : list (option Rgb)) :
  (length (omap id slots) ≤ 1)%nat → meanPairwiseDistance slots = num_ofZ 0.
Proof.
  unfold meanPairwiseDistance. destruct (omap id slots) as [| c [| c' l]]; simpl; (done || lia).
Qed.

(** C1. For every run and every [repeats], each row of [scoreBattery]
    belongs to one stimulus that has a response, and every such stimulus
    has one row. (1) The row's repeat array has slot [i] hold the colour of
    the response of that stimulus with [repeatIndex === i], and its
    [meanDeltaE] is the arithmetic mean of the ΔE76 distances of all pairs
    of non-null slots, (3) which is 0 when at most one slot is non-null.
    (4) Responses whose [repeatIndex] is below 0 or not below [repeats]
    change no slot. (5) Where a slot has a single response, the slot holds
    its [rgb], or [null] if it is a no-color response; (6) with no
    response it is [null]. *)
Theorem scoreBattery_meanDeltaE (run : @BatteryRun num) (repeats : Z) :
  let rows := pickerRows (scoreBattery localeCompare run repeats) in
  let responses := pickerResponses run in
  Forall (fun row =>
            row_repeats row = slotsOf responses (row_grapheme row) repeats
            ∧ meanDeltaE row = meanPairwiseDistance (row_repeats row)) rows
  ∧ (NoDup (row_grapheme <$> rows)
     ∧ ∀ g, g ∈ row_grapheme <$> rows ↔ g ∈ grapheme <$> responses)
  ∧ (∀ slots, (length (omap id slots) ≤ 1)%nat → meanPairwiseDistance slots = num_ofZ 0)
  ∧ (∀ g, slotsOf (filter (inRange repeats) responses) g repeats = slotsOf responses g repeats)
  ∧ (∀ g i r,
       (∀ r', r' ∈ responses → grapheme r' = g → repeatIndex r' = Z.of_nat i → r' = r) →
       r ∈ responses → grapheme r = g → repeatIndex r = Z.of_nat i →
       slotOf responses g i = if isNoColor r then None else rgb r)
  ∧ (∀ g i,
       (∀ r, r ∈ responses → grapheme r = g → repeatIndex r ≠ Z.of_nat i) →
       slotOf responses g i = None).
Proof.
  intros rows responses. split_and!.
  - subst rows. rewrite pickerRows_Permutation.
    apply Forall_fmap, Forall_forall. intros [g0 grp] Hentry.
    apply byG_entries in Hentry as ->. unfold compose. by rewrite scoreRow_group.
  - subst rows. rewrite pickerRows_graphemes. apply fold_groupStep.
  - intros g0. subst rows. rewrite pickerRows_graphemes. apply byG_keys.
  - apply meanPairwiseDistance_few.
  - intros g0. apply slotsOf_inRange.
  - apply slotOf_unique.
  - apply slotOf_missing.
Qed.

End Scorer.

(** Scenario A of the specification: "A" answered red, red and "no color"
    with three repeats. *)
Example scoreBattery_scenario_A :
  SynesthesiaBattery.row_repeats
    <$> SynesthesiaBattery.pickerRows
          (SynesthesiaBattery.scoreBattery (H0 := Examples.mathStandIn) Examples.compareCodeUnits
             (Examples.libRun [Examples.libAnswer "A" 0 Examples.red;
                               Examples.libAnswer "A" 1 Examples.red;
                               Examples.libNoAnswer "A" 2] []) 3)
  = [[Some Examples.red; Some Examples.red; None]].
Proof. reflexivity. Qed.

(** In Scenario A the first slot of "A" holds red: its only response with
    repeat index 0 is the red one. *)
Lemma scoreBattery_meanDeltaE_witness :
  ScoreSpec.slotOf [Examples.libAnswer "A" 0 Examples.red;
                    Examples.libAnswer "A" 1 Examples.red;
                    Examples.libNoAnswer "A" 2] "A" 0
  = Some Examples.red.
Proof.
  apply (proj1 (proj2 (proj2 (proj2 (proj2 (scoreBattery_meanDeltaE (H0 := Examples.mathStandIn)
           Examples.compareCodeUnits
           (Examples.libRun [Examples.libAnswer "A" 0 Examples.red;
                             Examples.libAnswer "A" 1 Examples.red;
                             Examples.libNoAnswer "A" 2] []) 3)))))
           "A" 0%nat (Examples.libAnswer "A" 0 Examples.red)).
  - intros r' Hr' _ Hri. simpl in Hr'.
    repeat (apply elem_of_cons in Hr' as [-> | Hr']); try done.
    by apply elem_of_nil in Hr'.
  - apply list_elem_of_here.
  - reflexivity.
  - reflexivity.
Defined.

(** ** Accuracy and reaction time *)
Section CongruencyScore.
Import SynesthesiaBattery ScoreSpec.

Lemma fold_left_fmap_num {A B} (f : B → B → B) (h : A → B) (l : list A) (b : B) :
  fold_left (fun a c => f a (h c)) l b = fold_left f (h <$> l) b.
Proof. revert b. induction l as [| x l IH]; intros b; simpl; [done | apply IH]. Qed.

(** What the two congruency statistics are, in any arithmetic. *)
Lemma scoreBattery_congruency_generic {num} `{JsNumber num} `{JsMath num}
    (cmp : string → string → Z) (run : @BatteryRun num) (repeats : Z) :
  let congr := congruencyResponses run in
  let results := scoreBattery cmp run repeats in
  congruencyAccuracyPct results
  = match congr with
    | [] => num_ofZ 0
    | _ => num_mul (num_div (num_ofZ (correctCount congr)) (num_ofZ (Z.of_nat (length congr))))
                   (num_ofZ 100)
    end
  ∧ congruencyMeanRtSec results
    = match congr with
      | [] => num_ofZ 0
      | _ => num_div (num_div (fold_left num_add (cr_rtMs <$> congr) (num_ofZ 0))
                              (num_ofZ (Z.of_nat (length congr))))
                     (num_ofZ 1000)
      end.
Proof.
  intros congr results. subst results. unfold scoreBattery. cbn [congruencyAccuracyPct congruencyMeanRtSec].
  fold congr. rewrite fold_left_fmap_num. unfold correctCount.
  by destruct congr.
Qed.

(** Exact arithmetic: the running sum of the code is the sum. *)
Lemma fold_left_Qred_sum (xs : list Q) (a : Q) :
  (fold_left (fun x y => Qred (x + y)) xs a == a + Qsum xs)%Q.
Proof.
  unfold Qsum. revert a. induction xs as [| x xs IH]; intros a; cbn [fold_left foldr].
  - ring.
  - rewrite IH, Qred_correct. ring.
Qed.

Lemma Qsum_scale {A} (h : A → Q) (l : list A) (k : Q) :
  (Qsum ((fun c => h c / k) <$> l) == Qsum (h <$> l) / k)%Q.
Proof.
  unfold Qsum. induction l as [| x l IH]; cbn [fmap list_fmap foldr].
  - unfold Qdiv. ring.
  - fold (fmap (M := list) (fun c => h c / k)%Q l). fold (fmap (M := list) h l).
    rewrite IH. unfold Qdiv. ring.
Qed.

Lemma inject_length_nonzero {A} (l : list A) :
  l ≠ [] → ¬ (inject_Z (Z.of_nat (length l)) == 0)%Q.
Proof. destruct l; [done |]. intros _. unfold Qeq. simpl. lia. Qed.

(** C5. For every run, [scoreBattery] computes [congruencyAccuracyPct] as
    the number of responses marked correct, divided by the number of
    congruency responses, times 100, and [congruencyMeanRtSec] as the sum of
    the reaction times divided by their number and by 1000; both are 0
    when there is no response. (2) In exact arithmetic these are
    [100 × correct / total] and the mean of [reactionTimeMs / 1000].
    (3) In binary64 arithmetic, and in exact arithmetic, 10 responses with 7
    correct give exactly 70. *)
Theorem scoreBattery_congruency :
  (∀ num (N : JsNumber num) (M : JsMath num) cmp (run : @BatteryRun num) repeats,
     let congr := congruencyResponses run in
     let results := scoreBattery cmp run repeats in
     congruencyAccuracyPct results
     = match congr with
       | [] => num_ofZ 0
       | _ => num_mul (num_div (num_ofZ (correctCount congr)) (num_ofZ (Z.of_nat (length congr))))
                      (num_ofZ 100)
       end
     ∧ congruencyMeanRtSec results
       = match congr with
         | [] => num_ofZ 0
         | _ => num_div (num_div (fold_left num_add (cr_rtMs <$> congr) (num_ofZ 0))
                                 (num_ofZ (Z.of_nat (length congr))))
                        (num_ofZ 1000)
         end)
  ∧ (∀ (M : JsMath Q) cmp (run : @BatteryRun Q) repeats,
       let congr := congruencyResponses run in
       let results := scoreBattery cmp run repeats in
       congr ≠ [] →
       (congruencyAccuracyPct results
        == 100 * inject_Z (correctCount congr) / inject_Z (Z.of_nat (length congr)))%Q
       ∧ (congruencyMeanRtSec results
          == Qsum ((fun c => cr_rtMs c / 1000) <$> congr) / inject_Z (Z.of_nat (length congr)))%Q)
  ∧ (∀ (M : JsMath float) cmp (run : @BatteryRun float) repeats,
       length (congruencyResponses run) = 10%nat →
       correctCount (congruencyResponses run) = 7 →
       congruencyAccuracyPct (scoreBattery cmp run repeats) = 70%float)
  ∧ (∀ (M : JsMath Q) cmp (run : @BatteryRun Q) repeats,
       length (congruencyResponses run) = 10%nat →
       correctCount (congruencyResponses run) = 7 →
       congruencyAccuracyPct (scoreBattery cmp run repeats) = 70%Q).
Proof.
  split_and!.
  - intros. apply scoreBattery_congruency_generic.
  - intros M cmp run repeats congr results Hne. subst results.
    destruct (scoreBattery_congruency_generic cmp run repeats) as [-> ->]. fold congr.
    pose proof (inject_length_nonzero congr Hne) as Hn.
    destruct congr as [| c0 congr0] eqn:Hcongr; [done |]. rewrite <- Hcongr in *.
    cbn [num_mul num_div num_ofZ num_add QNumber]. split.
    + rewrite !Qred_correct. field. exact Hn.
    + rewrite !Qred_correct, fold_left_Qred_sum, Qsum_scale.
      change (inject_Z 1000) with 1000%Q. field. exact Hn.
  - intros M cmp run repeats Hlen Hcount.
    destruct (scoreBattery_congruency_generic cmp run repeats) as [-> _].
    rewrite Hlen, Hcount. destruct (congruencyResponses run); [done |].
    vm_compute. reflexivity.
  - intros M cmp run repeats Hlen Hcount.
    destruct (scoreBattery_congruency_generic cmp run repeats) as [-> _].
    rewrite Hlen, Hcount. destruct (congruencyResponses run); [done |].
    vm_compute. reflexivity.
Qed.

(** Scenario C in binary64 arithmetic: ten responses, seven of them
    correct, score exactly 70. *)
Lemma scoreBattery_congruency_witness :
  congruencyAccuracyPct
    (scoreBattery (H0 := Examples.floatMathStandIn) Examples.compareCodeUnits
       (Examples.libRun []
          (replicate 7 (Examples.libCongruency true 500%float)
           ++ replicate 3 (Examples.libCongruency false 1500%float))) 3)
  = 70%float.
Proof.
  apply (proj1 (proj2 (proj2 scoreBattery_congruency)) Examples.floatMathStandIn); reflexivity.
Defined.

(** Scenario D in binary64 arithmetic: reaction times of 500 and 1500 ms
    have a mean of exactly one second. *)
Example scoreBattery_scenario_D :
  congruencyMeanRtSec
    (scoreBattery (H0 := Examples.floatMathStandIn) Examples.compareCodeUnits
       (Examples.libRun [] [Examples.libCongruency true 500%float;
                            Examples.libCongruency false 1500%float]) 3)
  = 1%float.
Proof. vm_compute. reflexivity. Qed.

(** The order of the operations shows in binary64 arithmetic: one correct
    response of three scores [(1 / 3) * 100], which is one unit in the last
    place below [100 * 1 / 3]. *)
Example scoreBattery_one_of_three :
  congruencyAccuracyPct
    (scoreBattery (H0 := Examples.floatMathStandIn) Examples.compareCodeUnits
       (Examples.libRun [] [Examples.libCongruency true 500%float;
                            Examples.libCongruency false 500%float;
                            Examples.libCongruency false 500%float]) 3)
  = 0x1.0aaaaaaaaaaaap+5%float
  ∧ PrimFloat.div (PrimFloat.mul 100 1) 3 = 0x1.0aaaaaaaaaaabp+5%float.
Proof. split; vm_compute; reflexivity. Qed.

End CongruencyScore.

(** ** Division of zero in binary64 *)
Section BinaryZero.

Lemma shr_1_half mrs : 0 ≤ shr_m mrs → shr_m (shr_1 mrs) = shr_m mrs / 2.
Proof.
  destruct mrs as [m r s]. simpl. intros Hm.
  destruct m as [| [p | p |] | p]; cbn [shr_m]; try done; try lia.
  - apply Z.div_unique with 1; lia.
  - apply Z.div_unique with 0; lia.
Qed.

Lemma iter_shr_1 k : ∀ mrs,
  0 ≤ shr_m mrs → shr_m (SpecFloat.iter_pos shr_1 k mrs) = shr_m mrs / 2 ^ Z.pos k.
Proof.
  assert (∀ x j, 0 ≤ x → 0 ≤ x / 2 ^ Z.pos j) as Hdiv by (intros; apply Z.div_pos; lia).
  induction k as [k IH | k IH |]; intros mrs Hm; cbn [SpecFloat.iter_pos].
  - assert (0 ≤ shr_m (shr_1 mrs)) as H1 by (rewrite shr_1_half by done; apply Z.div_pos; lia).
    assert (0 ≤ shr_m (SpecFloat.iter_pos shr_1 k (shr_1 mrs))) as H2 by (rewrite IH by done; auto).
    rewrite IH, IH, shr_1_half by done.
    rewrite !Z.div_div by lia. f_equal.
    replace (Z.pos k~1) with (1 + Z.pos k + Z.pos k) by lia.
    rewrite !Z.pow_add_r by lia. lia.
  - assert (0 ≤ shr_m (SpecFloat.iter_pos shr_1 k mrs)) as H2 by (rewrite IH by done; auto).
    rewrite IH, IH by done.
    rewrite !Z.div_div by lia. f_equal.
    replace (Z.pos k~0) with (Z.pos k + Z.pos k) by lia.
    rewrite !Z.pow_add_r by lia. lia.
  - by apply shr_1_half.
Qed.

Lemma digits2_pos_le p : 2 ^ (Z.pos (digits2_pos p) - 1) ≤ Z.pos p.
Proof.
  induction p as [p IH | p IH |]; simpl digits2_pos; [| | done].
  - rewrite Pos2Z.inj_succ.
    replace (Z.succ (Z.pos (digits2_pos p)) - 1) with (1 + (Z.pos (digits2_pos p) - 1)) by lia.
    rewrite Z.pow_add_r by lia. change (2 ^ 1) with 2. lia.
  - rewrite Pos2Z.inj_succ.
    replace (Z.succ (Z.pos (digits2_pos p)) - 1) with (1 + (Z.pos (digits2_pos p) - 1)) by lia.
    rewrite Z.pow_add_r by lia. change (2 ^ 1) with 2. lia.
Qed.

(** The shift that brings a positive mantissa to 53 bits leaves it
    positive. *)
Lemma shr_fexp_pos p e l :
  -1000 ≤ e →
  0 < shr_m (shr_fexp prec emax (Z.pos p) e l).1 ∧ e ≤ (shr_fexp prec emax (Z.pos p) e l).2.
Proof.
  intros He. unfold shr_fexp, shr, fexp, emin, prec, emax, Zdigits2.
  assert (shr_m (shr_record_of_loc (Z.pos p) l) = Z.pos p) as Hm by (by destruct l as [| []]).
  pose proof (digits2_pos_le p) as Hd.
  replace (Z.max (Z.pos (digits2_pos p) + e - 53) (3 - 1024 - 53) - e)
    with (Z.pos (digits2_pos p) - 53) by lia.
  destruct (Z.pos (digits2_pos p) - 53) as [| k | k] eqn:Hk; simpl; rewrite ?Hm; try lia.
  rewrite iter_shr_1, Hm by lia. split; [| lia].
  apply Z.div_str_pos. split; [lia |].
  etrans; [| exact Hd]. apply Z.pow_le_mono_r; lia.
Qed.

Lemma round_nearest_even_pos m l : 0 < m → 0 < round_nearest_even m l.
Proof. intros Hm. destruct l as [| []]; simpl; try lia. destruct (Z.even m); lia. Qed.

Lemma binary_round_aux_pos p e l :
  -1000 ≤ e →
  match binary_round_aux prec emax false (Z.pos p) e l with
  | S754_finite false _ _ | S754_infinity false => True
  | _ => False
  end.
Proof.
  intros He. unfold binary_round_aux.
  destruct (shr_fexp_pos p e l He) as [H1 H2].
  destruct (shr_fexp prec emax (Z.pos p) e l) as [mrs' e']. simpl in H1, H2.
  pose proof (round_nearest_even_pos _ (loc_of_shr_record mrs') H1) as Hr.
  destruct (round_nearest_even (shr_m mrs') (loc_of_shr_record mrs')) as [| q | q]; try lia.
  destruct (shr_fexp_pos q e' loc_Exact ltac:(lia)) as [H3 _].
  destruct (shr_fexp prec emax (Z.pos q) e' loc_Exact) as [mrs'' e'']. simpl in H3.
  destruct (shr_m mrs''); try lia. by destruct (e'' <=? emax - prec).
Qed.

(** A positive integer rounds to a positive float, or to infinity. *)
Lemma binary_normalize_pos p :
  match binary_normalize prec emax (Z.pos p) 0 false with
  | S754_finite false _ _ | S754_infinity false => True
  | _ => False
  end.
Proof.
  unfold binary_normalize, binary_round, shl_align, fexp, emin, prec, emax.
  destruct (Z.max (Z.pos (digits2_pos p) + 0 - 53) (3 - 1024 - 53) - 0) as [| d | d] eqn:Hd;
    apply binary_round_aux_pos; lia.
Qed.

(** [0 / n] is [0] in binary64 for every integer [n] from 1 below 2^63. *)
Lemma float_zero_div (n : Z) :
  0 < n < 2 ^ 63 → (0 / float_ofZ n)%float = 0%float.
Proof.
  intros Hn. unfold float_ofZ. destruct (Z.ltb_spec n 0); [lia |].
  rewrite <- (FloatAxioms.SF2Prim_Prim2SF (0 / _)%float).
  rewrite FloatAxioms.div_spec, FloatAxioms.of_uint63_spec, Uint63.of_Z_spec.
  rewrite Z.mod_small by (change wB with (2 ^ 63); lia).
  destruct n as [| p | p]; try lia.
  pose proof (binary_normalize_pos p) as Hp.
  destruct (binary_normalize prec emax (Z.pos p) 0 false) as [| [] | | [] ? ?]; done.
Qed.

End BinaryZero.

(** ** Degenerate input *)
Section ZeroCases.
Import SynesthesiaBattery ScoreSpec.

Lemma buildSlots_no_repeats {num} repeats (rs : list (@PickerResponse num)) :
  repeats ≤ 0 → buildSlots repeats rs = [].
Proof.
  intros Hr. apply length_zero_iff_nil. rewrite buildSlots_length. lia.
Qed.

Lemma fold_left_zero {A B} (f : B → B → B) (h : A → B) (z : B) (l : list A) :
  f z z = z → (∀ x, x ∈ l → h x = z) → fold_left (fun a x => f a (h x)) l z = z.
Proof.
  intros Hz. induction l as [| x l IH]; intros Hl; simpl; [done |].
  rewrite (Hl x), Hz by apply list_elem_of_here.
  apply IH. intros y Hy. apply Hl. by apply list_elem_of_further.
Qed.

Lemma scoreRow_no_repeats {num} `{JsNumber num} `{JsMath num} repeats
    (entry : string * list (@PickerResponse num)) :
  repeats ≤ 0 →
  row_repeats (scoreRow repeats entry) = [] ∧ meanDeltaE (scoreRow repeats entry) = num_ofZ 0.
Proof.
  intros Hr. destruct entry as [g0 grp]. unfold scoreRow.
  rewrite buildSlots_no_repeats by done. done.
Qed.

(** There are no more rows than responses. *)
Lemma byG_length {num} (rs : list (@PickerResponse num)) :
  (length (fold_left groupStep rs []) ≤ length rs)%nat.
Proof.
  destruct (fold_groupStep rs) as [Hn _].
  rewrite <- (length_fmap fst (fold_left groupStep rs [])), <- (length_fmap grapheme rs).
  apply submseteq_length, NoDup_submseteq; [exact Hn |].
  intros g0. apply byG_keys.
Qed.

(** C7 (as amended). [scoreBattery] is total, and its results on degenerate
    input are these, in every arithmetic and whatever a division would
    return there: (1) a run without picker responses has [pickerScore] 0
    and no row, (2) a run without congruency responses has accuracy 0 and
    mean reaction time 0, so that (3) the run without any response scores
    [{pickerScore: 0, pickerRows: [], congruencyAccuracyPct: 0,
    congruencyMeanRtSec: 0}] for every [repeats]. (4) The rows are empty
    only when there is no picker response: every answered stimulus has its
    row, also with zero repeats; (5) with zero repeats every row has an
    empty repeat array and [meanDeltaE] 0, and the two congruency values
    are those of any other number of repeats. (6) With zero repeats the
    [pickerScore] is 0 in exact arithmetic, and (7) in binary64 arithmetic
    it is the number 0, not NaN, for every run of fewer than 2^63
    responses: the sum of the zeros divided by the number of rows. (8) The
    zero of these results is the binary64 number 0. *)
Theorem scoreBattery_zero :
  (∀ num (N : JsNumber num) (M : JsMath num) cmp (run : @BatteryRun num) repeats,
     (pickerResponses run = [] →
      pickerScore (scoreBattery cmp run repeats) = num_ofZ 0
      ∧ pickerRows (scoreBattery cmp run repeats) = [])
     ∧ (congruencyResponses run = [] →
        congruencyAccuracyPct (scoreBattery cmp run repeats) = num_ofZ 0
        ∧ congruencyMeanRtSec (scoreBattery cmp run repeats) = num_ofZ 0)
     ∧ (pickerResponses run = [] → congruencyResponses run = [] →
        scoreBattery cmp run repeats = zeroResults)
     ∧ (pickerRows (scoreBattery cmp run repeats) = [] ↔ pickerResponses run = [])
     ∧ (∀ g, g ∈ row_grapheme <$> pickerRows (scoreBattery cmp run repeats)
             ↔ g ∈ grapheme <$> pickerResponses run)
     ∧ (repeats ≤ 0 →
        Forall (fun row => row_repeats row = [] ∧ meanDeltaE row = num_ofZ 0)
          (pickerRows (scoreBattery cmp run repeats)))
     ∧ (∀ repeats',
          congruencyAccuracyPct (scoreBattery cmp run repeats)
          = congruencyAccuracyPct (scoreBattery cmp run repeats')
          ∧ congruencyMeanRtSec (scoreBattery cmp run repeats)
            = congruencyMeanRtSec (scoreBattery cmp run repeats')))
  ∧ (∀ (M : JsMath Q) cmp (run : @BatteryRun Q) repeats,
       repeats ≤ 0 → pickerScore (scoreBattery cmp run repeats) == 0)%Q
  ∧ (∀ (M : JsMath float) cmp (run : @BatteryRun float) repeats,
       repeats ≤ 0 → Z.of_nat (length (pickerResponses run)) < 2 ^ 63 →
       pickerScore (scoreBattery cmp run repeats) = 0%float
       ∧ PrimFloat.is_nan (pickerScore (scoreBattery cmp run repeats)) = false
       ∧ Forall (fun row => row_repeats row = [] ∧ meanDeltaE row = 0%float)
           (pickerRows (scoreBattery cmp run repeats)))
  ∧ (num_ofZ 0 = 0%float ∧ PrimFloat.is_nan (num_ofZ 0) = false).
Proof.
  split_and!.
  - intros num N M cmp run repeats.
    assert (pickerResponses run = [] →
            pickerScore (scoreBattery cmp run repeats) = num_ofZ 0
            ∧ pickerRows (scoreBattery cmp run repeats) = []) as Hpick.
    { intros Hp. unfold scoreBattery. rewrite Hp. done. }
    assert (congruencyResponses run = [] →
            congruencyAccuracyPct (scoreBattery cmp run repeats) = num_ofZ 0
            ∧ congruencyMeanRtSec (scoreBattery cmp run repeats) = num_ofZ 0) as Hcongr.
    { intros Hc. unfold scoreBattery. rewrite Hc. done. }
    assert (∀ g, g ∈ row_grapheme <$> pickerRows (scoreBattery cmp run repeats)
                 ↔ g ∈ grapheme <$> pickerResponses run) as Hrows.
    { intros g0. rewrite pickerRows_graphemes. apply byG_keys. }
    split_and!; [exact Hpick | exact Hcongr | | | exact Hrows | | done].
    + intros Hp Hc. destruct (Hpick Hp) as [H1 H2]. destruct (Hcongr Hc) as [H3 H4].
      destruct (scoreBattery cmp run repeats). simpl in *. unfold zeroResults. congruence.
    + split; [| by intros Hp; apply Hpick].
      intros Hnil. destruct (pickerResponses run) as [| r rs]; [done |].
      assert (grapheme r ∈ row_grapheme <$> pickerRows (scoreBattery cmp run repeats)) as Hin.
      { apply Hrows. simpl. apply list_elem_of_here. }
      rewrite Hnil in Hin. by apply elem_of_nil in Hin.
    + intros Hr. rewrite pickerRows_Permutation.
      apply Forall_fmap, Forall_forall. intros entry _. by apply scoreRow_no_repeats.
  - intros M cmp run repeats Hr. unfold scoreBattery. cbn [pickerScore].
    set (rows := scoreRow repeats <$> _).
    destruct (length rows =? 0)%nat; [done |].
    cbn [num_div num_add num_ofZ QNumber].
    rewrite (fold_left_zero (fun a b => Qred (a + b)) meanDeltaE 0%Q).
    + rewrite Qred_correct. unfold Qdiv. ring.
    + reflexivity.
    + subst rows. intros row (entry & -> & _)%list_elem_of_fmap.
      exact (proj2 (scoreRow_no_repeats repeats entry Hr)).
  - intros M cmp run repeats Hr Hlen.
    assert (pickerScore (scoreBattery cmp run repeats) = 0%float) as Hscore.
    { unfold scoreBattery. cbn [pickerScore].
      pose proof (byG_length (pickerResponses run)) as Hrows.
      set (rows := scoreRow repeats <$> _).
      assert (length rows ≤ length (pickerResponses run))%nat as Hle
        by (subst rows; by rewrite length_fmap).
      destruct (Nat.eqb_spec (length rows) 0) as [| Hne]; [reflexivity |].
      cbn [num_div num_add num_ofZ FloatNumber].
      rewrite (fold_left_zero PrimFloat.add meanDeltaE (float_ofZ 0)).
      - apply float_zero_div. lia.
      - reflexivity.
      - subst rows. intros row (entry & -> & _)%list_elem_of_fmap.
        exact (proj2 (scoreRow_no_repeats repeats entry Hr)). }
    split_and!; [exact Hscore | by rewrite Hscore |].
    rewrite pickerRows_Permutation.
    apply Forall_fmap, Forall_forall. intros entry _.
    exact (scoreRow_no_repeats repeats entry Hr).
  - reflexivity.
  - reflexivity.
Qed.

(** The zero cases in binary64 arithmetic: the run without responses, and
    "A" answered once with zero repeats. *)
Lemma scoreBattery_zero_witness :
  scoreBattery (H0 := Examples.floatMathStandIn) Examples.compareCodeUnits
    (Examples.libRun [] []) 3
  = {| pickerScore := 0%float; pickerRows := [];
       congruencyAccuracyPct := 0%float; congruencyMeanRtSec := 0%float |}
  ∧ pickerScore
      (scoreBattery (H0 := Examples.floatMathStandIn) Examples.compareCodeUnits
         (Examples.libRun [Samples.floatAnswer "A" 0 Examples.red] []) 0)
    = 0%float.
Proof.
  split.
  - apply (proj1 (proj2 (proj2 (proj1 scoreBattery_zero float FloatNumber
             Examples.floatMathStandIn Examples.compareCodeUnits (Examples.libRun [] []) 3))));
      reflexivity.
  - apply (proj1 (proj2 (proj2 scoreBattery_zero)) Examples.floatMathStandIn
             Examples.compareCodeUnits
             (Examples.libRun [Samples.floatAnswer "A" 0 Examples.red] []) 0).
    + lia.
    + simpl. lia.
Defined.

(** C7 (as stated) fails. Zero repeats do not give the zero record: the
    scorer groups the responses before it looks at [repeats], so that a run
    in which "A" was answered once has, scored with zero repeats, the row
    [{grapheme: "A", repeats: [], meanDeltaE: 0}]. *)
Lemma scoreBattery_zero_repeats_keeps_rows :
  scoreBattery (H0 := Examples.floatMathStandIn) Examples.compareCodeUnits
    (Examples.libRun [Samples.floatAnswer "A" 0 Examples.red] []) 0
  = {| pickerScore := 0%float;
       pickerRows := [{| row_grapheme := "A"; row_repeats := []; meanDeltaE := 0%float |}];
       congruencyAccuracyPct := 0%float; congruencyMeanRtSec := 0%float |}
  ∧ scoreBattery (H0 := Examples.floatMathStandIn) Examples.compareCodeUnits
      (Examples.libRun [Samples.floatAnswer "A" 0 Examples.red] []) 0
    ≠ zeroResults.
Proof.
  split; [reflexivity |]. intros Heq.
  apply (f_equal (fun results => length (pickerRows results))) in Heq.
  vm_compute in Heq. discriminate Heq.
Qed.

End ZeroCases.

(* ===================================================================== *)
(** * Part V. Further properties of the code                              *)
(* ===================================================================== *)

(** ** The starting colour of a trial (picker.tsx) *)
Section Hashing.
Import JsString JsBits Picker HashSpec.

Lemma uint32_int32 z : uint32 (int32 z) = uint32 z.
Proof.
  unfold uint32, int32.
  rewrite <- (Z.add_opp_r _ 2147483648), <- Zplus_mod_idemp_l, Z.mod_mod by lia.
  rewrite Zplus_mod_idemp_l. f_equal. lia.
Qed.

Lemma uint32_range z : 0 ≤ uint32 z < 4294967296.
Proof. unfold uint32. apply Z.mod_pos_bound. lia. Qed.

Lemma uint32_small z : 0 ≤ z < 4294967296 → uint32 z = z.
Proof. intros Hz. unfold uint32. by apply Z.mod_small. Qed.

Lemma uint32_mul a b : uint32 (int32 a * int32 b) = uint32 (a * b).
Proof.
  unfold uint32 at 1. rewrite Zmult_mod.
  fold (uint32 (int32 a)). fold (uint32 (int32 b)).
  rewrite !uint32_int32. unfold uint32. by rewrite <- Zmult_mod.
Qed.

Lemma uint32_ones z : uint32 z = Z.land z (Z.ones 32).
Proof. unfold uint32. rewrite Z.land_ones by lia. reflexivity. Qed.

Lemma uint32_lxor a b : uint32 (Z.lxor a b) = Z.lxor (uint32 a) (uint32 b).
Proof.
  rewrite !uint32_ones. apply Z.bits_inj'. intros n Hn.
  rewrite Z.lxor_spec, !Z.land_spec, Z.lxor_spec.
  by destruct (Z.testbit (Z.ones 32) n); rewrite ?andb_true_r, ?andb_false_r.
Qed.

Lemma uint32_land a b : uint32 (Z.land a b) = Z.land (uint32 a) (uint32 b).
Proof.
  rewrite !uint32_ones. apply Z.bits_inj'. intros n Hn.
  rewrite !Z.land_spec.
  by destruct (Z.testbit a n), (Z.testbit b n), (Z.testbit (Z.ones 32) n).
Qed.

Lemma uint32_bitxor a b : uint32 (bitxor a b) = Z.lxor (uint32 a) (uint32 b).
Proof. unfold bitxor. by rewrite uint32_lxor, !uint32_int32. Qed.

Lemma uint32_imul a b : uint32 (imul a b) = uint32 (uint32 a * b).
Proof.
  unfold imul. rewrite uint32_int32, uint32_mul.
  unfold uint32. by rewrite Zmult_mod_idemp_l.
Qed.

Lemma charCodes_range s : Forall (fun c => 0 ≤ c < 256) (charCodes s).
Proof.
  induction s as [| c s IH]; simpl; constructor; [| done].
  pose proof (N_ascii_bounded c). lia.
Qed.

(** One round of the loop of [hash32], seen through [>>> 0]. *)
Lemma hash32_step h c :
  0 ≤ c < 256 →
  uint32 (imul (bitxor h c) 16777619) = (Z.lxor (uint32 h) c * prime) mod 4294967296.
Proof.
  intros Hc. rewrite uint32_imul, uint32_bitxor, (uint32_small c) by lia. reflexivity.
Qed.

Lemma hash32_loop codes h h' :
  Forall (fun c => 0 ≤ c < 256) codes → uint32 h = h' →
  uint32 (fold_left (fun h c => imul (bitxor h c) 16777619) codes h)
  = fold_left (fun h c => (Z.lxor h c * prime) mod 4294967296) codes h'.
Proof.
  intros Hcodes. revert h h'. induction Hcodes as [| c codes Hc _ IH]; intros h h' Hh; [done |].
  simpl. apply IH. rewrite hash32_step by done. by rewrite Hh.
Qed.

(** X1. [hash32] is the 32-bit FNV-1a hash of the code units of its
    argument, an unsigned 32-bit integer: the signed arithmetic of [^=] and
    [Math.imul] and the final [>>> 0] compute the hash that works modulo
    2^32 throughout. *)
Theorem hash32_is_fnv1a (str : string) :
  hash32 str = fnv1a (charCodes str) ∧ 0 ≤ hash32 str < 4294967296.
Proof.
  split; [| apply uint32_range].
  unfold hash32, fnv1a. apply hash32_loop; [apply charCodes_range | done].
Qed.

End Hashing.

Section SeededHex.
Import JsString JsBits ColorWheel Picker HashSpec.

Lemma testbit_int32 z n : 0 ≤ n < 32 → Z.testbit (int32 z) n = Z.testbit z n.
Proof.
  intros Hn. pose proof (uint32_int32 z) as H. rewrite !uint32_ones in H.
  apply (f_equal (fun x => Z.testbit x n)) in H.
  rewrite !Z.land_spec, Z.ones_spec_low, !andb_true_r in H by lia. exact H.
Qed.

Lemma testbit_byte n : 0 ≤ n → Z.testbit 255 n = (n <? 8).
Proof.
  intros Hn. change 255 with (Z.ones 8).
  destruct (Z.ltb_spec n 8).
  - apply Z.ones_spec_low. lia.
  - apply Z.ones_spec_high. lia.
Qed.

Lemma testbit_byteAt h k n :
  0 ≤ k → 0 ≤ n → Z.testbit (byteAt h k) n = (n <? 8) && Z.testbit h (n + k).
Proof.
  intros Hk Hn. unfold byteAt. change 256 with (2 ^ 8).
  destruct (Z.ltb_spec n 8).
  - rewrite Z.mod_pow2_bits_low, Z.div_pow2_bits by lia. done.
  - rewrite Z.mod_pow2_bits_high by lia. done.
Qed.

(** A mask and a shift take a byte out of the hash. *)
Lemma byte_extract h k :
  0 ≤ k ≤ 16 → ushr (bitand h (Z.shiftl 255 k)) k = byteAt h k.
Proof.
  intros Hk. apply Z.bits_inj'. intros n Hn.
  rewrite testbit_byteAt by lia.
  unfold ushr, bitand. rewrite Z.shiftr_spec, uint32_ones, !Z.land_spec by lia.
  assert (int32 (Z.shiftl 255 k) = Z.shiftl 255 k) as ->.
  { unfold int32. rewrite Z.shiftl_mul_pow2 by lia.
    assert (0 < 2 ^ k ≤ 2 ^ 16) by (split; [apply Z.pow_pos_nonneg | apply Z.pow_le_mono_r]; lia).
    rewrite Z.mod_small; lia. }
  rewrite Z.shiftl_spec by lia.
  replace (n + k - k) with n by lia. rewrite testbit_byte by done.
  destruct (Z.ltb_spec n 8); [| by rewrite andb_false_r].
  rewrite testbit_int32, Z.ones_spec_low by lia. by rewrite !andb_true_r.
Qed.

Lemma byte_low h : bitand h 255 = byteAt h 0.
Proof.
  apply Z.bits_inj'. intros n Hn. rewrite testbit_byteAt by lia.
  unfold bitand. rewrite Z.land_spec. change (int32 255) with 255.
  rewrite testbit_byte, Z.add_0_r by done.
  destruct (Z.ltb_spec n 8); [| by rewrite andb_false_r].
  rewrite testbit_int32 by lia. by rewrite andb_true_r.
Qed.

Lemma byteAt_range h k : 0 ≤ byteAt h k < 256.
Proof. unfold byteAt. apply Z.mod_pos_bound. lia. Qed.

Lemma tweak_range v : 25 ≤ tweak v ≤ 230.
Proof. unfold tweak. lia. Qed.

(** A channel that is already an integer of [0, 255] prints as its two
    hexadecimal digits. *)
Lemma channelHex_integer (n : nat) :
  (n < 256)%nat →
  channelHex (inject_Z (Z.of_nat n)) = padStart 2 "0" (toString16 (Z.of_nat n)).
Proof.
  intros Hn.
  do 256 (destruct n as [| n]; [vm_compute; reflexivity |]).
  lia.
Qed.

Lemma seededHex_rgbToHex seedStr :
  let h := hash32 seedStr in
  seededHex seedStr
  = rgbToHex (inject_Z (tweak (byteAt h 16))) (inject_Z (tweak (byteAt h 8)))
             (inject_Z (tweak (byteAt h 0))).
Proof.
  intros h. unfold seededHex, rgbToHex. fold h.
  change 16711680 with (Z.shiftl 255 16). change 65280 with (Z.shiftl 255 8).
  rewrite (byte_extract h 16), (byte_extract h 8), byte_low by lia.
  assert (∀ v, channelHex (inject_Z (tweak v)) = padStart 2 "0" (toString16 (tweak v))) as Hc.
  { intros v. pose proof (tweak_range v).
    rewrite <- (Z2Nat.id (tweak v)) by lia. apply channelHex_integer. lia. }
  by rewrite !Hc.
Qed.

(** The hex string of three integer channels is in normal form and reads
    back as the channels. *)
Lemma rgbToHex_reads_back r0 g0 b0 :
  0 ≤ r0 ≤ 255 → 0 ≤ g0 ≤ 255 → 0 ≤ b0 ≤ 255 →
  let h := rgbToHex (inject_Z r0) (inject_Z g0) (inject_Z b0) in
  normalizeHex h = h ∧ isHashHex6 h = true ∧ hexToRgbSafe h = Some (mkRgb r0 g0 b0).
Proof.
  intros Hr Hg Hb.
  destruct (channel_round_trip r0 Hr) as (c1 & c2 & E1 & H1 & H2 & P1).
  destruct (channel_round_trip g0 Hg) as (c3 & c4 & E2 & H3 & H4 & P2).
  destruct (channel_round_trip b0 Hb) as (c5 & c6 & E3 & H5 & H6 & P3).
  assert (Forall (fun c => isLowerHexDigit c = true) [c1; c2; c3; c4; c5; c6]) as Hall.
  { by repeat constructor. }
  unfold rgbToHex. rewrite E1, E2, E3.
  change ("#" +:+ String c1 (String c2 "") +:+ String c3 (String c4 "")
            +:+ String c5 (String c6 ""))
    with (String "#" (String c1 (String c2 (String c3 (String c4 (String c5 (String c6 ""))))))).
  rewrite toLowerCase_hashed; [| simpl; by rewrite H1, H2, H3, H4, H5, H6].
  destruct (normalizeHex_normal _ _ _ _ _ _ Hall) as [Hn Hm].
  cbv zeta. split_and!; [exact Hn | exact Hm |].
  rewrite (hexToRgbSafe_digits _ _ _ _ _ _ _ Hn Hall), P1, P2, P3. done.
Qed.

Lemma seededHex_accepted seedStr : is_Some (hexToRgbSafe (seededHex seedStr)).
Proof.
  pose proof (seededHex_rgbToHex seedStr) as Hs. cbv zeta in Hs. rewrite Hs.
  set (h := hash32 seedStr).
  pose proof (tweak_range (byteAt h 16)). pose proof (tweak_range (byteAt h 8)).
  pose proof (tweak_range (byteAt h 0)).
  destruct (rgbToHex_reads_back (tweak (byteAt h 16)) (tweak (byteAt h 8)) (tweak (byteAt h 0)))
    as (_ & _ & ->); [lia.. |]. done.
Qed.

(** X2. The starting colour of a trial is always a colour the screen
    accepts: [seededHex] returns a string in normal form that
    [hexToRgbSafe] reads as the three low bytes of the FNV-1a hash, each
    clamped to [25, 230], so that [canNext] holds while the screen shows
    it. *)
Theorem seededHex_valid (seedStr : string) :
  let h := hash32 seedStr in
  let rgb := mkRgb (tweak (byteAt h 16)) (tweak (byteAt h 8)) (tweak (byteAt h 0)) in
  hexToRgbSafe (seededHex seedStr) = Some rgb
  ∧ normalizeHex (seededHex seedStr) = seededHex seedStr
  ∧ (25 ≤ r rgb ≤ 230 ∧ 25 ≤ g rgb ≤ 230 ∧ 25 ≤ b rgb ≤ 230)
  ∧ (∀ st, currentHex st = seededHex seedStr → canNext st = true).
Proof.
  intros h rgb.
  pose proof (tweak_range (byteAt h 16)) as Hr.
  pose proof (tweak_range (byteAt h 8)) as Hg.
  pose proof (tweak_range (byteAt h 0)) as Hb.
  pose proof (rgbToHex_reads_back (tweak (byteAt h 16)) (tweak (byteAt h 8))
                (tweak (byteAt h 0)) ltac:(lia) ltac:(lia) ltac:(lia)) as Hback.
  pose proof (seededHex_rgbToHex seedStr) as Hs.
  cbv zeta in Hback, Hs. fold h in Hs. rewrite <- Hs in Hback.
  destruct Hback as (Hn & _ & Hread).
  split; [exact Hread |]. split; [exact Hn |]. split; [exact (conj Hr (conj Hg Hb)) |].
  intros st Hst. unfold canNext. rewrite Hst, Hread. by destruct (noColor st).
Qed.

End SeededHex.

(** ** Resuming and counting (picker.tsx) *)
Section Resume.
Import JsString BatteryTypes Picker RecorderSpec SessionSpec.

Lemma trialKey_answered responses t :
  trialKeyOfTrial t ∈ trialKeyOfResponse <$> responses ↔ answered responses t.
Proof.
  unfold answered. rewrite list_elem_of_fmap. split.
  - intros (r & Hkey & Hr). exists r. split; [done |].
    unfold trialKeyOfTrial, trialKeyOfResponse in Hkey.
    symmetry in Hkey. apply trialKey_inj in Hkey as (Hk & Hg & Hr').
    unfold identity, identityOfTrial. by rewrite Hk, Hg, Hr'.
  - intros (r & Hr & Hid). exists r. split; [| done].
    unfold identity, identityOfTrial in Hid. injection Hid as Hk Hg Hr'.
    unfold trialKeyOfTrial, trialKeyOfResponse. by rewrite Hk, Hg, Hr'.
Qed.

(** The scan of the plan from position [i0] on. *)
Lemma scan_least (answeredKeys : list string) (ts : list BatteryPlan.PickerTrial) (i0 : nat) :
  let res :=
    (fix scan (ts : list BatteryPlan.PickerTrial) (i : nat) : nat :=
       match ts with
       | [] => i
       | t :: ts' => if decide (trialKeyOfTrial t ∈ answeredKeys) then scan ts' (S i) else i
       end) ts i0 in
  ∃ k, res = (i0 + k)%nat ∧ (k ≤ length ts)%nat
       ∧ (∀ j t, (j < k)%nat → ts !! j = Some t → trialKeyOfTrial t ∈ answeredKeys)
       ∧ (∀ t, ts !! k = Some t → trialKeyOfTrial t ∉ answeredKeys).
Proof.
  revert i0. induction ts as [| t ts IH]; intros i0; cbv zeta.
  - exists 0%nat. split_and!; [lia | done | intros; lia | done].
  - destruct (decide (trialKeyOfTrial t ∈ answeredKeys)) as [Ht | Ht].
    + destruct (IH (S i0)) as (k & Hres & Hk & Hbefore & Hat). cbv zeta in Hres.
      exists (S k). split_and!; [rewrite Hres; lia | simpl; lia | | done].
      intros [| j] t' Hj Hl; simplify_eq/=; [done |].
      apply (Hbefore j); [lia | done].
    + exists 0%nat. split_and!; [lia | simpl; lia | intros; lia |].
      intros t' [= <-]. done.
Qed.

(** X3. [findFirstUnansweredIndex] returns the least position of the plan
    whose trial has no response with its identity [(kind, grapheme,
    repeatIndex)], and the length of the plan when every trial has one: all
    trials before the returned position are answered, the trial at it is
    not, and it is the only position with these two properties. *)
Theorem findFirstUnansweredIndex_least (trials : list BatteryPlan.PickerTrial)
    (responses : list PickerResponse) :
  let i := findFirstUnansweredIndex trials responses in
  (i ≤ length trials)%nat
  ∧ (∀ j t, (j < i)%nat → trials !! j = Some t → answered responses t)
  ∧ (∀ t, trials !! i = Some t → ¬ answered responses t)
  ∧ (∀ i', (i' ≤ length trials)%nat →
           (∀ j t, (j < i')%nat → trials !! j = Some t → answered responses t) →
           (∀ t, trials !! i' = Some t → ¬ answered responses t) →
           i' = i).
Proof.
  intros i. subst i. unfold findFirstUnansweredIndex. cbv zeta.
  destruct (scan_least (trialKeyOfResponse <$> responses) trials 0)
    as (k & Hres & Hk & Hbefore & Hat).
  cbv zeta in Hres. rewrite Hres. simpl.
  assert (∀ j t, (j < k)%nat → trials !! j = Some t → answered responses t) as Hb.
  { intros j t Hj Hl. by apply trialKey_answered, (Hbefore j). }
  assert (∀ t, trials !! k = Some t → ¬ answered responses t) as Ha.
  { intros t Hl Hans%trialKey_answered. by apply (Hat t). }
  split_and!; [done | done | done |].
  intros i' Hi' Hb' Ha'.
  destruct (Nat.lt_trichotomy i' k) as [Hlt | [-> | Hgt]]; [| done |].
  - destruct (lookup_lt_is_Some_2 trials i') as [t Ht]; [lia |].
    destruct (Ha' t Ht). by apply (Hb i').
  - destruct (lookup_lt_is_Some_2 trials k) as [t Ht]; [lia |].
    destruct (Ha t Ht). by apply (Hb' k).
Qed.

(** The position at which the plan is resumed, from what is answered. *)
Lemma findFirstUnansweredIndex_upTo trials responses i :
  (i ≤ length trials)%nat → answeredUpTo trials responses i →
  findFirstUnansweredIndex trials responses = i.
Proof.
  intros Hi Hup. unfold findFirstUnansweredIndex. cbv zeta.
  destruct (scan_least (trialKeyOfResponse <$> responses) trials 0)
    as (k & Hres & Hk & Hbefore & Hat).
  cbv zeta in Hres. rewrite Hres. simpl.
  destruct (Nat.lt_trichotomy i k) as [Hlt | [-> | Hgt]]; [| done |].
  - destruct (lookup_lt_is_Some_2 trials i) as [t Ht]; [lia |].
    pose proof (Hbefore i t Hlt Ht) as Hans%trialKey_answered.
    apply (Hup i t Ht) in Hans. lia.
  - destruct (lookup_lt_is_Some_2 trials k) as [t Ht]; [lia |].
    destruct (Hat t Ht). apply trialKey_answered, (Hup k t Ht). lia.
Qed.

End Resume.

(** ** The normal form of a hex string (ColorWheel.tsx) *)
Section NormalForm.
Import JsString ColorWheel.

Lemma lowerChar_space c : isWhiteSpace (lowerChar c) = isWhiteSpace c.
Proof. destruct c as [[] [] [] [] [] [] [] []]; reflexivity. Qed.

Lemma lowerChar_idem c : lowerChar (lowerChar c) = lowerChar c.
Proof. destruct c as [[] [] [] [] [] [] [] []]; reflexivity. Qed.

Lemma lowerChar_hex c : isHexDigit (lowerChar c) = isHexDigit c.
Proof. destruct c as [[] [] [] [] [] [] [] []]; reflexivity. Qed.

Lemma lowerChar_hash c : lowerChar c = "#"%char ↔ c = "#"%char.
Proof.
  destruct c as [[] [] [] [] [] [] [] []]; vm_compute; split; intros Hc;
    try discriminate Hc; reflexivity.
Qed.

Lemma toLowerCase_idem s : toLowerCase (toLowerCase s) = toLowerCase s.
Proof. induction s as [| c s IH]; simpl; [done |]. by rewrite lowerChar_idem, IH. Qed.

Lemma toLowerCase_empty s : isEmpty (toLowerCase s) = isEmpty s.
Proof. by destruct s. Qed.

Lemma toLowerCase_allHex s : allChars isHexDigit (toLowerCase s) = allChars isHexDigit s.
Proof. induction s as [| c s IH]; simpl; [done |]. by rewrite lowerChar_hex, IH. Qed.

Lemma toLowerCase_bare s : isBareHex6 (toLowerCase s) = isBareHex6 s.
Proof. unfold isBareHex6. by rewrite toLowerCase_length, toLowerCase_allHex. Qed.

Lemma startsWith_hash s :
  startsWith "#" s = match s with String c _ => bool_decide (c = "#"%char) | _ => false end.
Proof.
  destruct s as [| c s]; [done |]. unfold startsWith. cbn [String.prefix].
  destruct (ascii_dec "#" c) as [<- | Hne].
  - rewrite bool_decide_true by done. by destruct s.
  - rewrite bool_decide_false; [done | congruence].
Qed.

Lemma toLowerCase_startsWith s : startsWith "#" (toLowerCase s) = startsWith "#" s.
Proof.
  rewrite !startsWith_hash. destruct s as [| c s]; [done |]. simpl.
  apply bool_decide_ext, lowerChar_hash.
Qed.

Lemma toLowerCase_trimStart s : trimStart (toLowerCase s) = toLowerCase (trimStart s).
Proof.
  induction s as [| c s IH]; simpl; [done |].
  rewrite lowerChar_space. by destruct (isWhiteSpace c).
Qed.

Lemma toLowerCase_trimEnd s : trimEnd (toLowerCase s) = toLowerCase (trimEnd s).
Proof.
  induction s as [| c s IH]; simpl; [done |].
  rewrite IH, lowerChar_space.
  destruct (trimEnd s); simpl; [by destruct (isWhiteSpace c) | done].
Qed.

Lemma toLowerCase_trim s : trim (toLowerCase s) = toLowerCase (trim s).
Proof. unfold trim. by rewrite toLowerCase_trimStart, toLowerCase_trimEnd. Qed.

Lemma trimStart_head s :
  match trimStart s with String c _ => isWhiteSpace c = false | _ => True end.
Proof.
  induction s as [| c s IH]; simpl; [done |].
  destruct (isWhiteSpace c) eqn:Hc; [exact IH | exact Hc].
Qed.

Lemma trimEnd_idem s : trimEnd (trimEnd s) = trimEnd s.
Proof.
  induction s as [| c s IH]; simpl; [done |].
  destruct (trimEnd s) as [| d t] eqn:Ht.
  - destruct (isWhiteSpace c) eqn:Hc; simpl; [done | by rewrite Hc].
  - cbn [trimEnd] in IH |- *. by rewrite IH.
Qed.

(** What is left of a string without white space in front keeps its first
    character. *)
Lemma trimStart_trimEnd s :
  match s with String c _ => isWhiteSpace c = false | _ => True end →
  trimStart (trimEnd s) = trimEnd s.
Proof.
  destruct s as [| c s]; [done |]. intros Hc. simpl.
  destruct (trimEnd s); rewrite ?Hc; simpl; by rewrite ?Hc.
Qed.

Lemma trim_idem s : trim (trim s) = trim s.
Proof.
  unfold trim. rewrite trimStart_trimEnd by apply trimStart_head. apply trimEnd_idem.
Qed.

Lemma trim_hashed s : trim s = s → s ≠ "" → trim (String "#" s) = String "#" s.
Proof.
  intros Hs Hne. unfold trim in *. simpl.
  assert (trimEnd s = s) as ->.
  { rewrite <- Hs at 2. rewrite <- Hs. by rewrite trimStart_trimEnd, trimEnd_idem by apply trimStart_head. }
  by destruct s.
Qed.

Lemma normalizeHex_idem v : normalizeHex (normalizeHex v) = normalizeHex v.
Proof.
  unfold normalizeHex at 2 3.
  pose proof (trim_idem v) as Htrim. set (s := trim v) in *.
  destruct (isEmpty s) eqn:He; [reflexivity |].
  assert (trim (toLowerCase s) = toLowerCase s) as Hlow by (by rewrite toLowerCase_trim, Htrim).
  destruct (startsWith "#" s) eqn:Hh.
  - unfold normalizeHex.
    by rewrite Hlow, toLowerCase_empty, He, toLowerCase_startsWith, Hh, toLowerCase_idem.
  - destruct (isBareHex6 s) eqn:Hb.
    + unfold normalizeHex. change ("#" +:+ toLowerCase s) with (String "#" (toLowerCase s)).
      rewrite trim_hashed; [| done | by destruct s].
      cbn [isEmpty]. rewrite startsWith_hash, bool_decide_true by done.
      cbn [toLowerCase]. by rewrite toLowerCase_idem.
    + unfold normalizeHex.
      by rewrite Hlow, toLowerCase_empty, He, toLowerCase_startsWith, Hh, toLowerCase_bare, Hb,
        toLowerCase_idem.
Qed.

(** X4. [normalizeHex] is idempotent: the normal form of a normal form is
    itself, for every string; and [hexToRgbSafe], which normalises first,
    reads a string and its normal form as the same colour. The empty
    string is the normal form of the blank strings only. *)
Theorem normalizeHex_idempotent :
  (∀ v, normalizeHex (normalizeHex v) = normalizeHex v)
  ∧ (∀ v, hexToRgbSafe (normalizeHex v) = hexToRgbSafe v)
  ∧ (∀ v, normalizeHex v = "" ↔ trim v = "").
Proof.
  split_and!.
  - apply normalizeHex_idem.
  - intros v. unfold hexToRgbSafe. by rewrite normalizeHex_idem.
  - intros v. unfold normalizeHex. destruct (trim v) as [| c s] eqn:Hs; [done |].
    cbn [isEmpty]. split; [| done].
    destruct (startsWith "#" (String c s)); [done |].
    by destruct (isBareHex6 (String c s)).
Qed.

End NormalForm.

(** ** The picker session (picker.tsx) *)
Section UniqueInOrder.
Context {A : Type} `{EqDecision A}.

Lemma uniqueInOrder_NoDup (seen l : list A) : NoDup (uniqueInOrder seen l).
Proof.
  revert seen. induction l as [| x l IH]; intros seen; simpl; [constructor |].
  destruct (decide (x ∈ seen)); [apply IH |].
  constructor; [| apply IH].
  rewrite elem_of_uniqueInOrder. intros [_ Hx]. apply Hx, list_elem_of_here.
Qed.

Lemma uniqueInOrder_length (seen l : list A) : (length (uniqueInOrder seen l) ≤ length l)%nat.
Proof.
  revert seen. induction l as [| x l IH]; intros seen; simpl; [done |].
  destruct (decide (x ∈ seen)); [specialize (IH seen) | specialize (IH (x :: seen))];
    simpl; lia.
Qed.

Lemma uniqueInOrder_of_NoDup (seen l : list A) :
  NoDup l → (∀ x, x ∈ l → x ∉ seen) → uniqueInOrder seen l = l.
Proof.
  intros Hl. revert seen. induction Hl as [| x l Hx Hl IH]; intros seen Hseen; simpl; [done |].
  rewrite decide_False by apply Hseen, list_elem_of_here.
  f_equal. apply IH. intros y Hy [-> | Hin]%elem_of_cons; [done |].
  by apply (Hseen y); [apply list_elem_of_further |].
Qed.

Lemma uniqueInOrder_fmap {B} `{EqDecision B} (f : A → B) (seen l : list A) :
  (∀ x y, f x = f y → x = y) →
  uniqueInOrder (f <$> seen) (f <$> l) = f <$> uniqueInOrder seen l.
Proof.
  intros Hinj. revert seen. induction l as [| x l IH]; intros seen; simpl; [done |].
  destruct (decide (x ∈ seen)) as [Hx | Hx].
  - rewrite decide_True by (by apply list_elem_of_fmap_2). apply IH.
  - rewrite decide_False.
    + rewrite fmap_cons. f_equal. apply (IH (x :: seen)).
    + intros (y & Hxy & Hy)%list_elem_of_fmap. by rewrite (Hinj _ _ Hxy) in Hx.
Qed.

End UniqueInOrder.

Section Session.
Import JsString BatteryTypes ColorWheel Picker RecorderSpec SessionSpec.

Lemma keyOfIdentity_inj id1 id2 : keyOfIdentity id1 = keyOfIdentity id2 → id1 = id2.
Proof.
  destruct id1 as [[k1 g1] r1], id2 as [[k2 g2] r2]. unfold keyOfIdentity. simpl.
  by intros (-> & -> & ->)%trialKey_inj.
Qed.

Lemma trialKeyOfResponse_keyOfIdentity r : trialKeyOfResponse r = keyOfIdentity (identity r).
Proof. reflexivity. Qed.

Lemma trialKeyOfTrial_keyOfIdentity t : trialKeyOfTrial t = keyOfIdentity (identityOfTrial t).
Proof. reflexivity. Qed.

Lemma responseKeys_identities (rs : list PickerResponse) :
  trialKeyOfResponse <$> rs = keyOfIdentity <$> (identity <$> rs).
Proof. by rewrite <- list_fmap_compose. Qed.

Lemma atMostOne_NoDup (rs : list PickerResponse) :
  atMostOnePerIdentity rs → NoDup (identity <$> rs).
Proof.
  induction rs as [| x rs IH]; intros Hone; [constructor |].
  rewrite fmap_cons. constructor.
  - intros (y & Hxy & Hy)%list_elem_of_fmap.
    specialize (Hone (identity x)). unfold entriesFor in Hone.
    rewrite filter_cons_True in Hone by done. simpl in Hone.
    assert (y ∈ filter (λ r, identity r = identity x) rs) as Hin.
    { by apply list_elem_of_filter. }
    destruct (filter (λ r, identity r = identity x) rs); [by apply elem_of_nil in Hin |].
    simpl in Hone. lia.
  - apply IH. intros id. specialize (Hone id). unfold entriesFor in *.
    rewrite filter_cons in Hone. destruct (decide (identity x = id)); simpl in Hone; lia.
Qed.

Lemma entriesFor_absent id (rs : list PickerResponse) :
  id ∉ identity <$> rs → entriesFor id rs = [].
Proof.
  unfold entriesFor. induction rs as [| y rs IH]; [done |].
  rewrite fmap_cons. intros [Hy Hrs]%not_elem_of_cons.
  rewrite filter_cons_False by congruence. by apply IH.
Qed.

Lemma NoDup_atMostOne (rs : list PickerResponse) :
  NoDup (identity <$> rs) → atMostOnePerIdentity rs.
Proof.
  induction rs as [| x rs IH]; intros Hn id; [simpl; lia |].
  rewrite fmap_cons in Hn. apply NoDup_cons in Hn as [Hx Hn].
  unfold entriesFor. rewrite filter_cons.
  destruct (decide (identity x = id)) as [<- | Hne]; [| by apply IH].
  fold (entriesFor (identity x) rs). rewrite entriesFor_absent by done. simpl. lia.
Qed.

(** X5. [countUniqueAnswered] counts the distinct identities [(kind,
    grapheme, repeatIndex)] among the stored picker responses: never more
    than the number of responses, exactly that number when no identity is
    stored twice, and 0 while no payload is loaded. *)
Theorem countUniqueAnswered_identities (p : BatteryRunPayload) :
  (∃ ids, NoDup ids
          ∧ (∀ id, id ∈ ids ↔ ∃ r, r ∈ pickerResponses p ∧ identity r = id)
          ∧ countUniqueAnswered (Some p) = length ids)
  ∧ (countUniqueAnswered (Some p) ≤ length (pickerResponses p))%nat
  ∧ (atMostOnePerIdentity (pickerResponses p) →
     countUniqueAnswered (Some p) = length (pickerResponses p))
  ∧ countUniqueAnswered None = 0%nat.
Proof.
  assert (countUniqueAnswered (Some p)
          = length (uniqueInOrder [] (identity <$> pickerResponses p))) as Hcount.
  { unfold countUniqueAnswered. cbn [from_option].
    rewrite responseKeys_identities.
    rewrite (uniqueInOrder_fmap keyOfIdentity [] _ keyOfIdentity_inj).
    by rewrite length_fmap. }
  split_and!.
  - exists (uniqueInOrder [] (identity <$> pickerResponses p)).
    split_and!; [apply uniqueInOrder_NoDup | | exact Hcount].
    intros id. rewrite elem_of_uniqueInOrder, list_elem_of_fmap. split.
    + intros [(r & -> & Hr) _]. by exists r.
    + intros (r & Hr & <-). split; [by exists r | apply not_elem_of_nil].
  - rewrite Hcount. etrans; [apply uniqueInOrder_length |]. by rewrite length_fmap.
  - intros Hone. rewrite Hcount, uniqueInOrder_of_NoDup.
    + by rewrite length_fmap.
    + by apply atMostOne_NoDup.
    + intros ? _. apply not_elem_of_nil.
  - reflexivity.
Qed.

(** *** What [onNext] stores *)

Lemma onNext_Some st cur now p' :
  onNext st (Some cur) now = Some p' →
  ∃ p, payload st = Some p ∧ canNext st = true
       ∧ pickerResponses p' = insertResponse (pickerResponses p) (buildResponse st cur now)
       ∧ congruencyResponses p' = congruencyResponses p
       ∧ version p' = version p ∧ BatteryTypes.repeats p' = BatteryTypes.repeats p
       ∧ pickerPlan p' = pickerPlan p ∧ createdAtMs p' = createdAtMs p.
Proof.
  unfold onNext. destruct (payload st) as [p |]; [| done].
  destruct (canNext st); simpl; [| done].
  destruct (saving st || submitting st); [done |].
  intros [= <-]. exists p. done.
Qed.

Lemma hexToRgbSafe_nonempty h : is_Some (hexToRgbSafe h) → isEmpty (normalizeHex h) = false.
Proof.
  unfold hexToRgbSafe. intros Hsome.
  destruct (isHashHex6 (normalizeHex h)) eqn:Hm; [| by destruct Hsome].
  by destruct (normalizeHex h).
Qed.

Lemma buildResponse_wellFormed st cur now :
  canNext st = true → wellFormed (buildResponse st cur now).
Proof.
  unfold canNext, wellFormed, buildResponse. simpl.
  destruct (noColor st); [done |].
  destruct (hexToRgbSafe (currentHex st)) as [c |] eqn:Hc; [| done].
  intros _. exists (normalizeHex (currentHex st)), c. split_and!; try done.
  - unfold hexToRgbSafe in *. by rewrite normalizeHex_idem.
  - apply normalizeHex_idem.
Qed.

Lemma insertResponse_Forall (P : PickerResponse → Prop) prev r :
  Forall P prev → P r → Forall P (insertResponse prev r).
Proof.
  intros Hprev Hr. unfold insertResponse, replaceByKey.
  apply Forall_app. split; [| by constructor].
  apply Forall_forall. intros x [_ Hx]%list_elem_of_filter.
  by apply (proj1 (Forall_forall P prev) Hprev).
Qed.

(** X6. Every payload the picker screen builds, from a fresh payload by
    any number of [onNext] calls, keeps its stored responses well formed:
    at most one response per identity; a "no color" response has neither
    [rgb] nor [hex]; any other response has both, its [hex] is in the
    normal form of [normalizeHex], and [hexToRgbSafe] reads it as the
    stored [rgb]. The progress counter of such a payload is the number of
    its responses, and the picker never touches the congruency responses,
    the version or the repeat count. *)
Theorem built_payload_invariant (p : BatteryRunPayload) :
  built p →
  Forall wellFormed (pickerResponses p)
  ∧ atMostOnePerIdentity (pickerResponses p)
  ∧ countUniqueAnswered (Some p) = length (pickerResponses p)
  ∧ congruencyResponses p = []
  ∧ version p = 1 ∧ BatteryTypes.repeats p = 3.
Proof.
  intros Hbuilt.
  assert (Forall wellFormed (pickerResponses p)
          ∧ atMostOnePerIdentity (pickerResponses p)
          ∧ congruencyResponses p = []
          ∧ version p = 1 ∧ BatteryTypes.repeats p = 3) as (Hwf & Hone & Hc & Hv & Hr).
  { induction Hbuilt as [now | st cur now p p' _ IH Hp Hnext].
    - split_and!; try done. intros id. simpl. lia.
    - destruct IH as (Hwf & Hone & Hc & Hv & Hr).
      apply onNext_Some in Hnext as (p0 & Hp0 & Hcan & Hrs & Hcs & Hv' & Hr' & _).
      rewrite Hp in Hp0. injection Hp0 as <-.
      rewrite Hrs, Hcs, Hv', Hr'. split_and!; try done.
      + apply insertResponse_Forall; [done |]. by apply buildResponse_wellFormed.
      + by apply insertResponse_invariant. }
  split_and!; try done.
  unfold countUniqueAnswered. cbn [from_option].
  rewrite responseKeys_identities.
  rewrite (uniqueInOrder_fmap keyOfIdentity [] _ keyOfIdentity_inj), length_fmap.
  rewrite uniqueInOrder_of_NoDup; [by rewrite length_fmap | by apply atMostOne_NoDup |].
  intros ? _. apply not_elem_of_nil.
Qed.

(** The payload after "A" was answered red and then green. *)
Lemma built_payload_invariant_witness :
  ∃ p1 p2,
    onNext (Examples.screenWith (fresh 5) "#ff0000") (Some Examples.trialA0) 10 = Some p1
    ∧ onNext (Examples.screenWith p1 "00FF00") (Some Examples.trialA0) 20 = Some p2
    ∧ Forall wellFormed (pickerResponses p2)
    ∧ atMostOnePerIdentity (pickerResponses p2)
    ∧ countUniqueAnswered (Some p2) = length (pickerResponses p2)
    ∧ congruencyResponses p2 = []
    ∧ version p2 = 1 ∧ BatteryTypes.repeats p2 = 3.
Proof.
  destruct (onNext (Examples.screenWith (fresh 5) "#ff0000") (Some Examples.trialA0) 10)
    as [p1 |] eqn:H1; [| by vm_compute in H1].
  destruct (onNext (Examples.screenWith p1 "00FF00") (Some Examples.trialA0) 20)
    as [p2 |] eqn:H2.
  - exists p1, p2. split; [done |]. split; [done |].
    apply (built_payload_invariant p2).
    apply (built_next (Examples.screenWith p1 "00FF00") Examples.trialA0 20 p1 p2);
      [| reflexivity | exact H2].
    apply (built_next (Examples.screenWith (fresh 5) "#ff0000") Examples.trialA0 10 (fresh 5) p1);
      [apply built_fresh | reflexivity | exact H1].
  - vm_compute in H1. injection H1 as <-. vm_compute in H2. discriminate H2.
Defined.

(** *** Going back to an answered trial *)

Lemma find_replaced k prev resp :
  trialKeyOfResponse resp = k →
  List.find (λ r, bool_decide (trialKeyOfResponse r = k)) (replaceByKey k prev resp)
  = Some resp.
Proof.
  intros Hk. unfold replaceByKey. induction prev as [| x prev IH]; simpl.
  - by rewrite bool_decide_true.
  - rewrite filter_cons. destruct (decide (trialKeyOfResponse x ≠ k)) as [Hne | _]; [| done].
    simpl. by rewrite bool_decide_false.
Qed.

Lemma find_other k k' prev resp :
  trialKeyOfResponse resp = k → k' ≠ k →
  List.find (λ r, bool_decide (trialKeyOfResponse r = k')) (replaceByKey k prev resp)
  = List.find (λ r, bool_decide (trialKeyOfResponse r = k')) prev.
Proof.
  intros Hk Hne. unfold replaceByKey. induction prev as [| x prev IH]; simpl.
  - rewrite bool_decide_false; [done | congruence].
  - rewrite filter_cons. destruct (decide (trialKeyOfResponse x ≠ k)) as [Hx | Hx]; simpl.
    + by rewrite IH.
    + rewrite bool_decide_false; [done |]. intros Hx'. apply Hx. congruence.
Qed.

(** X7. Going back to a trial restores what was answered: after [onNext]
    has stored the answer to a trial, the restoring effect on that trial
    ticks "No color" if the answer was "no color", and otherwise shows the
    normal form of the colour that was chosen; what it restores for a trial
    of another identity is what it restored before. *)
Theorem restore_after_onNext (st : State) (cur : BatteryPlan.PickerTrial) (now : Z)
    (p p' : BatteryRunPayload) :
  payload st = Some p →
  onNext st (Some cur) now = Some p' →
  (∀ initialHex,
     restore p' cur initialHex
     = (noColor st, if noColor st then initialHex else normalizeHex (currentHex st)))
  ∧ (∀ other initialHex,
       identityOfTrial other ≠ identityOfTrial cur →
       restore p' other initialHex = restore p other initialHex).
Proof.
  intros Hp Hnext.
  apply onNext_Some in Hnext as (p0 & Hp0 & Hcan & Hrs & _).
  rewrite Hp in Hp0. injection Hp0 as <-.
  split.
  - intros initialHex. unfold restore. rewrite Hrs. cbv zeta.
    unfold insertResponse.
    rewrite (find_replaced (trialKeyOfTrial cur)) by done.
    cbn [from_option mbind option_bind].
    unfold canNext in Hcan. unfold buildResponse. cbn [isNoColor hex].
    destruct (noColor st); [done |].
    destruct (hexToRgbSafe (currentHex st)) as [c |] eqn:Hc; [| done].
    cbn [from_option]. unfold id. rewrite hexToRgbSafe_nonempty by (by rewrite Hc).
    assert (hexToRgbSafe (normalizeHex (currentHex st)) = Some c) as ->.
    { unfold hexToRgbSafe in *. by rewrite normalizeHex_idem. }
    rewrite bool_decide_true by done. simpl. by rewrite normalizeHex_idem.
  - intros other initialHex Hid. unfold restore. rewrite Hrs. cbv zeta.
    unfold insertResponse.
    rewrite (find_other (trialKeyOfTrial cur)); [done | done |].
    rewrite !trialKeyOfTrial_keyOfIdentity. by intros ?%keyOfIdentity_inj.
Qed.

(** "A" answered red, then shown again; "B" is not affected. *)
Lemma restore_after_onNext_witness :
  ∃ p',
    onNext (Examples.screenWith (fresh 5) " FF0000 ") (Some Examples.trialA0) 10 = Some p'
    ∧ restore p' Examples.trialA0 "#3366cc" = (false, "#ff0000").
Proof.
  destruct (onNext (Examples.screenWith (fresh 5) " FF0000 ") (Some Examples.trialA0) 10)
    as [p' |] eqn:H1; [| by vm_compute in H1].
  exists p'. split; [done |].
  exact (proj1 (restore_after_onNext (Examples.screenWith (fresh 5) " FF0000 ")
                  Examples.trialA0 10 (fresh 5) p' eq_refl H1) "#3366cc").
Defined.

Lemma restore_accepted p cur initialHex :
  is_Some (hexToRgbSafe initialHex) →
  (restore p cur initialHex).1 = false → is_Some (hexToRgbSafe (restore p cur initialHex).2).
Proof.
  intros Hinit. unfold restore. cbv zeta.
  destruct (from_option isNoColor false _); [done |].
  destruct (negb _ && bool_decide _) eqn:Hsaved; [| done].
  intros _. apply andb_true_iff in Hsaved as [_ Hsome%bool_decide_eq_true].
  cbn [snd]. unfold hexToRgbSafe in *. by rewrite normalizeHex_idem.
Qed.

(** X8. A trial is never shown with "Next" disabled: whatever the payload
    holds for the trial (nothing, a "no color" answer, a colour, or a hex
    that does not read as a colour), the controls that the restoring
    effect sets from it and from the trial's seeded starting colour
    satisfy [canNext]. *)
Theorem restore_enables_next (runId : string) (p : BatteryRunPayload)
    (cur : BatteryPlan.PickerTrial) (i : Z) :
  canNext (shown p i (restore p cur (initialHexForTrial runId (Some cur)))) = true.
Proof.
  unfold canNext, shown. cbn [noColor currentHex].
  destruct (restore p cur _).1 eqn:Hnc; [done |].
  destruct (restore_accepted p cur (initialHexForTrial runId (Some cur))) as [c ->];
    [apply seededHex_accepted | done | done].
Qed.

(** *** Answering the plan in order *)

Lemma answered_insert prev r t :
  answered (insertResponse prev r) t
  ↔ answered prev t ∨ identity r = identityOfTrial t.
Proof.
  unfold answered, insertResponse, replaceByKey. split.
  - intros (x & [[_ Hx]%list_elem_of_filter | ->%list_elem_of_singleton]%elem_of_app & Hid).
    + left. by exists x.
    + by right.
  - intros [(x & Hx & Hid) | Hid].
    + destruct (decide (identity x = identity r)) as [Heq | Hne].
      * exists r. split; [apply elem_of_app; right; apply list_elem_of_here | congruence].
      * exists x. split; [| done]. apply elem_of_app. left.
        apply list_elem_of_filter. split; [| done].
        by intros ?%trialKeyOfResponse_identity.
    + exists r. split; [apply elem_of_app; right; apply list_elem_of_here | done].
Qed.

(** X9. Reloading agrees with going on. Let the plan have no identity
    twice and let the trials before position [i], and no others, be
    answered. Then the loading effect resumes at trial [i]; and after
    [onNext] has stored an answer to trial [i], exactly the trials before
    [i + 1] are answered and the loading effect goes where [onNext] itself
    goes: to trial [i + 1], or on to the speed test when trial [i] was the
    last one. *)
Theorem resume_agrees_with_next (trials : list BatteryPlan.PickerTrial) (i : nat)
    (st : State) (cur : BatteryPlan.PickerTrial) (now : Z) (p p' : BatteryRunPayload) :
  NoDup (identityOfTrial <$> trials) →
  answeredUpTo trials (pickerResponses p) i →
  trials !! i = Some cur →
  payload st = Some p →
  onNext st (Some cur) now = Some p' →
  resume trials p = ToTrial (Z.of_nat i)
  ∧ answeredUpTo trials (pickerResponses p') (S i)
  ∧ resume trials p' = afterNext (Z.of_nat (length trials)) (Z.of_nat i).
Proof.
  intros Hnodup Hup Hcur Hp Hnext.
  pose proof (lookup_lt_Some _ _ _ Hcur) as Hi.
  apply onNext_Some in Hnext as (p0 & Hp0 & _ & Hrs & _).
  rewrite Hp in Hp0. injection Hp0 as <-.
  assert (answeredUpTo trials (pickerResponses p') (S i)) as Hup'.
  { intros j t Ht. rewrite Hrs, answered_insert, (Hup j t Ht), buildResponse_identity.
    split.
    - intros [Hj | Hid]; [lia |].
      assert (j = i); [| lia].
      eapply (NoDup_lookup _ j i _ Hnodup);
        rewrite list_lookup_fmap; [by rewrite Ht | rewrite Hcur; simpl; congruence].
    - intros Hj. destruct (decide (j = i)) as [-> | Hne]; [| left; lia].
      right. congruence. }
  split_and!; [| exact Hup' |].
  - unfold resume. cbv zeta.
    rewrite (findFirstUnansweredIndex_upTo trials (pickerResponses p) i) by (done || lia).
    destruct (Z.ltb_spec 0 (Z.of_nat (length trials))); [| lia].
    destruct (Z.leb_spec (Z.of_nat (length trials)) (Z.of_nat i)); [lia |].
    simpl. f_equal. lia.
  - unfold resume, afterNext. cbv zeta.
    rewrite (findFirstUnansweredIndex_upTo trials (pickerResponses p') (S i)) by (done || lia).
    destruct (Z.ltb_spec 0 (Z.of_nat (length trials))); [| lia].
    replace (Z.of_nat i + 1) with (Z.of_nat (S i)) by lia.
    destruct (Z.leb_spec (Z.of_nat (length trials)) (Z.of_nat (S i))); [done |].
    simpl. f_equal. lia.
Qed.

(** In the plan "A", "B": a fresh run resumes at "A", and after "A" is
    answered a reload goes to "B", as [onNext] does. *)
Lemma resume_agrees_with_next_witness :
  ∃ p',
    onNext (Examples.screenWith (fresh 5) "#ff0000") (Some Examples.trialA0) 10 = Some p'
    ∧ resume Samples.planAB (fresh 5) = ToTrial 0
    ∧ resume Samples.planAB p' = ToTrial 1.
Proof.
  destruct (onNext (Examples.screenWith (fresh 5) "#ff0000") (Some Examples.trialA0) 10)
    as [p' |] eqn:H1; [| by vm_compute in H1].
  exists p'. split; [done |].
  assert (NoDup (identityOfTrial <$> Samples.planAB)) as Hnodup.
  { refine (bool_decide_unpack _ _). vm_compute. exact I. }
  assert (answeredUpTo Samples.planAB (pickerResponses (fresh 5)) 0) as Hup.
  { intros j t _. split; [intros (r & Hr%elem_of_nil & _); done | lia]. }
  destruct (resume_agrees_with_next Samples.planAB 0
              (Examples.screenWith (fresh 5) "#ff0000") Examples.trialA0 10 (fresh 5) p'
              Hnodup Hup eq_refl eq_refl H1) as (H0 & _ & Hnext).
  split; [exact H0 | exact Hnext].
Defined.

End Session.

(** ** The plan of the picker screen (picker.tsx) *)
Section ScreenPlan.
Import BatteryTypes BatteryPlan PlanSpec RecorderSpec.

Lemma identityOfTrial_inj t1 t2 : identityOfTrial t1 = identityOfTrial t2 → t1 = t2.
Proof. destruct t1, t2. unfold identityOfTrial. simpl. by intros [= -> -> ->]. Qed.

(** X10. Whatever the run id and the clock, the plan of the picker screen
    is an arrangement of the 99 trials of the 26 letters and the 7
    weekdays with the repeat indices 0, 1 and 2: no position is
    [undefined], and no identity [(kind, grapheme, repeatIndex)] occurs
    twice. The seed that the screen hashes from the run id always lies in
    the range where the shuffle is a permutation. *)
Theorem picker_screen_plan (runId : string) (now : Z) :
  ∃ plan,
    Picker.trials runId now = Some <$> plan
    ∧ plan ≡ₚ crossProduct DEFAULT_GRAPHEMES DEFAULT_WEEKDAYS 3
    ∧ length plan = 99%nat
    ∧ NoDup (identityOfTrial <$> plan)
    ∧ 0 ≤ Picker.seedOfRunId runId < 4294967296.
Proof.
  unfold Picker.trials, buildPickerTrials. cbn [seed].
  pose proof (seedOfRunId_range runId) as Hseed.
  set (opts := {| graphemes := DEFAULT_GRAPHEMES; weekdays := DEFAULT_WEEKDAYS;
                  repeats := Picker.repeats; seed := Some (Picker.seedOfRunId runId) |}).
  assert (opts = seeded DEFAULT_GRAPHEMES DEFAULT_WEEKDAYS 3 (Picker.seedOfRunId runId)) as Hopts
    by reflexivity.
  destruct (shuffle_Permutation (unshuffledTrials opts) (Picker.seedOfRunId runId) now)
    as (plan & Hplan & Hperm); [lia |].
  exists plan. rewrite Hopts in Hperm. split_and!.
  - exact Hplan.
  - by rewrite Hperm, unshuffledTrials_crossProduct.
  - by rewrite (Permutation_length Hperm), unshuffledTrials_length.
  - apply NoDup_fmap_2_strong; [intros ?? _ _; apply identityOfTrial_inj |].
    rewrite Hperm. apply NoDup_unshuffledTrials; refine (bool_decide_unpack _ _); vm_compute; exact I.
  - apply Hseed.
  - apply Hseed.
Qed.

End ScreenPlan.

(** ** The speed test (congruency.tsx) *)
Section SpeedTest.
Import JsString BatteryTypes Congruency FixedSpec SpeedSpec.

Lemma pick_elem {T} (arr : list T) i x : pick arr i = Some x → x ∈ arr.
Proof. unfold pick. destruct arr; [done |]. apply list_elem_of_lookup_2. Qed.

(** Trial [i] of the screen is what the loop pushes in round [i]. *)
Lemma trials_lookup p ts i t :
  trials (Some p) = Some ts → ts !! i = Some t →
  trialAt (stimuli p) (buildCanonicalMap p)
    (uniqueInOrder [] (JsMap.values (buildCanonicalMap p))) i = Some t.
Proof.
  unfold trials. destruct (stimuli p) as [| s l] eqn:Hs.
  - by intros [= <-].
  - intros Hts%mapM_Some_1 Ht.
    destruct (Forall2_lookup_r _ _ _ i t Hts Ht) as (j & Hj & Hat).
    by apply lookup_seq in Hj as [-> _].
Qed.

Lemma JsMap_set_values {K V} `{EqDecision K} (P : V → Prop) (m : list (K * V)) k v :
  Forall P (JsMap.values m) → P v → Forall P (JsMap.values (JsMap.set m k v)).
Proof.
  unfold JsMap.values. intros Hm Hv. induction m as [| [k0 v0] m IH]; simpl.
  - by repeat constructor.
  - simpl in Hm. apply Forall_cons in Hm as [H0 Hm].
    destruct (decide (k = k0)); simpl; constructor; auto.
Qed.

Lemma JsMap_get_values {K V} `{EqDecision K} (m : list (K * V)) k v :
  JsMap.get m k = Some v → v ∈ JsMap.values m.
Proof.
  unfold JsMap.values. induction m as [| [k0 v0] m IH]; simpl; [done |].
  destruct (decide (k = k0)).
  - intros [= ->]. apply list_elem_of_here.
  - intros Hv. apply list_elem_of_further. by apply IH.
Qed.

(** The canonical colours are lower-case. *)
Lemma canonical_lower p :
  Forall (λ h, toLowerCase h = h) (JsMap.values (buildCanonicalMap p)).
Proof.
  unfold buildCanonicalMap.
  assert (∀ rs m, Forall (λ h, toLowerCase h = h) (JsMap.values m) →
                  Forall (λ h, toLowerCase h = h) (JsMap.values (fold_left canonicalStep rs m)))
    as Hfold.
  { induction rs as [| r rs IH]; intros m Hm; simpl; [done |].
    apply IH. unfold canonicalStep.
    repeat case_match; try done.
    apply JsMap_set_values; [done | apply toLowerCase_idem]. }
  apply Hfold. constructor.
Qed.

Lemma fallback_lower : Forall (λ h, toLowerCase h = h) fallbackHexes.
Proof. repeat constructor. Qed.

Lemma uniqueInOrder_nil {A} `{EqDecision A} (l : list A) :
  uniqueInOrder [] l = [] → l = [].
Proof.
  destruct l as [| x l]; [done |]. cbn [uniqueInOrder].
  destruct (decide (x ∈ [])) as [Hx | _]; [by apply elem_of_nil in Hx | done].
Qed.

(** X11. On a trial that expects "mismatch" the speed test shows a colour
    other than the learned colour of the stimulus (its canonical colour,
    or the fallback colour of the round when it has none) whenever the run
    has no canonical colour at all, or has a canonical colour other than
    the learned one. The colour shown is always a canonical colour of the
    run or a colour of the fallback palette. *)
Theorem mismatch_trial_differs (p : BatteryRunPayload) (ts : list Trial) (i : nat) (t : Trial) :
  trials (Some p) = Some ts →
  ts !! i = Some t →
  expectedMatch t = false →
  let canonicalColors := JsMap.values (buildCanonicalMap p) in
  ∃ learned,
    learnedHex p (stimulusText t) i = Some learned
    ∧ ((canonicalColors = [] ∨ ∃ h, h ∈ canonicalColors ∧ h ≠ learned) →
       shownHex t ≠ learned)
    ∧ (shownHex t ∈ canonicalColors ∨ shownHex t ∈ fallbackHexes).
Proof.
  intros Hts Ht Hexp canonicalColors.
  pose proof (trials_lookup p ts i t Hts Ht) as Hat.
  unfold trialAt, learnedHex in *.
  destruct (pick (stimuli p) (i * 7 + 3)) as [g0 |]; [| done].
  cbn [mbind option_bind] in Hat.
  destruct (match JsMap.get (buildCanonicalMap p) g0 with
            | Some h => Some h
            | None => pick fallbackHexes i
            end) as [learned |] eqn:Hlearned; [| done].
  cbn [mbind option_bind] in Hat.
  destruct (i mod 2 =? 0)%nat eqn:Hpar.
  { cbn [mbind option_bind] in Hat. injection Hat as <-. done. }
  fold canonicalColors in Hat.
  remember (uniqueInOrder [] canonicalColors) as hexes eqn:Hhexes.
  set (source := match hexes with [] => fallbackHexes | _ => hexes end) in *.
  set (pool := filter (λ h, toLowerCase h ≠ toLowerCase learned) source) in *.
  destruct (pick (match pool with [] => fallbackHexes | _ => pool end) (i * 13 + 1))
    as [shown |] eqn:Hshown; [| done].
  cbn [mbind option_bind] in Hat. injection Hat as <-.
  cbn [stimulusText shownHex].
  exists learned. split; [exact Hlearned |].
  assert (toLowerCase learned = learned) as Hll.
  { destruct (JsMap.get (buildCanonicalMap p) g0) as [h |] eqn:Hget.
    - injection Hlearned as <-.
      apply (proj1 (Forall_forall _ _) (canonical_lower p)). by eapply JsMap_get_values.
    - apply (proj1 (Forall_forall _ _) fallback_lower). by eapply pick_elem. }
  assert (∀ h, h ∈ source → h ∈ canonicalColors ∨ h ∈ fallbackHexes) as Hsource.
  { intros h Hh.
    assert (h ∈ fallbackHexes ∨ h ∈ hexes) as [? | Hin]; [| by right |].
    { subst source. destruct hexes; [by left | by right]. }
    rewrite Hhexes in Hin. apply elem_of_uniqueInOrder in Hin as [? _]. by left. }
  assert (∀ h, h ∈ source → toLowerCase h = h) as Hlower.
  { intros h [Hh | Hh]%Hsource.
    - by apply (proj1 (Forall_forall _ _) (canonical_lower p)).
    - by apply (proj1 (Forall_forall _ _) fallback_lower). }
  split.
  - intros Hother.
    assert (∃ h, h ∈ pool) as [h Hh].
    { destruct Hother as [Hnone | (h & Hh & Hne)].
      - assert (source = fallbackHexes) as Hsrc.
        { subst source. rewrite Hhexes, Hnone. done. }
        destruct (decide (learned = "#ff0000")) as [-> | Hne].
        + exists "#00ff00". subst pool. rewrite Hsrc. apply list_elem_of_filter.
          split; [done |]. by repeat constructor.
        + exists "#ff0000". subst pool. rewrite Hsrc. apply list_elem_of_filter.
          split; [| by repeat constructor].
          rewrite Hll. change (toLowerCase "#ff0000") with "#ff0000". congruence.
      - exists h.
        assert (h ∈ source) as Hsrc.
        { assert (h ∈ hexes) as Hin.
          { rewrite Hhexes. apply elem_of_uniqueInOrder. split; [done | apply not_elem_of_nil]. }
          subst source. destruct hexes; [by apply elem_of_nil in Hin | done]. }
        subst pool. apply list_elem_of_filter. split; [| done].
        rewrite Hll, (Hlower h Hsrc). done. }
    assert (shown ∈ pool) as [Hne _]%list_elem_of_filter.
    { destruct pool; [by apply elem_of_nil in Hh | by eapply pick_elem]. }
    intros ->. done.
  - destruct pool eqn:Hpool.
    + right. by eapply pick_elem.
    + apply Hsource. apply pick_elem in Hshown. rewrite <- Hpool in Hshown.
      subst pool. by apply list_elem_of_filter in Hshown as [_ ?].
Qed.

(** "A" red and "B" green: trial 1 expects a mismatch and shows "A", whose
    colour is red, in green. *)
Lemma mismatch_trial_differs_witness :
  ∃ ts t,
    trials (Some (Examples.withResponses [Examples.answer KGrapheme "A" 0 "#ff0000";
                                          Examples.answer KGrapheme "B" 0 "#00ff00"]))
    = Some ts
    ∧ ts !! 1%nat = Some t
    ∧ stimulusText t = "A" ∧ shownHex t ≠ "#ff0000".
Proof.
  set (p := Examples.withResponses [Examples.answer KGrapheme "A" 0 "#ff0000";
                                    Examples.answer KGrapheme "B" 0 "#00ff00"]).
  destruct (trials (Some p)) as [ts |] eqn:Hts; [| by vm_compute in Hts].
  destruct (ts !! 1%nat) as [t |] eqn:Ht.
  - exists ts, t. split; [done |]. split; [done |].
    assert (t = {| stimulusText := "A"; expectedMatch := false; shownHex := "#00ff00" |}) as Heq.
    { vm_compute in Hts. injection Hts as <-. vm_compute in Ht. by injection Ht as <-. }
    assert (expectedMatch t = false) as Hexp by (by rewrite Heq).
    destruct (mismatch_trial_differs p ts 1 t Hts Ht Hexp) as (learned & Hlearned & Hdiff & _).
    split; [by rewrite Heq |].
    rewrite Heq in Hlearned. vm_compute in Hlearned. injection Hlearned as <-.
    apply Hdiff. right. exists "#00ff00". split; [| done].
    vm_compute. apply list_elem_of_further, list_elem_of_here.
  - vm_compute in Hts. injection Hts as <-. vm_compute in Ht. discriminate Ht.
Defined.

(** With red as the only canonical colour, trial 3 expects a mismatch and
    shows red all the same: no other colour is in the pool, and the
    fallback palette is read at a position that holds red. *)
Example mismatch_trial_shows_learned :
  ∃ ts t,
    trials (Some (Examples.withResponses [Examples.answer KGrapheme "A" 0 "#ff0000"])) = Some ts
    ∧ ts !! 3%nat = Some t
    ∧ expectedMatch t = false
    ∧ learnedHex (Examples.withResponses [Examples.answer KGrapheme "A" 0 "#ff0000"])
        (stimulusText t) 3 = Some (shownHex t).
Proof. vm_compute. eexists _, _. repeat split; reflexivity. Qed.

End SpeedTest.

Section SpeedSession.
Import JsString BatteryTypes Congruency SpeedSpec.




(** What [answer] does when it passes its guards. *)
Lemma answer_step ts st p t c n1 n2 saved :
  payload st = Some p → ts !! trialIndex st = Some t → saving st = false →
  ∃ p',
    answer ts st c n1 n2 saved
    = ({| payload := Some p';
          trialIndex := if saved && negb (length ts <=? S (trialIndex st))%nat
                        then S (trialIndex st) else trialIndex st;
          showAt := showAt st; saving := false |},
       if saved && (length ts <=? S (trialIndex st))%nat then ToPicker else Stay)
    ∧ pickerResponses p' = pickerResponses p
    ∧ version p' = version p
    ∧ congruencyResponses p' = congruencyResponses p ++ [buildResponse t st c n1 n2].
Proof.
  intros Hp Ht Hs. unfold answer. rewrite Hp, Ht, Hs.
  destruct saved; simpl; [destruct (length ts <=? S (trialIndex st))%nat |];
    simpl; eexists; (split; [reflexivity | done]).
Qed.





(** X13. A save that fails leaves the response in the payload and the
    screen on the same trial, so that answering again stores a second
    response for that trial: both carry the same [trialIndex]. *)
Theorem failed_save_keeps_response (ts : list Trial) (st : State) (p : BatteryRunPayload)
    (t : Trial) (c1 c2 : Choice) (n1 m1 n2 m2 : Z) (saved : bool) :
  payload st = Some p →
  ts !! trialIndex st = Some t →
  saving st = false →
  let st1 := (answer ts st c1 n1 m1 false).1 in
  let st2 := (answer ts st1 c2 n2 m2 saved).1 in
  (answer ts st c1 n1 m1 false).2 = Stay
  ∧ trialIndex st1 = trialIndex st
  ∧ ∃ p1 p2,
      payload st1 = Some p1 ∧ payload st2 = Some p2
      ∧ congruencyResponses p1 = congruencyResponses p ++ [buildResponse t st c1 n1 m1]
      ∧ congruencyResponses p2
        = congruencyResponses p ++ [buildResponse t st c1 n1 m1; buildResponse t st c2 n2 m2]
      ∧ c_trialIndex (buildResponse t st c1 n1 m1) = c_trialIndex (buildResponse t st c2 n2 m2).
Proof.
  intros Hp Ht Hs st1 st2.
  destruct (answer_step ts st p t c1 n1 m1 false Hp Ht Hs) as (p1 & Hans1 & _ & _ & Hcr1).
  subst st1 st2. rewrite Hans1. cbn [fst snd andb].
  set (st1 := {| payload := Some p1; trialIndex := trialIndex st; showAt := showAt st;
                 saving := false |}).
  destruct (answer_step ts st1 p1 t c2 n2 m2 saved eq_refl Ht eq_refl)
    as (p2 & Hans2 & _ & _ & Hcr2).
  rewrite Hans2. cbn [fst payload trialIndex].
  split; [done |]. split; [done |].
  exists p1, p2. split_and!; try done.
  rewrite Hcr2, Hcr1, <- (assoc_L (++)). done.
Qed.

(** "Match" on the first trial of the run with "A" red and "B" green, the
    save fails, "Match" again: two responses with trial index 0. *)
Lemma failed_save_keeps_response_witness :
  ∃ ts t p2,
    trials (Some Samples.redGreen) = Some ts
    ∧ ts !! 0%nat = Some t
    ∧ payload (answer ts (answer ts Samples.speedStart ChoseMatch 1400 1401 false).1
                 ChoseMatch 1900 1901 true).1
      = Some p2
    ∧ c_trialIndex <$> congruencyResponses p2 = [0; 0].
Proof.
  destruct (trials (Some Samples.redGreen)) as [ts |] eqn:Hts; [| by vm_compute in Hts].
  destruct (ts !! 0%nat) as [t |] eqn:Ht.
  - destruct (failed_save_keeps_response ts Samples.speedStart Samples.redGreen t
                ChoseMatch ChoseMatch 1400 1401 1900 1901 true eq_refl Ht eq_refl)
      as (_ & _ & p1 & p2 & _ & Hp2 & _ & Hcr & _).
    exists ts, t, p2. split; [reflexivity |]. split; [exact Ht |]. split; [exact Hp2 |].
    rewrite Hcr. reflexivity.
  - vm_compute in Hts. injection Hts as <-. discriminate Ht.
Defined.

End SpeedSession.

(** ** The random shuffle and the builders of the library
       (SynesthesiaBattery.ts) *)
Section RandomShuffle.
Import SynesthesiaBattery.
Variable oracle : nat → Q.
Hypothesis oracle_unit : unitInterval oracle.

(** [x | 0] of a number of [0, 2^31) is its integer part. *)
Lemma toInt32_floor x : (0 <= x)%Q → Qfloor x < 2147483648 → toInt32 x = Qfloor x.
Proof.
  intros H0 Hlt. unfold toInt32. cbv zeta.
  assert (0 ≤ Qnum x) as Hnum.
  { unfold Qle in H0. simpl in H0. lia. }
  assert (Qnum x ÷ Z.pos (Qden x) = Qfloor x) as ->.
  { destruct x as [n d]. simpl in *. apply Z.quot_div_nonneg; lia. }
  assert (0 ≤ Qfloor x).
  { change 0 with (Qfloor (inject_Z 0)). by apply Qfloor_resp_le. }
  rewrite Z.mod_small; lia.
Qed.

(** The index that [shuffleInPlace] draws in the round for position [i]. *)
Lemma shuffle_index_range u (i : nat) :
  (0 <= u)%Q → (u < 1)%Q → Z.of_nat i < 2147483648 →
  0 ≤ toInt32 (u * inject_Z (Z.of_nat i + 1)) ≤ Z.of_nat i.
Proof.
  intros H0 H1 Hi.
  pose proof (random_index_range u (Z.of_nat i + 1) H0 H1 ltac:(lia)) as Hr.
  rewrite toInt32_floor; [lia | | lia].
  apply Qmult_le_0_compat; [done |]. change 0%Q with (inject_Z 0). rewrite <- Zle_Qle. lia.
Qed.

Lemma shuffleInPlaceLoop_Permutation {T} (i : nat) (a : JsArray.t T) :
  (i ≤ length (JsArray.items a) - 1)%nat → Z.of_nat (length (JsArray.items a)) ≤ 2147483648 →
  returns oracle (shuffleInPlaceLoop i a)
    (λ a', JsArray.items a' ≡ₚ JsArray.items a).
Proof.
  revert a. induction i as [| i IH]; intros a Hi Hlen; cbn [shuffleInPlaceLoop].
  - by apply returns_ret.
  - eapply returns_bind; [by apply returns_random |]. intros u [Hu0 Hu1]. cbv zeta.
    pose proof (shuffle_index_range u (S i) Hu0 Hu1 ltac:(lia)) as Hj.
    destruct (JsArray_swap_in_range a (Z.of_nat (S i)) (toInt32 (u * inject_Z (Z.of_nat (S i) + 1))))
      as [Hperm _]; [unfold JsArray.length; lia.. |].
    eapply returns_impl.
    + apply IH; rewrite (Permutation_length Hperm); lia.
    + intros a' Ha'. by rewrite Ha'.
Qed.

Lemma shuffleInPlace_Permutation {T} (arr : list T) :
  Z.of_nat (length arr) ≤ 2147483648 →
  returns oracle (shuffleInPlace arr) (λ out, ∃ l, out = Some <$> l ∧ l ≡ₚ arr).
Proof.
  intros Hlen. unfold shuffleInPlace.
  eapply returns_bind.
  - apply shuffleInPlaceLoop_Permutation; simpl; rewrite length_fmap; lia.
  - intros a Ha. apply returns_ret. simpl in Ha.
    destruct (Permutation_map_inv Some arr Ha) as (l & Hl & Hp).
    exists l. split; [exact Hl | by symmetry].
Qed.

(** What a loop pushes, seen through a projection of the pushed elements. *)
Lemma returns_forEach_fmap {A B C} (f : A → Rand (list B)) (proj : B → C) (g : A → list C)
    (P : B → Prop) (l : list A) :
  (∀ x, x ∈ l → returns oracle (f x) (λ ys, proj <$> ys = g x ∧ Forall P ys)) →
  returns oracle (forEach f l) (λ out, proj <$> out = l ≫= g ∧ Forall P out).
Proof.
  induction l as [| x l IH]; intros Hf; cbn [forEach].
  - by apply returns_ret.
  - eapply returns_bind; [apply Hf, list_elem_of_here |]. intros ys [Hys HPys].
    eapply returns_bind; [apply IH; intros; apply Hf; by apply list_elem_of_further |].
    intros zs [Hzs HPzs]. apply returns_ret.
    rewrite fmap_app, Hys, Hzs, bind_cons. split; [done | by apply Forall_app].
Qed.

End RandomShuffle.

Section LibraryBuilders.
Import SynesthesiaBattery LibrarySpec.
Context {num : Type}.
Variable randomSuffix : Q → string.
Variable oracle : nat → Q.
Hypothesis oracle_unit : unitInterval oracle.

(** *** A new run *)

Lemma unshuffledPickerTrials_planned stimuli repeats :
  returns oracle (unshuffledPickerTrials randomSuffix stimuli repeats)
    (λ out, (λ t, (pt_grapheme t, pt_repeatIndex t)) <$> out = stimulusRepeats stimuli repeats).
Proof.
  unfold unshuffledPickerTrials, stimulusRepeats.
  eapply returns_impl.
  - apply (returns_forEach_fmap oracle _ (λ t, (pt_grapheme t, pt_repeatIndex t))
             (λ g, r ← seq 0 (Z.to_nat repeats); [(g, Z.of_nat r)]) (λ _, True)).
    intros g _.
    apply (returns_forEach_fmap oracle _ (λ t, (pt_grapheme t, pt_repeatIndex t))
             (λ r, [(g, Z.of_nat r)]) (λ _, True)).
    intros r _. unfold pickerTrialOf.
    eapply returns_bind; [apply returns_random_any |]. intros u _.
    apply returns_ret. split; [done | by repeat constructor].
  - by intros out [? _].
Qed.

Lemma stimulusRepeats_length stimuli repeats :
  length (stimulusRepeats stimuli repeats) = (length stimuli * Z.to_nat repeats)%nat.
Proof.
  unfold stimulusRepeats. apply length_bind_const. intros g.
  rewrite (length_bind_const _ _ 1%nat) by done. rewrite length_seq. lia.
Qed.

(** X14. [buildGraphemeBattery] plans every stimulus with every repeat
    index exactly as often as it is listed: for draws of [Math.random()] in
    [0, 1) and at most 2^31 trials, it returns a run with the given id and
    creation time whose trials, none of them [undefined], are a
    rearrangement of the trials of all pairs of a stimulus and a repeat
    index below [repeats]. *)
Theorem buildGraphemeBattery_complete (runId : string) (stimuli : list string)
    (repeats now : Z) :
  Z.of_nat (length stimuli * Z.to_nat repeats) ≤ 2147483648 →
  returns oracle (buildGraphemeBattery randomSuffix runId stimuli repeats now)
    (λ run,
       new_runId run = runId ∧ new_createdAt run = now
       ∧ ∃ l, new_pickerTrials run = Some <$> l
              ∧ length l = (length stimuli * Z.to_nat repeats)%nat
              ∧ (λ t, (pt_grapheme t, pt_repeatIndex t)) <$> l
                ≡ₚ stimulusRepeats stimuli repeats).
Proof.
  intros Hsize. unfold buildGraphemeBattery.
  eapply returns_bind; [apply unshuffledPickerTrials_planned |]. intros trials Htrials.
  assert (length trials = (length stimuli * Z.to_nat repeats)%nat) as Hlen.
  { by rewrite <- (length_fmap (λ t, (pt_grapheme t, pt_repeatIndex t))), Htrials,
      stimulusRepeats_length. }
  eapply returns_bind.
  - apply (shuffleInPlace_Permutation oracle oracle_unit). by rewrite Hlen.
  - intros shuffled (l & -> & Hperm). apply returns_ret. cbn [new_runId new_createdAt new_pickerTrials].
    split_and!; try done. exists l. split_and!; [done | |].
    + by rewrite (Permutation_length Hperm).
    + by rewrite Hperm, Htrials.
Qed.

(** *** The colour of an incongruent trial *)

Lemma rgb_differs (c target : Rgb) :
  negb ((r c =? r target) && (g c =? g target) && (b c =? b target)) = true ↔ c ≠ target.
Proof.
  destruct c as [r1 g1 b1], target as [r2 g2 b2]. simpl.
  rewrite negb_true_iff, !andb_false_iff, !Z.eqb_neq. split.
  - intros Hne [= -> -> ->]. lia.
  - intros Hne.
    destruct (decide (r1 = r2)) as [-> |]; [| tauto].
    destruct (decide (g1 = g2)) as [-> |]; [| tauto].
    destruct (decide (b1 = b2)) as [-> |]; [| tauto]. done.
Qed.

Lemma drawDifferent_spec k all target first :
  all ≠ [] →
  returns oracle (drawDifferent k all target first) (λ c, (c ∈ all ∧ c ≠ target) ∨ c = first).
Proof.
  intros Hne. induction k as [| k IH]; cbn [drawDifferent].
  - apply returns_ret. by right.
  - eapply returns_bind; [by apply returns_random |]. intros u [Hu0 Hu1]. cbv zeta.
    destruct (random_index_range u (Z.of_nat (length all)) Hu0 Hu1) as [Hi0 Hi1].
    { destruct all; [done | simpl; lia]. }
    destruct (Z.ltb_spec (Qfloor (u * inject_Z (Z.of_nat (length all)))) 0); [lia |].
    destruct (lookup_lt_is_Some_2 all (Z.to_nat (Qfloor (u * inject_Z (Z.of_nat (length all))))))
      as [c Hc]; [lia |].
    rewrite Hc.
    destruct (negb _) eqn:Hdiff; [| exact IH].
    apply returns_ret. left. split; [by eapply list_elem_of_lookup_2 | by apply rgb_differs].
Qed.

Lemma pickDifferentColor_spec all target :
  returns oracle (pickDifferentColor all target)
    (λ c, ((length all ≤ 1)%nat → c = target)
          ∧ ((2 ≤ length all)%nat → c ∈ all ∧ (c = target → head all = Some target))).
Proof.
  unfold pickDifferentColor. destruct all as [| first [| second rest]].
  - apply returns_ret. split; [done | simpl; lia].
  - apply returns_ret. split; [done | simpl; lia].
  - eapply returns_impl; [by apply drawDifferent_spec |].
    intros c Hc. split; [simpl; lia |]. intros _.
    destruct Hc as [[Hin Hne] | ->].
    + split; [done | done].
    + split; [apply list_elem_of_here |]. by intros ->.
Qed.

(** X15. [pickDifferentColor(all, target)], for draws in [0, 1): with at
    most one colour in [all] it returns the target; with two or more it
    returns a colour of [all], and that colour is the target only when
    [all[0]] is the target, which is what the function falls back to after
    twenty draws. So a target other than the first colour always gets a
    different colour. *)
Theorem pickDifferentColor_differs (all : list Rgb) (target : Rgb) :
  returns oracle (pickDifferentColor all target)
    (λ c, ((length all ≤ 1)%nat → c = target)
          ∧ ((2 ≤ length all)%nat →
             c ∈ all ∧ (c = target → head all = Some target)
             ∧ (head all ≠ Some target → c ≠ target))).
Proof.
  eapply returns_impl; [apply pickDifferentColor_spec |].
  intros c [Hshort Hlong]. split; [done |].
  intros [Hin Hfirst]%Hlong. split_and!; [done | done |].
  intros Hhead Hc. by apply Hhead, Hfirst.
Qed.

(** *** The congruency trials *)

Lemma lastColorByG_NoDup (run : @BatteryRun num) : NoDup (JsMap.keys (lastColorByG run)).
Proof.
  unfold lastColorByG.
  assert (∀ (rs : list (@PickerResponse num)) m, NoDup (JsMap.keys m) →
                  NoDup (JsMap.keys (fold_left lastColorStep rs m))) as Hfold.
  { induction rs as [| resp rs IH]; intros m Hm; simpl; [done |].
    apply IH. unfold lastColorStep. repeat case_match; try done.
    by apply JsMap_set_NoDup. }
  apply Hfold. constructor.
Qed.

Lemma trialPair_spec (m : list (string * Rgb)) g0 target i :
  JsMap.get m g0 = Some target →
  returns oracle (trialPair randomSuffix (JsMap.values m) g0 target i)
    (λ ts, (λ t, (ct_grapheme t, ct_isCongruent t)) <$> ts = [(g0, true); (g0, false)]
           ∧ Forall (wellColoured m) ts).
Proof.
  intros Hget. unfold trialPair.
  eapply returns_bind; [apply returns_random_any |]. intros u1 _.
  eapply returns_bind; [apply pickDifferentColor_spec |]. intros other [Hshort Hlong].
  eapply returns_bind; [apply returns_random_any |]. intros u2 _.
  apply returns_ret. split; [done |].
  pose proof (JsMap_get_values m g0 target Hget) as Hin.
  constructor; [| constructor; [| constructor]].
  - exists target. done.
  - exists target. cbn [ct_grapheme ct_isCongruent ct_shownRgb]. split; [done |].
    destruct (decide (length (JsMap.values m) ≤ 1)%nat) as [Hle | Hgt].
    + rewrite (Hshort Hle). split; [done |]. intros _.
      destruct (JsMap.values m) as [| c [| c' l]]; simpl in Hle; [| | lia].
      * by apply elem_of_nil in Hin.
      * by apply list_elem_of_singleton in Hin as ->.
    + apply Hlong. lia.
Qed.

Lemma plannedCongruency_length graphemes perGrapheme :
  length (plannedCongruency graphemes perGrapheme)
  = (length graphemes * (Z.to_nat perGrapheme * 2))%nat.
Proof.
  unfold plannedCongruency. apply length_bind_const. intros g0.
  rewrite (length_bind_const _ _ 2%nat) by done. by rewrite length_seq.
Qed.

Lemma unshuffledCongruencyTrials_spec (run : @BatteryRun num) perGrapheme :
  returns oracle (unshuffledCongruencyTrials randomSuffix run perGrapheme)
    (λ ts, (λ t, (ct_grapheme t, ct_isCongruent t)) <$> ts
           = plannedCongruency (JsMap.keys (lastColorByG run)) perGrapheme
           ∧ Forall (wellColoured (lastColorByG run)) ts).
Proof.
  unfold unshuffledCongruencyTrials. set (m := lastColorByG run).
  eapply returns_impl.
  - apply (returns_forEach_fmap oracle _ (λ t, (ct_grapheme t, ct_isCongruent t))
             (λ e : string * Rgb, _ ← seq 0 (Z.to_nat perGrapheme); [(e.1, true); (e.1, false)])
             (wellColoured m)).
    intros [g0 target] Hentry.
    apply (returns_forEach_fmap oracle _ (λ t, (ct_grapheme t, ct_isCongruent t))
             (λ _ : nat, [(g0, true); (g0, false)]) (wellColoured m)).
    intros i _. apply trialPair_spec.
    apply JsMap_elem_of_get; [apply lastColorByG_NoDup | done].
  - intros ts [Hproj Hcol]. split; [| done].
    rewrite Hproj. unfold plannedCongruency, JsMap.keys. by rewrite list_fmap_bind.
Qed.

(** X16. [buildCongruencyTrialsFromPicker] is balanced and never shows a
    colour from outside the run. For draws in [0, 1) and at most 2^31
    trials it returns a list without [undefined] entries that holds, for
    every grapheme with a colour, [perGrapheme] congruent and
    [perGrapheme] incongruent trials, and no others. A congruent trial
    shows the colour of its grapheme. An incongruent trial shows the
    colour of some grapheme of the run, and shows the colour of its own
    grapheme only if that is the colour of the first grapheme of the map. *)
Theorem buildCongruencyTrialsFromPicker_balanced (run : @BatteryRun num) (perGrapheme : Z) :
  let m := lastColorByG run in
  Z.of_nat (length m * (Z.to_nat perGrapheme * 2)) ≤ 2147483648 →
  returns oracle (buildCongruencyTrialsFromPicker randomSuffix run perGrapheme)
    (λ out, ∃ l, out = Some <$> l
                 ∧ (λ t, (ct_grapheme t, ct_isCongruent t)) <$> l
                   ≡ₚ plannedCongruency (JsMap.keys m) perGrapheme
                 ∧ Forall (wellColoured m) l).
Proof.
  intros m Hsize. unfold buildCongruencyTrialsFromPicker.
  eapply returns_bind; [apply unshuffledCongruencyTrials_spec |]. intros trials [Hproj Hcol].
  assert (length trials = (length m * (Z.to_nat perGrapheme * 2))%nat) as Hlen.
  { rewrite <- (length_fmap (λ t, (ct_grapheme t, ct_isCongruent t))), Hproj,
      plannedCongruency_length. unfold JsMap.keys. by rewrite length_fmap. }
  eapply returns_impl.
  - apply (shuffleInPlace_Permutation oracle oracle_unit). by rewrite Hlen.
  - intros out (l & -> & Hperm). exists l. split_and!; [done | |].
    + by rewrite Hperm, Hproj.
    + by rewrite Hperm.
Qed.

End LibraryBuilders.

Lemma halves_unit : unitInterval Samples.halves.
Proof. intros k. split; [discriminate | reflexivity]. Qed.

(** "A" and "B", twice each, with all draws 1/2: four trials. *)
Lemma buildGraphemeBattery_complete_witness :
  ∃ run draws,
    SynesthesiaBattery.buildGraphemeBattery Samples.noSuffix "run" ["A"; "B"] 2 7
      Samples.halves 0%nat = Some (run, draws)
    ∧ length (SynesthesiaBattery.new_pickerTrials run) = 4%nat.
Proof.
  destruct (buildGraphemeBattery_complete Samples.noSuffix Samples.halves halves_unit
              "run" ["A"; "B"] 2 7 ltac:(simpl; lia) 0%nat)
    as (run & draws & Hrun & _ & _ & l & Hl & Hlen & _).
  exists run, draws. split; [exact Hrun |].
  by rewrite Hl, length_fmap, Hlen.
Defined.

(** From red and green, with green as the target, the colour is not
    green. *)
Lemma pickDifferentColor_differs_witness :
  ∃ c draws,
    SynesthesiaBattery.pickDifferentColor [Examples.red; Examples.green] Examples.green
      Samples.halves 0%nat = Some (c, draws)
    ∧ c ≠ Examples.green.
Proof.
  destruct (pickDifferentColor_differs Samples.halves halves_unit
              [Examples.red; Examples.green] Examples.green 0%nat)
    as (c & draws & Hc & _ & Hlong).
  exists c, draws. split; [exact Hc |].
  apply Hlong; [simpl; lia | discriminate].
Defined.

(** "A" red and "B" green, two trials of each kind per grapheme: eight
    trials. *)
Lemma buildCongruencyTrialsFromPicker_balanced_witness :
  ∃ out draws,
    SynesthesiaBattery.buildCongruencyTrialsFromPicker Samples.noSuffix
      (Examples.libRun [Examples.libAnswer "A" 0 Examples.red;
                        Examples.libAnswer "B" 0 Examples.green] []) 2
      Samples.halves 0%nat = Some (out, draws)
    ∧ length out = 8%nat.
Proof.
  destruct (buildCongruencyTrialsFromPicker_balanced Samples.noSuffix Samples.halves halves_unit
              (Examples.libRun [Examples.libAnswer "A" 0 Examples.red;
                                Examples.libAnswer "B" 0 Examples.green] []) 2
              ltac:(simpl; lia) 0%nat)
    as (out & draws & Hout & l & Hl & Hperm & _).
  exists out, draws. split; [exact Hout |].
  rewrite Hl, length_fmap.
  rewrite <- (length_fmap (λ t, (SynesthesiaBattery.ct_grapheme t,
                                SynesthesiaBattery.ct_isCongruent t))).
  by rewrite (Permutation_length Hperm).
Defined.

(** ** Incongruent trials that show their own colour (SynesthesiaBattery.ts) *)
Section OwnColour.
Import SynesthesiaBattery LibrarySpec.

(** A computation has one result: what holds of it twice holds together. *)
Lemma returns_and {A} (oracle : nat → Q) (m : Rand A) (P R : A → Prop) :
  returns oracle m P → returns oracle m R → returns oracle m (λ x, P x ∧ R x).
Proof.
  intros HP HR n. destruct (HP n) as (x & n1 & Hx & Px). destruct (HR n) as (y & n2 & Hy & Ry).
  rewrite Hx in Hy. injection Hy as <- <-. by exists x, n1.
Qed.

Lemma elem_of_plannedCongruency graphemes perGrapheme g0 (c : bool) :
  (g0, c) ∈ plannedCongruency graphemes perGrapheme ↔ g0 ∈ graphemes ∧ 0 < perGrapheme.
Proof.
  unfold plannedCongruency. rewrite list_elem_of_bind. split.
  - intros (g1 & Hin & Hg1). apply list_elem_of_bind in Hin as (i & Hin & Hi).
    apply elem_of_seq in Hi.
    assert (g1 = g0) as <-.
    { apply elem_of_cons in Hin as [[= <- _] | Hin]; [done |].
      by apply list_elem_of_singleton in Hin as [= <- _]. }
    split; [done | lia].
  - intros [Hg0 Hper]. exists g0. split; [| done].
    apply list_elem_of_bind. exists 0%nat. split.
    + destruct c; [apply list_elem_of_here | apply list_elem_of_further, list_elem_of_here].
    + apply elem_of_seq. lia.
Qed.

End OwnColour.

(** C10. Incongruent trials are not guaranteed to show a different colour.
    (1) For every run whose coloured picker responses yield at most one
    distinct canonical colour, and random draws in [0, 1),
    [buildCongruencyTrialsFromPicker] returns; every trial it emits with
    [isCongruent === false] shows the canonical colour of its own
    grapheme; and such trials are emitted: up to 2^31 trials the result
    has no [undefined] entry and holds [perGrapheme] congruent and
    [perGrapheme] incongruent trials of every coloured grapheme, so that
    with [perGrapheme > 0] every coloured grapheme has an incongruent
    trial that shows its own colour. (2) The reason:
    [pickDifferentColor(all, target)] returns [target] whenever the pool
    has at most one colour. (3) With a larger pool it can still return the
    target, through the [all[0]] fallback after twenty draws that all hit
    the target, and (4) the builder then emits an incongruent trial in its
    own colour although the run has two colours: with "A" red, "B" green
    and all draws 0, the incongruent trial of "A" shows red. *)
Theorem incongruent_trials_show_own_color {num} (randomSuffix : Q → string)
    (run : @SynesthesiaBattery.BatteryRun num) (perGrapheme : Z) (oracle : nat → Q) :
  unitInterval oracle →
  (∀ c1 c2, c1 ∈ JsMap.values (SynesthesiaBattery.lastColorByG run) →
            c2 ∈ JsMap.values (SynesthesiaBattery.lastColorByG run) → c1 = c2) →
  returns oracle (SynesthesiaBattery.buildCongruencyTrialsFromPicker randomSuffix run perGrapheme)
    (fun out =>
       let m := SynesthesiaBattery.lastColorByG run in
       (∀ t, Some t ∈ out → SynesthesiaBattery.ct_isCongruent t = false →
             JsMap.get m (SynesthesiaBattery.ct_grapheme t)
             = Some (SynesthesiaBattery.ct_shownRgb t))
       ∧ (Z.of_nat (length m * (Z.to_nat perGrapheme * 2)) ≤ 2147483648 →
          ∃ l, out = Some <$> l
               ∧ (λ t, (SynesthesiaBattery.ct_grapheme t, SynesthesiaBattery.ct_isCongruent t)) <$> l
                 ≡ₚ LibrarySpec.plannedCongruency (JsMap.keys m) perGrapheme
               ∧ (0 < perGrapheme →
                  ∀ g0 target, JsMap.get m g0 = Some target →
                    ∃ t, t ∈ l ∧ SynesthesiaBattery.ct_grapheme t = g0
                         ∧ SynesthesiaBattery.ct_isCongruent t = false
                         ∧ SynesthesiaBattery.ct_shownRgb t = target)))
  ∧ (∀ all target n, (length all ≤ 1)%nat →
       SynesthesiaBattery.pickDifferentColor all target oracle n = Some (target, n))
  ∧ SynesthesiaBattery.pickDifferentColor [Examples.red; Examples.green] Examples.red
      (fun _ => 0%Q) 0%nat = Some (Examples.red, 20%nat)
  ∧ (∃ out draws t,
       SynesthesiaBattery.buildCongruencyTrialsFromPicker (fun _ => "")
         (Examples.libRun [Examples.libAnswer "A" 0 Examples.red;
                           Examples.libAnswer "B" 0 Examples.green] []) 1
         (fun _ => 0%Q) 0%nat = Some (out, draws)
       ∧ Some t ∈ out
       ∧ SynesthesiaBattery.ct_grapheme t = "A"
       ∧ SynesthesiaBattery.ct_isCongruent t = false
       ∧ SynesthesiaBattery.ct_shownRgb t = Examples.red
       ∧ JsMap.get (SynesthesiaBattery.lastColorByG
                      (Examples.libRun [Examples.libAnswer "A" 0 Examples.red;
                                        Examples.libAnswer "B" 0 Examples.green] [])) "A"
         = Some Examples.red).
Proof.
  intros Ho Hone. split_and!.
  - unfold SynesthesiaBattery.buildCongruencyTrialsFromPicker.
    set (m := SynesthesiaBattery.lastColorByG run) in *.
    eapply returns_bind.
    { apply returns_and;
        [by apply (unshuffledCongruencyTrials_same randomSuffix oracle run perGrapheme)
        | apply (unshuffledCongruencyTrials_spec randomSuffix oracle Ho run perGrapheme)]. }
    intros trials [Hown [Hproj _]]. fold m in Hown, Hproj.
    assert (length trials = (length m * (Z.to_nat perGrapheme * 2))%nat) as Hlen.
    { rewrite <- (length_fmap (λ t, (SynesthesiaBattery.ct_grapheme t,
                                    SynesthesiaBattery.ct_isCongruent t))), Hproj,
        plannedCongruency_length. unfold JsMap.keys. by rewrite length_fmap. }
    destruct (decide (Z.of_nat (length m * (Z.to_nat perGrapheme * 2)) ≤ 2147483648))
      as [Hsize | Hsize].
    + eapply returns_impl.
      { apply returns_and; [apply shuffleInPlace_keeps |].
        apply (shuffleInPlace_Permutation oracle Ho). by rewrite Hlen. }
      intros out [Hkeeps (l & -> & Hperm)]. cbv zeta. split.
      * intros t Ht _. apply Hkeeps in Ht. by apply (proj1 (Forall_forall _ _) Hown).
      * intros _. exists l. split; [reflexivity |]. split; [by rewrite Hperm, Hproj |].
        intros Hper g0 target Hget.
        assert ((g0, false) ∈ (λ t, (SynesthesiaBattery.ct_grapheme t,
                                     SynesthesiaBattery.ct_isCongruent t)) <$> l) as Hin.
        { rewrite Hperm, Hproj. apply elem_of_plannedCongruency. split; [| done].
          destruct (decide (g0 ∈ JsMap.keys m)) as [| Hnot]; [done |].
          apply JsMap_get_None in Hnot. congruence. }
        apply list_elem_of_fmap in Hin as (t & [= Hg Hc] & Ht).
        exists t. split_and!; [done | done | done |].
        assert (t ∈ trials) as Ht' by (by rewrite <- Hperm).
        pose proof (proj1 (Forall_forall _ _) Hown t Ht') as Hshown.
        cbv beta in Hshown. rewrite <- Hg, Hget in Hshown. by injection Hshown.
    + eapply returns_impl; [apply shuffleInPlace_keeps |].
      intros out Hkeeps. cbv zeta. split; [| by intros ?].
      intros t Ht _. apply Hkeeps in Ht. by apply (proj1 (Forall_forall _ _) Hown).
  - intros all target n Hlen. by apply pickDifferentColor_short.
  - reflexivity.
  - vm_compute. eexists _, _, _. split; [reflexivity |].
    split; [apply list_elem_of_here |]. split_and!; reflexivity.
Qed.

(** A run in which "Q" was answered red twice, each draw 0: four trials
    are emitted, two of them incongruent, and both show red. *)
Lemma incongruent_trials_show_own_color_witness :
  ∃ out draws t,
    SynesthesiaBattery.buildCongruencyTrialsFromPicker (fun _ => "")
      (Examples.libRun [Examples.libAnswer "Q" 0 Examples.red;
                        Examples.libAnswer "Q" 1 Examples.red] []) 2 (fun _ => 0%Q) 0%nat
    = Some (out, draws)
    ∧ length out = 4%nat
    ∧ Some t ∈ out
    ∧ SynesthesiaBattery.ct_grapheme t = "Q"
    ∧ SynesthesiaBattery.ct_isCongruent t = false
    ∧ SynesthesiaBattery.ct_shownRgb t = Examples.red
    ∧ ∀ t', Some t' ∈ out → SynesthesiaBattery.ct_isCongruent t' = false →
            SynesthesiaBattery.ct_shownRgb t' = Examples.red.
Proof.
  destruct (proj1 (incongruent_trials_show_own_color (fun _ => "")
              (Examples.libRun [Examples.libAnswer "Q" 0 Examples.red;
                                Examples.libAnswer "Q" 1 Examples.red] []) 2 (fun _ => 0%Q)
              ltac:(intros k; split; reflexivity || discriminate)
              ltac:(intros c1 c2 H1%list_elem_of_singleton H2%list_elem_of_singleton; congruence))
            0%nat) as (out & draws & Hout & Hown & Hemit).
  destruct Hemit as (l & -> & Hperm & Hexists); [vm_compute; discriminate |].
  destruct (Hexists ltac:(lia) "Q" Examples.red eq_refl) as (t & Ht & Hg & Hc & Hs).
  exists (Some <$> l), draws, t. split; [exact Hout |]. split_and!; try done.
  - rewrite length_fmap.
    rewrite <- (length_fmap (λ t, (SynesthesiaBattery.ct_grapheme t,
                                  SynesthesiaBattery.ct_isCongruent t))).
    by rewrite (Permutation_length Hperm).
  - apply list_elem_of_fmap. by exists t.
  - intros t' Ht' Hinc. specialize (Hown t' Ht' Hinc).
    assert (SynesthesiaBattery.ct_grapheme t' = "Q") as Hq.
    { destruct (decide (SynesthesiaBattery.ct_grapheme t' = "Q")) as [| Hne]; [done |].
      simpl in Hown. rewrite decide_False in Hown by done. discriminate Hown. }
    rewrite Hq in Hown. by injection Hown as <-.
Defined.

(** ** The overall score (SynesthesiaBattery.ts) *)
Section OverallScore.
Import SynesthesiaBattery ScoreSpec.
Context {num : Type} `{JsNumber num} `{JsMath num}.
Variable localeCompare : string → string → Z.

Lemma uniqueInOrder_seen {A} `{EqDecision A} (s1 s2 l : list A) :
  (∀ x, x ∈ s1 ↔ x ∈ s2) → uniqueInOrder s1 l = uniqueInOrder s2 l.
Proof.
  revert s1 s2. induction l as [| y l IH]; intros s1 s2 Hs; simpl; [done |].
  destruct (decide (y ∈ s1)) as [Hy | Hy].
  - rewrite decide_True by (by apply Hs). by apply IH.
  - rewrite decide_False by (by rewrite <- Hs). f_equal. apply IH.
    intros x. rewrite !elem_of_cons, Hs. done.
Qed.

Lemma groupStep_keys (m : list (string * list (@PickerResponse num))) r :
  JsMap.keys (groupStep m r)
  = if decide (grapheme r ∈ JsMap.keys m) then JsMap.keys m
    else JsMap.keys m ++ [grapheme r].
Proof.
  unfold groupStep, JsMap.has.
  destruct (JsMap.get m (grapheme r)) as [grp |] eqn:Hget.
  - cbn [negb]. rewrite decide_True.
    + apply JsMap_set_keys_present. by rewrite Hget.
    + apply JsMap_get_elem_of in Hget. unfold JsMap.keys. apply list_elem_of_fmap.
      by exists (grapheme r, grp).
  - cbn [negb]. rewrite decide_False by (by apply JsMap_get_None).
    rewrite JsMap_set_keys_present.
    + rewrite (JsMap_set_absent _ _ _ Hget). unfold JsMap.keys. by rewrite fmap_app.
    + rewrite JsMap_get_set, decide_True by done. done.
Qed.

(** The stimuli come into the map in the order of their first response. *)
Lemma byG_keys_ordered (rs : list (@PickerResponse num)) m :
  JsMap.keys (fold_left groupStep rs m)
  = JsMap.keys m ++ uniqueInOrder (JsMap.keys m) (grapheme <$> rs).
Proof.
  revert m. induction rs as [| r rs IH]; intros m; simpl; [by rewrite app_nil_r |].
  rewrite IH, groupStep_keys.
  destruct (decide (grapheme r ∈ JsMap.keys m)) as [Hin | Hin]; [done |].
  rewrite <- (assoc_L (++)). f_equal. simpl. f_equal.
  apply uniqueInOrder_seen. intros x. rewrite elem_of_app, list_elem_of_singleton, elem_of_cons.
  tauto.
Qed.

Lemma fold_left_add_fmap {A} (f : A → num) (l : list A) z :
  fold_left (λ a x, num_add a (f x)) l z = fold_left num_add (f <$> l) z.
Proof. revert z. induction l as [| x l IH]; intros z; simpl; [done | apply IH]. Qed.

(** X17. The [pickerScore] of [scoreBattery] is the mean, 0 for no
    response, of one value for every stimulus that has a picker response,
    taken in the order of their first responses: the mean pairwise ΔE of
    the stimulus' repeat slots. A stimulus whose slots hold fewer than
    two colours, such as one answered "no color" throughout, is counted
    with the value 0. *)
Theorem scoreBattery_pickerScore (run : @BatteryRun num) (repeats : Z) :
  let responses := pickerResponses run in
  let stimuli := uniqueInOrder [] (grapheme <$> responses) in
  pickerScore (scoreBattery localeCompare run repeats)
  = mean ((λ g, meanPairwiseDistance (slotsOf responses g repeats)) <$> stimuli)
  ∧ (∀ g, g ∈ stimuli ↔ ∃ r, r ∈ responses ∧ grapheme r = g)
  ∧ (∀ g, (length (omap id (slotsOf responses g repeats)) ≤ 1)%nat →
          meanPairwiseDistance (slotsOf responses g repeats) = num_ofZ 0).
Proof.
  intros responses stimuli. split_and!.
  - unfold scoreBattery. cbn [pickerScore]. fold responses.
    set (byG := fold_left groupStep responses []).
    assert (meanDeltaE <$> (scoreRow repeats <$> byG)
            = (λ g, meanPairwiseDistance (slotsOf responses g repeats)) <$> stimuli) as Hrows.
    { subst stimuli. rewrite <- (app_nil_l (uniqueInOrder _ _)).
      change (@nil string) with (JsMap.keys (@nil (string * list (@PickerResponse num)))).
      rewrite <- byG_keys_ordered. fold byG. unfold JsMap.keys.
      rewrite <- !list_fmap_compose. apply list_fmap_ext.
      intros i [g0 grp] Hentry. apply list_elem_of_lookup_2 in Hentry.
      apply byG_entries in Hentry as ->. unfold compose. by rewrite scoreRow_group. }
    rewrite fold_left_add_fmap, <- (length_fmap meanDeltaE), Hrows.
    by destruct (_ <$> stimuli).
  - intros g0. subst stimuli. rewrite elem_of_uniqueInOrder, list_elem_of_fmap. split.
    + intros [(r & -> & Hr) _]. by exists r.
    + intros (r & Hr & <-). split; [by exists r | apply not_elem_of_nil].
  - intros g0. apply meanPairwiseDistance_few.
Qed.

End OverallScore.

(** ** The table of the results screen (results.tsx) *)
Section SortedInsertion.
Context {A : Type} (key : A → Z).

Lemma insertBy_Forall (P : A → Prop) x (l : list A) :
  P x → Forall P l → Forall P (insertBy (λ a b, key a - key b) x l).
Proof. intros Hx Hl. rewrite insertBy_Permutation. by constructor. Qed.

Lemma insertBy_sorted x (l : list A) :
  StronglySorted (λ a b, key a ≤ key b) l →
  StronglySorted (λ a b, key a ≤ key b) (insertBy (λ a b, key a - key b) x l).
Proof.
  induction 1 as [| y l Hl IH Hy]; simpl.
  - repeat constructor.
  - destruct (Z.ltb_spec (key x - key y) 0) as [Hlt | Hge].
    + constructor; [by constructor |].
      constructor; [lia |]. eapply Forall_impl; [exact Hy |]. simpl. intros z Hz. lia.
    + constructor; [exact IH |].
      apply insertBy_Forall; [lia | done].
Qed.

Lemma sortBy_sorted (l : list A) :
  StronglySorted (λ a b, key a ≤ key b) (sortBy (λ a b, key a - key b) l).
Proof.
  unfold sortBy.
  assert (∀ acc, StronglySorted (λ a b, key a ≤ key b) acc →
                 StronglySorted (λ a b, key a ≤ key b)
                   (fold_left (λ acc x, insertBy (λ a b, key a - key b) x acc) l acc)) as Hfold.
  { induction l as [| x l IH]; intros acc Hacc; simpl; [done |].
    by apply IH, insertBy_sorted. }
  apply Hfold. constructor.
Qed.

End SortedInsertion.

Section ResultTable.
Import JsString BatteryTypes Results RecorderSpec TableSpec.

Lemma pushTo_get (m : list (string * list PickerResponse)) key r k :
  JsMap.get (pushTo m key r) k
  = if decide (k = key) then Some (default [] (JsMap.get m k) ++ [r]) else JsMap.get m k.
Proof.
  unfold pushTo. rewrite JsMap_get_set.
  destruct (decide (k = key)) as [-> | Hk].
  - f_equal. f_equal. unfold JsMap.has.
    destruct (JsMap.get m key) eqn:Hg; simpl; [by rewrite Hg |].
    by rewrite JsMap_get_set, decide_True.
  - destruct (JsMap.has m key); simpl; [done |].
    by rewrite JsMap_get_set, decide_False.
Qed.

Lemma byKindStep_get gw r k s :
  JsMap.get (mapOf k (byKindStep gw r)) s
  = if decide (kind r = k ∧ grapheme r = s)
    then Some (default [] (JsMap.get (mapOf k gw) s) ++ [r])
    else JsMap.get (mapOf k gw) s.
Proof.
  unfold byKindStep.
  destruct (kind r) eqn:Hkind;
    [rewrite bool_decide_false by done | rewrite bool_decide_true by done];
    destruct k; cbn [mapOf fst snd]; rewrite ?pushTo_get;
    destruct (decide (s = grapheme r)) as [-> | Hne];
    try (rewrite decide_True by done; done);
    try (rewrite decide_False by (intros [? ?]; congruence); done).
Qed.

(** The maps after the grouping loop. *)
Lemma fold_byKindStep rs k s :
  JsMap.get (mapOf k (fold_left byKindStep rs ([], []))) s
  = match responsesOf k s rs with [] => None | grp => Some grp end.
Proof.
  induction rs as [| r rs IH] using rev_ind.
  - by destruct k.
  - rewrite fold_left_app. simpl. rewrite byKindStep_get, IH.
    unfold responsesOf. rewrite filter_app, filter_cons, filter_nil.
    destruct (decide (_ ∧ _)); [| by rewrite app_nil_r].
    by destruct (filter _ rs).
Qed.

Lemma sortEach_get (m : list (string * list PickerResponse)) s :
  JsMap.get (sortEach m) s = sortBy byRepeatIndex <$> JsMap.get m s.
Proof.
  unfold sortEach. induction m as [| [k arr] m IH]; simpl; [done |].
  destruct (decide (s = k)); [done | exact IH].
Qed.

Lemma byKind_get p k s :
  JsMap.get (mapOf k (byKind (Some p))) s
  = match responsesOf k s (pickerResponses p) with
    | [] => None
    | grp => Some (sortBy byRepeatIndex grp)
    end.
Proof.
  unfold byKind.
  assert (mapOf k (sortEach (fold_left byKindStep (pickerResponses p) ([], [])).1,
                   sortEach (fold_left byKindStep (pickerResponses p) ([], [])).2)
          = sortEach (mapOf k (fold_left byKindStep (pickerResponses p) ([], [])))) as ->
    by (by destruct k).
  rewrite sortEach_get, fold_byKindStep. by destruct (responsesOf k s (pickerResponses p)).
Qed.

(** X18. The table data of the results screen: for every kind and
    stimulus, [byKind] has an entry exactly when the stimulus has a picker
    response of that kind, and the entry lists these responses, each once, in
    ascending order of [repeatIndex]. Without a payload both maps are
    empty. *)
Theorem byKind_sorted_groups (p : BatteryRunPayload) (k : Kind) (s : string) :
  let entry := JsMap.get (mapOf k (byKind (Some p))) s in
  let given := responsesOf k s (pickerResponses p) in
  (entry = None ↔ given = [])
  ∧ (∀ reps, entry = Some reps → reps ≡ₚ given ∧ ascending reps)
  ∧ byKind None = ([], []).
Proof.
  intros entry given. subst entry. rewrite byKind_get. fold given. split_and!.
  - by destruct given.
  - intros reps Hreps.
    assert (reps = sortBy byRepeatIndex given) as ->.
    { destruct given; [done | by injection Hreps]. }
    split; [apply sortBy_Permutation | apply (sortBy_sorted repeatIndex)].
  - reflexivity.
Qed.

(** *** The columns of a row *)

Ltac elem_tac :=
  simpl; repeat first [apply list_elem_of_here | apply list_elem_of_further].

Lemma ascending_cons a l :
  ascending (a :: l) ↔ ascending l ∧ Forall (λ b, repeatIndex a ≤ repeatIndex b) l.
Proof.
  unfold ascending. split; [apply StronglySorted_inv | intros [? ?]; by constructor].
Qed.

(** Three responses for the repeats 0, 1 and 2, in a sorted list without
    other repeats, are the list. *)
Lemma sorted_three (l : list PickerResponse) r0 r1 r2 :
  ascending l → NoDup (repeatIndex <$> l) →
  (∀ r, r ∈ l → 0 ≤ repeatIndex r ≤ 2) →
  r0 ∈ l → r1 ∈ l → r2 ∈ l →
  repeatIndex r0 = 0 → repeatIndex r1 = 1 → repeatIndex r2 = 2 →
  l = [r0; r1; r2].
Proof.
  intros Hs Hn Hrange H0 H1 H2 E0 E1 E2.
  assert (∀ x y, x ∈ l → y ∈ l → repeatIndex x = repeatIndex y → x = y) as Hinj.
  { intros x y [i Hi]%list_elem_of_lookup [j Hj]%list_elem_of_lookup Heq.
    assert (i = j) as ->; [| congruence].
    eapply (NoDup_lookup _ i j _ Hn); rewrite list_lookup_fmap; [by rewrite Hi | by rewrite Hj, Heq]. }
  destruct l as [| a [| b [| c [| d l]]]].
  - by apply elem_of_nil in H0.
  - apply list_elem_of_singleton in H0, H1. subst. lia.
  - assert (∀ r, r ∈ [a; b] → repeatIndex r = repeatIndex a ∨ repeatIndex r = repeatIndex b) as Hab.
    { intros r [-> | ->%list_elem_of_singleton]%elem_of_cons; auto. }
    destruct (Hab r0 H0), (Hab r1 H1), (Hab r2 H2); lia.
  - apply ascending_cons in Hs as [Hs Ha]. apply ascending_cons in Hs as [_ Hb].
    apply Forall_cons in Ha as [Hab Ha]. apply Forall_cons in Ha as [Hac _].
    apply Forall_cons in Hb as [Hbc _].
    pose proof (Hrange a ltac:(elem_tac)) as Ra.
    pose proof (Hrange b ltac:(elem_tac)) as Rb.
    pose proof (Hrange c ltac:(elem_tac)) as Rc.
    assert (repeatIndex a ≠ repeatIndex b) as Nab.
    { intros Heq. apply Hinj in Heq; [| elem_tac..]. subst b.
      apply NoDup_cons in Hn as [Hn _]. apply Hn. elem_tac. }
    assert (repeatIndex b ≠ repeatIndex c) as Nbc.
    { intros Heq. apply Hinj in Heq; [| elem_tac..]. subst c.
      apply NoDup_cons in Hn as [_ Hn]. apply NoDup_cons in Hn as [Hn _]. apply Hn. elem_tac. }
    assert (r0 = a) as -> by (apply Hinj; [done | elem_tac | lia]).
    assert (r1 = b) as -> by (apply Hinj; [done | elem_tac | lia]).
    assert (r2 = c) as -> by (apply Hinj; [done | elem_tac | lia]).
    done.
  - apply ascending_cons in Hs as [Hs Ha]. apply ascending_cons in Hs as [Hs Hb].
    apply ascending_cons in Hs as [_ Hc].
    apply Forall_cons in Ha as [Hab _]. apply Forall_cons in Hb as [Hbc _].
    apply Forall_cons in Hc as [Hcd _].
    pose proof (Hrange a ltac:(elem_tac)) as Ra.
    pose proof (Hrange d ltac:(elem_tac)) as Rd.
    assert (repeatIndex a ≠ repeatIndex b) as Nab.
    { intros Heq. apply Hinj in Heq; [| elem_tac..]. subst b.
      apply NoDup_cons in Hn as [Hn _]. apply Hn. elem_tac. }
    assert (repeatIndex b ≠ repeatIndex c) as Nbc.
    { intros Heq. apply Hinj in Heq; [| elem_tac..]. subst c.
      apply NoDup_cons in Hn as [_ Hn]. apply NoDup_cons in Hn as [Hn _]. apply Hn. elem_tac. }
    assert (repeatIndex c ≠ repeatIndex d) as Ncd.
    { intros Heq. apply Hinj in Heq; [| elem_tac..]. subst d.
      apply NoDup_cons in Hn as [_ Hn]. apply NoDup_cons in Hn as [_ Hn].
      apply NoDup_cons in Hn as [Hn _]. apply Hn. elem_tac. }
    lia.
Qed.

Lemma NoDup_fmap_elements {A B} (f : A → B) (l : list A) x y :
  NoDup (f <$> l) → x ∈ l → y ∈ l → f x = f y → x = y.
Proof.
  intros Hn [i Hi]%list_elem_of_lookup [j Hj]%list_elem_of_lookup Heq.
  assert (i = j) as ->; [| congruence].
  eapply (NoDup_lookup _ i j _ Hn); rewrite list_lookup_fmap; [by rewrite Hi | by rewrite Hj, Heq].
Qed.

Lemma responsesOf_NoDup k s rs :
  NoDup (identity <$> rs) → NoDup (repeatIndex <$> responsesOf k s rs).
Proof.
  intros Hn. unfold responsesOf.
  apply NoDup_fmap_2_strong.
  - intros x y [[Kx Gx] Hx]%list_elem_of_filter [[Ky Gy] Hy]%list_elem_of_filter Heq.
    apply (NoDup_fmap_elements identity rs x y Hn Hx Hy).
    unfold identity. by rewrite Kx, Ky, Gx, Gy, Heq.
  - apply NoDup_filter. by apply NoDup_fmap_1 in Hn.
Qed.

(** X19. A row of the result table shows the answers by repeat when the
    stimulus is completely answered: if the payload has at most one
    response per identity, the stimulus has responses for the repeat
    indices 0, 1 and 2 and for no other index, then its entry in [byKind]
    is these three responses in this order, and the three cells of the row
    show their colours, an empty cell for "no color". *)
Theorem table_row_by_repeat (p : BatteryRunPayload) (k : Kind) (s : string)
    (r0 r1 r2 : PickerResponse) :
  atMostOnePerIdentity (pickerResponses p) →
  r0 ∈ pickerResponses p → r1 ∈ pickerResponses p → r2 ∈ pickerResponses p →
  identity r0 = (k, s, 0) → identity r1 = (k, s, 1) → identity r2 = (k, s, 2) →
  (∀ r, r ∈ pickerResponses p → kind r = k → grapheme r = s → 0 ≤ repeatIndex r ≤ 2) →
  JsMap.get (mapOf k (byKind (Some p))) s = Some [r0; r1; r2]
  ∧ colors [r0; r1; r2] = [cellColor r0; cellColor r1; cellColor r2].
Proof.
  intros Hone H0 H1 H2 [= K0 G0 E0] [= K1 G1 E1] [= K2 G2 E2] Hrange.
  split; [| reflexivity].
  rewrite byKind_get.
  set (given := responsesOf k s (pickerResponses p)).
  assert (∀ r, r ∈ pickerResponses p → kind r = k → grapheme r = s → r ∈ given) as Hgiven.
  { intros r Hr Kr Gr. by apply list_elem_of_filter. }
  assert (sortBy byRepeatIndex given = [r0; r1; r2]) as Hsorted.
  { apply sorted_three; try done.
    - apply (sortBy_sorted repeatIndex).
    - rewrite sortBy_Permutation. apply responsesOf_NoDup. by apply atMostOne_NoDup.
    - intros r. rewrite sortBy_Permutation. intros [[Kr Gr] Hr]%list_elem_of_filter. by apply Hrange.
    - rewrite sortBy_Permutation. by apply Hgiven.
    - rewrite sortBy_Permutation. by apply Hgiven.
    - rewrite sortBy_Permutation. by apply Hgiven. }
  specialize (Hgiven r0 H0 K0 G0). unfold given in *. clear given.
  destruct (responsesOf k s (pickerResponses p)); [by apply elem_of_nil in Hgiven |].
  by rewrite Hsorted.
Qed.

(** "A" answered blue for repeat 2, red for repeat 0 and "no color" for
    repeat 1: the row reads red, empty, blue. *)
Lemma table_row_by_repeat_witness :
  colors <$> JsMap.get (byKind (Some Samples.threeAnswers)).1 "A"
  = Some [Some "#ff0000"; None; Some "#0000ff"].
Proof.
  pose proof (table_row_by_repeat Samples.threeAnswers KGrapheme "A"
                (Examples.answer KGrapheme "A" 0 "#ff0000")
                (Examples.noAnswer KGrapheme "A" 1)
                (Examples.answer KGrapheme "A" 2 "#0000ff")) as H.
  destruct H as [Hget Hcolors].
  - apply NoDup_atMostOne. refine (bool_decide_unpack _ _). vm_compute. exact I.
  - elem_tac.
  - elem_tac.
  - elem_tac.
  - reflexivity.
  - reflexivity.
  - reflexivity.
  - intros r Hr _ _. simpl in Hr.
    repeat (apply elem_of_cons in Hr as [-> | Hr]; [simpl; lia |]).
    by apply elem_of_nil in Hr.
  - cbn [mapOf] in Hget. rewrite Hget. cbn [fmap option_fmap option_map]. by rewrite Hcolors.
Defined.

(** The cells are filled by position, not by repeat: with repeat 0
    unanswered, the first cell shows the colour of repeat 1. *)
Example table_row_shifts :
  colors <$> JsMap.get (byKind (Some Samples.lateAnswers)).1 "A"
  = Some [Some "#00ff00"; Some "#0000ff"; None].
Proof. reflexivity. Qed.

End ResultTable.

(** ** The progress bar of the picker screen (picker.tsx) *)
Section Progress.
Import BatteryTypes BatteryPlan PlanSpec.

Lemma trials_length runId now : length (Picker.trials runId now) = 99%nat.
Proof.
  unfold Picker.trials, buildPickerTrials. cbn [seed].
  pose proof (seedOfRunId_range runId) as Hseed.
  set (opts := {| graphemes := DEFAULT_GRAPHEMES; weekdays := DEFAULT_WEEKDAYS;
                  repeats := Picker.repeats; seed := Some (Picker.seedOfRunId runId) |}).
  assert (opts = seeded DEFAULT_GRAPHEMES DEFAULT_WEEKDAYS 3 (Picker.seedOfRunId runId)) as Hopts
    by reflexivity.
  destruct (shuffle_Permutation (unshuffledTrials opts) (Picker.seedOfRunId runId) now)
    as (plan & -> & Hperm); [lia |].
  rewrite length_fmap, (Permutation_length Hperm), Hopts. apply unshuffledTrials_length.
Qed.

(** With 99 trials the float computation gives the percentage of exact
    arithmetic, rounded half up. *)
Lemma pct_99 (k : Z) :
  0 ≤ k →
  let j := Z.min k 99 in
  Picker.pct 99 k = Some (Math_round (inject_Z (100 * j) / 99))
  ∧ Math_round (inject_Z (100 * j) / 99) = (200 * j + 99) / 198.
Proof.
  intros Hk j. unfold Picker.pct. change (99 =? 0) with false. cbv iota. fold j.
  assert (∃ n : nat, j = Z.of_nat n ∧ (n < 100)%nat) as (n & -> & Hn).
  { exists (Z.to_nat j). unfold j. lia. }
  do 100 (destruct n as [| n]; [split; vm_compute; reflexivity |]).
  lia.
Qed.

(** X23. The percentage on the progress bar. For every run, the picker
    screen shows the percentage of the answered trials among its 99
    trials, rounded half up: the binary64 computation of the source gives
    the value of exact arithmetic. The bar shows 0 only when no trial is
    answered and 100 only when all 99 are. *)
Theorem progress_percent (runId : string) (now : Z) (payload : option BatteryRunPayload) :
  let k := Z.min (Z.of_nat (Picker.countUniqueAnswered payload)) 99 in
  Picker.progress runId now payload = Some (Math_round (inject_Z (100 * k) / 99))
  ∧ Picker.progress runId now payload = Some ((200 * k + 99) / 198)
  ∧ (Picker.progress runId now payload = Some 0 ↔ Picker.countUniqueAnswered payload = 0%nat)
  ∧ (Picker.progress runId now payload = Some 100 ↔ (99 ≤ Picker.countUniqueAnswered payload)%nat).
Proof.
  intros k. unfold Picker.progress. rewrite trials_length. change (Z.of_nat 99) with 99.
  destruct (pct_99 (Z.of_nat (Picker.countUniqueAnswered payload))) as [Hpct Hround]; [lia |].
  fold k in Hpct, Hround. rewrite Hpct, Hround.
  split; [reflexivity |]. split; [reflexivity |].
  assert (0 ≤ k ≤ 99) as Hk by (unfold k; lia).
  split.
  - split.
    + intros [= Hz]. apply Z.div_small_iff in Hz; [| lia]. unfold k in *. lia.
    + intros Hz. unfold k. rewrite Hz. reflexivity.
  - split.
    + intros [= Hz].
      assert (k = 99) as Hk99.
      { destruct (decide (k = 99)) as [| Hne]; [done |].
        assert ((200 * k + 99) / 198 < 100); [| lia].
        apply Z.div_lt_upper_bound; lia. }
      unfold k in Hk99. lia.
    + intros Hz. assert (k = 99) as -> by (unfold k; lia). reflexivity.
Qed.

End Progress.

(** ** From the picker to the speed test (picker.tsx, congruency.tsx) *)
Section PickerToSpeedTest.
Import JsString ColorWheel BatteryTypes Congruency SessionSpec.

(** A string that [/^#[0-9a-f]{6}$/] accepts is its own normal form, and
    trimming and lower-casing leave it alone. *)
Lemma hashHex6_fixed h :
  isHashHex6 h = true → trim h = h ∧ toLowerCase h = h ∧ normalizeHex h = h.
Proof.
  intros Hm. destruct (isHashHex6_inv h Hm) as (c1 & c2 & c3 & c4 & c5 & c6 & -> & Hall).
  destruct (normalizeHex_normal c1 c2 c3 c4 c5 c6 Hall) as [Hnormal _].
  set (digits := String c1 (String c2 (String c3 (String c4 (String c5 (String c6 "")))))).
  assert (allChars isLowerHexDigit digits = true) as Hdigits.
  { unfold digits. simpl. repeat (apply Forall_cons in Hall as [-> Hall]). reflexivity. }
  split_and!.
  - apply trim_no_space. change (allChars (λ c, negb (isWhiteSpace c)) digits = true).
    eapply allChars_impl; [| exact Hdigits].
    intros c Hc. by rewrite (lowerHex_not_space c Hc).
  - by apply toLowerCase_hashed.
  - exact Hnormal.
Qed.

Lemma hashHex6_read h : isHashHex6 h = true → is_Some (hexToRgbSafe h).
Proof.
  intros Hm. destruct (hashHex6_fixed h Hm) as (_ & _ & Hn).
  destruct (hexToRgbSafe_accepts h) as (c & -> & _); [by rewrite Hn | done].
Qed.

Lemma wellFormed_hex r :
  wellFormed r → isNoColor r = false → ∃ h, hex r = Some h ∧ isHashHex6 h = true.
Proof.
  unfold wellFormed. intros Hwf Hno. rewrite Hno in Hwf.
  destruct Hwf as (h & c & Hh & _ & Hread & Hn). exists h. split; [exact Hh |].
  unfold hexToRgbSafe in Hread. cbv zeta in Hread. rewrite Hn in Hread.
  by destruct (isHashHex6 h).
Qed.

Lemma built_wellFormed p : built p → Forall wellFormed (pickerResponses p).
Proof.
  induction 1 as [now | st cur now p p' _ IH Hp Hnext]; [constructor |].
  apply onNext_Some in Hnext as (p0 & Hp0 & Hcan & Hrs & _).
  rewrite Hp in Hp0. injection Hp0 as <-. rewrite Hrs.
  apply insertResponse_Forall; [exact IH | by apply buildResponse_wellFormed].
Qed.

(** The canonical colours of well-formed responses are the stored strings
    themselves, each a colour. *)
Lemma canonical_valid p :
  Forall wellFormed (pickerResponses p) →
  Forall (λ h, isHashHex6 h = true) (JsMap.values (buildCanonicalMap p)).
Proof.
  unfold buildCanonicalMap. intros Hwf.
  assert (∀ rs m, Forall wellFormed rs →
                  Forall (λ h, isHashHex6 h = true) (JsMap.values m) →
                  Forall (λ h, isHashHex6 h = true) (JsMap.values (fold_left canonicalStep rs m)))
    as Hfold.
  { induction rs as [| r rs IH]; intros m Hrs Hm; simpl; [exact Hm |].
    apply Forall_cons in Hrs as [Hr Hrs]. apply IH; [exact Hrs |].
    unfold canonicalStep.
    destruct (negb (bool_decide (kind r = KGrapheme))); [exact Hm |].
    destruct (isNoColor r) eqn:Hno; [exact Hm |].
    destruct (wellFormed_hex r Hr Hno) as (h & -> & Hh).
    destruct (hashHex6_fixed h Hh) as (Htrim & Hlow & _).
    cbn [from_option]. unfold id. cbv zeta. rewrite Htrim, Hlow.
    destruct (isEmpty h); [exact Hm |].
    destruct (negb (JsMap.has m (grapheme r))); [| exact Hm].
    by apply JsMap_set_values. }
  apply Hfold; [exact Hwf | constructor].
Qed.

Lemma JsMap_set_elem {K V} `{EqDecision K} (m : list (K * V)) k v x :
  x ∈ JsMap.values (JsMap.set m k v) → x ∈ JsMap.values m ∨ x = v.
Proof.
  unfold JsMap.values. induction m as [| [k0 v0] m IH]; simpl.
  - intros ->%list_elem_of_singleton. by right.
  - destruct (decide (k = k0)); simpl; rewrite !elem_of_cons.
    + intros [-> | Hx]; [by right | by left; right].
    + intros [-> | Hx]; [by left; left |].
      destruct (IH Hx) as [? | ->]; [by left; right | by right].
Qed.

Lemma fallback_valid : Forall (λ h, isHashHex6 h = true) fallbackHexes.
Proof. repeat constructor. Qed.

(** Every trial of the speed test shows a canonical colour of the run or a
    colour of the fallback palette. *)
Lemma shownHex_source p ts i t :
  trials (Some p) = Some ts → ts !! i = Some t →
  shownHex t ∈ JsMap.values (buildCanonicalMap p) ∨ shownHex t ∈ fallbackHexes.
Proof.
  intros Hts Ht. pose proof (trials_lookup p ts i t Hts Ht) as Hat.
  unfold trialAt in Hat.
  destruct (pick (stimuli p) (i * 7 + 3)) as [g0 |]; [| done].
  cbn [mbind option_bind] in Hat.
  destruct (match JsMap.get (buildCanonicalMap p) g0 with
            | Some h => Some h
            | None => pick fallbackHexes i
            end) as [learned |] eqn:Hlearned; [| done].
  cbn [mbind option_bind] in Hat.
  assert (learned ∈ JsMap.values (buildCanonicalMap p) ∨ learned ∈ fallbackHexes) as Hl.
  { destruct (JsMap.get (buildCanonicalMap p) g0) as [h |] eqn:Hget.
    - injection Hlearned as <-. left. by eapply JsMap_get_values.
    - right. by eapply pick_elem. }
  destruct (i mod 2 =? 0)%nat.
  { cbn [mbind option_bind] in Hat. injection Hat as <-. exact Hl. }
  remember (uniqueInOrder [] (JsMap.values (buildCanonicalMap p))) as hexes eqn:Hhexes.
  set (source := match hexes with [] => fallbackHexes | _ => hexes end) in *.
  set (pool := filter (λ h, toLowerCase h ≠ toLowerCase learned) source) in *.
  destruct (pick (match pool with [] => fallbackHexes | _ => pool end) (i * 13 + 1))
    as [shown |] eqn:Hshown; [| done].
  cbn [mbind option_bind] in Hat. injection Hat as <-. cbn [shownHex].
  destruct pool eqn:Hpool.
  - right. by eapply pick_elem.
  - apply pick_elem in Hshown. rewrite <- Hpool in Hshown.
    subst pool. apply list_elem_of_filter in Hshown as [_ Hsrc].
    subst source. destruct hexes as [| h0 hs]; [by right |].
    rewrite Hhexes in Hsrc. apply elem_of_uniqueInOrder in Hsrc as [? _]. by left.
Qed.

(** X24. The colours that reach the speed test are colours. For every
    payload that the picker screen builds, each trial of the speed test
    shows a string of the form [#rrggbb] in lower-case hex digits, which
    [hexToRgbSafe] reads and [normalizeHex] leaves alone: it is either a
    hex string stored by the picker, unchanged, or a colour of the
    fallback palette. *)
Theorem speed_test_shows_colors (p : BatteryRunPayload) (ts : list Trial) :
  built p →
  trials (Some p) = Some ts →
  Forall (λ t, isHashHex6 (shownHex t) = true
               ∧ is_Some (hexToRgbSafe (shownHex t))
               ∧ normalizeHex (shownHex t) = shownHex t
               ∧ ((∃ r, r ∈ pickerResponses p ∧ hex r = Some (shownHex t))
                  ∨ shownHex t ∈ fallbackHexes)) ts.
Proof.
  intros Hbuilt Hts. apply Forall_lookup. intros i t Ht.
  pose proof (built_wellFormed p Hbuilt) as Hwf.
  assert (isHashHex6 (shownHex t) = true) as Hm.
  { destruct (shownHex_source p ts i t Hts Ht) as [Hc | Hf].
    - by apply (proj1 (Forall_forall _ _) (canonical_valid p Hwf)).
    - by apply (proj1 (Forall_forall _ _) fallback_valid). }
  split; [exact Hm |]. split; [by apply hashHex6_read |].
  split; [by apply hashHex6_fixed |].
  destruct (shownHex_source p ts i t Hts Ht) as [Hc | Hf]; [left | by right].
  revert Hc. unfold buildCanonicalMap.
  assert (∀ rs m x,
            Forall wellFormed rs →
            x ∈ JsMap.values (fold_left canonicalStep rs m) →
            x ∈ JsMap.values m ∨ ∃ r, r ∈ rs ∧ hex r = Some x) as Hfold.
  { induction rs as [| r rs IH]; intros m x Hrs Hx; simpl in Hx; [by left |].
    apply Forall_cons in Hrs as [Hr Hrs].
    destruct (IH _ _ Hrs Hx) as [Hin | (r' & Hr' & Hhex)].
    - unfold canonicalStep in Hin.
      destruct (negb (bool_decide (kind r = KGrapheme))); [by left |].
      destruct (isNoColor r) eqn:Hno; [by left |].
      destruct (wellFormed_hex r Hr Hno) as (h & Hh & Hhm).
      destruct (hashHex6_fixed h Hhm) as (Htrim & Hlow & _).
      rewrite Hh in Hin. cbn [from_option] in Hin. unfold id in Hin. cbv zeta in Hin.
      rewrite Htrim, Hlow in Hin.
      destruct (isEmpty h); [by left |].
      destruct (negb (JsMap.has m (grapheme r))); [| by left].
      apply JsMap_set_elem in Hin as [Hin | ->]; [by left |].
      right. exists r. split; [apply list_elem_of_here | exact Hh].
    - right. exists r'. split; [by apply list_elem_of_further | exact Hhex]. }
  intros Hc. destruct (Hfold _ _ _ Hwf Hc) as [Hnil | Hr]; [| exact Hr].
  by apply elem_of_nil in Hnil.
Qed.

(** After "A" was answered red, the forty trials of the speed test show red
    or a colour of the fallback palette. *)
Lemma speed_test_shows_colors_witness :
  ∃ p ts,
    Picker.onNext (Examples.screenWith (Picker.fresh 5) "#FF0000") (Some Examples.trialA0) 10
    = Some p
    ∧ trials (Some p) = Some ts
    ∧ length ts = 40%nat
    ∧ Forall (λ t, isHashHex6 (shownHex t) = true
                   ∧ is_Some (hexToRgbSafe (shownHex t))
                   ∧ normalizeHex (shownHex t) = shownHex t
                   ∧ ((∃ r, r ∈ pickerResponses p ∧ hex r = Some (shownHex t))
                      ∨ shownHex t ∈ fallbackHexes)) ts.
Proof.
  destruct (Picker.onNext (Examples.screenWith (Picker.fresh 5) "#FF0000")
              (Some Examples.trialA0) 10) as [p |] eqn:Hp; [| by vm_compute in Hp].
  destruct (trials (Some p)) as [ts |] eqn:Hts.
  - exists p, ts. split; [reflexivity |]. split; [exact Hts |]. split.
    + vm_compute in Hp. injection Hp as <-. vm_compute in Hts. injection Hts as <-.
      reflexivity.
    + apply (speed_test_shows_colors p ts); [| exact Hts].
      exact (built_next (Examples.screenWith (Picker.fresh 5) "#FF0000") Examples.trialA0 10
               (Picker.fresh 5) p (built_fresh 5) eq_refl Hp).
  - vm_compute in Hp. injection Hp as <-. vm_compute in Hts. discriminate Hts.
Defined.

End PickerToSpeedTest.

